(** * gemini-tool-mcp: the chunk cache and the logger's redaction

    A shallow embedding of [src/utils/chunkCache.ts] and of the redaction
    helpers of [src/utils/logger.ts], with the platform they run on (Node's
    [crypto], [path] and [fs] modules, the clock, the console) modelled as an
    explicit world that every operation threads through. *)

From Stdlib Require Import String Ascii.
From Stdlib Require Import ZArith NArith List Bool Lia.
From Stdlib Require Import Permutation Sorted.
Import ListNotations.

Set Implicit Arguments.
Local Open Scope list_scope.

(* ================================================================== *)
(** ** JavaScript strings *)
(* ================================================================== *)

(** A JavaScript string is a sequence of UTF-16 code units; [length] of the
    list is the string's [.length]. *)
Module Js.

Abbreviation jstring := (list N).

(** The code units of an ASCII literal of the source. *)
Definition lit (s : string) : jstring :=
  map N_of_ascii (list_ascii_of_string s).

(** [a === b] on strings. *)
Fixpoint eqb (a b : jstring) : bool :=
  match a, b with
  | [], [] => true
  | x :: a', y :: b' => N.eqb x y && eqb a' b'
  | _, _ => false
  end.

(** [s.startsWith(p)] *)
Fixpoint startsWith (s p : jstring) {struct p} : bool :=
  match p, s with
  | [], _ => true
  | y :: p', x :: s' => N.eqb x y && startsWith s' p'
  | _ :: _, [] => false
  end.

(** [s.endsWith(p)] *)
Definition endsWith (s p : jstring) : bool :=
  startsWith (rev s) (rev p).

(** [s.slice(0, n)] for a non-negative [n]. *)
Definition slice0 (n : nat) (s : jstring) : jstring := firstn n s.

(** Decimal digits, as the template literal [`${n}`] prints a non-negative
    integer. *)
Fixpoint uint_chars (u : Decimal.uint) : jstring :=
  match u with
  | Decimal.Nil => []
  | Decimal.D0 u => 48%N :: uint_chars u
  | Decimal.D1 u => 49%N :: uint_chars u
  | Decimal.D2 u => 50%N :: uint_chars u
  | Decimal.D3 u => 51%N :: uint_chars u
  | Decimal.D4 u => 52%N :: uint_chars u
  | Decimal.D5 u => 53%N :: uint_chars u
  | Decimal.D6 u => 54%N :: uint_chars u
  | Decimal.D7 u => 55%N :: uint_chars u
  | Decimal.D8 u => 56%N :: uint_chars u
  | Decimal.D9 u => 57%N :: uint_chars u
  end.

Definition of_nat (n : nat) : jstring := uint_chars (Nat.to_uint n).

(** [Buffer.from(s, 'utf8')]: the UTF-8 bytes Node hashes and writes for a
    string.  A surrogate pair is one 4-byte sequence; a lone surrogate is
    replaced by U+FFFD (EF BF BD). *)
Definition is_high (c : N) : bool := (0xD800 <=? c)%N && (c <=? 0xDBFF)%N.
Definition is_low (c : N) : bool := (0xDC00 <=? c)%N && (c <=? 0xDFFF)%N.

Definition utf8_3 (c : N) : list Z :=
  [ Z.of_N (N.lor 0xE0 (N.shiftr c 12));
    Z.of_N (N.lor 0x80 (N.land (N.shiftr c 6) 0x3F));
    Z.of_N (N.lor 0x80 (N.land c 0x3F)) ].

Definition utf8_4 (hi lo : N) : list Z :=
  let cp := (0x10000 + (hi - 0xD800) * 0x400 + (lo - 0xDC00))%N in
  [ Z.of_N (N.lor 0xF0 (N.shiftr cp 18));
    Z.of_N (N.lor 0x80 (N.land (N.shiftr cp 12) 0x3F));
    Z.of_N (N.lor 0x80 (N.land (N.shiftr cp 6) 0x3F));
    Z.of_N (N.lor 0x80 (N.land cp 0x3F)) ].

Definition replacement : list Z := [0xEF; 0xBF; 0xBD]%Z.

Fixpoint utf8 (s : jstring) : list Z :=
  match s with
  | [] => []
  | c :: s' =>
      if (c <? 0x80)%N then Z.of_N c :: utf8 s'
      else if (c <? 0x800)%N then
        Z.of_N (N.lor 0xC0 (N.shiftr c 6))
          :: Z.of_N (N.lor 0x80 (N.land c 0x3F)) :: utf8 s'
      else if is_high c then
        match s' with
        | d :: s'' =>
            if is_low d then utf8_4 c d ++ utf8 s''
            else replacement ++ utf8 s'
        | [] => replacement
        end
      else if is_low c then replacement ++ utf8 s'
      else utf8_3 c ++ utf8 s'
  end.

End Js.

Abbreviation jstring := (list N).
Abbreviation lit := Js.lit.

(* ================================================================== *)
(** ** crypto: sha-256 and hex encoding *)
(* ================================================================== *)

Module Crypto.

Local Open Scope Z_scope.

Definition w32 (x : Z) : Z := x mod 2 ^ 32.
Definition add32 (x y : Z) : Z := w32 (x + y).
Definition rotr (n x : Z) : Z :=
  w32 (Z.lor (Z.shiftr x n) (Z.shiftl x (32 - n))).
Definition not32 (x : Z) : Z := Z.lxor x 0xFFFFFFFF.

Definition Ch (x y z : Z) : Z := Z.lxor (Z.land x y) (Z.land (not32 x) z).
Definition Maj (x y z : Z) : Z :=
  Z.lxor (Z.lxor (Z.land x y) (Z.land x z)) (Z.land y z).
Definition bsig0 (x : Z) : Z :=
  Z.lxor (Z.lxor (rotr 2 x) (rotr 13 x)) (rotr 22 x).
Definition bsig1 (x : Z) : Z :=
  Z.lxor (Z.lxor (rotr 6 x) (rotr 11 x)) (rotr 25 x).
Definition ssig0 (x : Z) : Z :=
  Z.lxor (Z.lxor (rotr 7 x) (rotr 18 x)) (Z.shiftr x 3).
Definition ssig1 (x : Z) : Z :=
  Z.lxor (Z.lxor (rotr 17 x) (rotr 19 x)) (Z.shiftr x 10).

(** The round constants are the first 32 bits of the fractional parts of
    the cube roots of the first 64 primes; the initial hash value is the
    same of the square roots of the first 8. *)
Definition is_prime (n : nat) : bool :=
  Nat.ltb 1 n
  && forallb (fun d => negb (Nat.eqb (Nat.modulo n d) 0)) (seq 2 (n - 2)).

Definition primes64 : list Z :=
  Eval vm_compute in map Z.of_nat (firstn 64 (filter is_prime (seq 2 310))).

(** The integer cube root, by bisection of [lo, hi). *)
Fixpoint bisect (fuel : nat) (lo hi n : Z) : Z :=
  match fuel with
  | O => lo
  | S fuel' =>
      if hi - lo <=? 1 then lo
      else
        let mid := (lo + hi) / 2 in
        if mid * mid * mid <=? n then bisect fuel' mid hi n
        else bisect fuel' lo mid n
  end.

Definition cube_root (n : Z) : Z := bisect 64 0 (2 ^ 36) n.

Definition K256 : list Z :=
  Eval vm_compute in
    map (fun p => cube_root (p * 2 ^ 96) mod 2 ^ 32) primes64.

Definition H256 : list Z :=
  Eval vm_compute in
    map (fun p => Z.sqrt (p * 2 ^ 64) mod 2 ^ 32) (firstn 8 primes64).

(** The eight working words. *)
Record regs := Regs {
  ra : Z; rb : Z; rc : Z; rd : Z; re : Z; rf : Z; rg : Z; rh : Z
}.

Definition init_regs : regs :=
  Regs (nth 0 H256 0) (nth 1 H256 0) (nth 2 H256 0) (nth 3 H256 0)
       (nth 4 H256 0) (nth 5 H256 0) (nth 6 H256 0) (nth 7 H256 0).

(** Padding: a 1 bit, zeros up to 56 mod 64, then the bit length as a
    64-bit big-endian integer. *)
Definition be_bytes (n : nat) (x : Z) : list Z :=
  map (fun i => Z.land (Z.shiftr x (8 * Z.of_nat i)) 0xFF) (rev (seq 0 n)).

Definition pad (msg : list Z) : list Z :=
  let len := Z.of_nat (length msg) in
  let zeros := Z.to_nat ((55 - len) mod 64) in
  msg ++ 0x80 :: repeat 0 zeros ++ be_bytes 8 (8 * len).

Fixpoint be_word (bs : list Z) (acc : Z) : Z :=
  match bs with
  | [] => acc
  | b :: bs' => be_word bs' (Z.lor (Z.shiftl acc 8) (Z.land b 0xFF))
  end.

(** Big-endian 32-bit words of a byte sequence, four bytes at a time. *)
Fixpoint words (n : nat) (bs : list Z) : list Z :=
  match n with
  | O => []
  | S n' => be_word (firstn 4 bs) 0 :: words n' (skipn 4 bs)
  end.

(** The message schedule, newest word first: [sched] holds W[t-1], W[t-2],
    ... and is extended up to 64 words. *)
Fixpoint extend (n : nat) (sched : list Z) : list Z :=
  match n with
  | O => sched
  | S n' =>
      let w := add32 (add32 (ssig1 (nth 1 sched 0)) (nth 6 sched 0))
                     (add32 (ssig0 (nth 14 sched 0)) (nth 15 sched 0)) in
      extend n' (w :: sched)
  end.

Definition schedule (block : list Z) : list Z :=
  rev (extend 48 (rev (words 16 block))).

Definition round (r : regs) (kw : Z * Z) : regs :=
  let '(k, w) := kw in
  let t1 := add32 (add32 (add32 (rh r) (bsig1 (re r)))
                         (add32 (Ch (re r) (rf r) (rg r)) k)) w in
  let t2 := add32 (bsig0 (ra r)) (Maj (ra r) (rb r) (rc r)) in
  Regs (add32 t1 t2) (ra r) (rb r) (rc r) (add32 (rd r) t1) (re r) (rf r) (rg r).

Definition compress (h : regs) (block : list Z) : regs :=
  let r := fold_left round (combine K256 (schedule block)) h in
  Regs (add32 (ra h) (ra r)) (add32 (rb h) (rb r))
       (add32 (rc h) (rc r)) (add32 (rd h) (rd r))
       (add32 (re h) (re r)) (add32 (rf h) (rf r))
       (add32 (rg h) (rg r)) (add32 (rh h) (rh r)).

Fixpoint blocks (n : nat) (h : regs) (bs : list Z) : regs :=
  match n with
  | O => h
  | S n' => blocks n' (compress h (firstn 64 bs)) (skipn 64 bs)
  end.

Definition regs_bytes (r : regs) : list Z :=
  be_bytes 4 (ra r) ++ be_bytes 4 (rb r) ++ be_bytes 4 (rc r) ++
  be_bytes 4 (rd r) ++ be_bytes 4 (re r) ++ be_bytes 4 (rf r) ++
  be_bytes 4 (rg r) ++ be_bytes 4 (rh r).

(** The 32 bytes of the digest. *)
Definition sha256 (msg : list Z) : list Z :=
  let p := pad msg in
  regs_bytes (blocks (length p / 64) init_regs p).

(** [buf.toString('hex')]: two lowercase hex digits per byte. *)
Definition hex_digit (d : Z) : N :=
  let d := d mod 16 in
  if d <? 10 then Z.to_N (48 + d) else Z.to_N (87 + d).

Definition hex_byte (b : Z) : jstring := [hex_digit (b / 16); hex_digit b].

Definition toString_hex (bs : list Z) : jstring := flat_map hex_byte bs.

(** [createHash('sha256').update(s).digest('hex')] *)
Definition sha256_hex (s : jstring) : jstring :=
  toString_hex (sha256 (Js.utf8 s)).

End Crypto.

(* ================================================================== *)
(** ** path (POSIX flavour) *)
(* ================================================================== *)

(** Node's [path.posix]: [normalize], [join] and [resolve] work on the
    '/'-separated segments of a path; empty and "." segments vanish and ".."
    removes the segment before it. *)
Module Path.

Definition SLASH : N := 47.
Definition DOT : N := 46.

(** [path.sep] *)
Definition sep : jstring := [SLASH].

Fixpoint segments (p : jstring) : list jstring :=
  match p with
  | [] => [[]]
  | c :: p' =>
      if N.eqb c SLASH then [] :: segments p'
      else match segments p' with
           | seg :: rest => (c :: seg) :: rest
           | [] => [[c]]
           end
  end.

Fixpoint join_with (l : list jstring) : jstring :=
  match l with
  | [] => []
  | x :: r =>
      match r with
      | [] => x
      | _ :: _ => x ++ SLASH :: join_with r
      end
  end.

(** One segment against the segments kept so far (newest first). *)
Definition step (allowAboveRoot : bool) (kept : list jstring) (seg : jstring)
  : list jstring :=
  if Js.eqb seg [] || Js.eqb seg [DOT] then kept
  else if Js.eqb seg [DOT; DOT] then
    match kept with
    | [] => if allowAboveRoot then [seg] else []
    | top :: rest =>
        if Js.eqb top [DOT; DOT]
        then (if allowAboveRoot then seg :: kept else kept)
        else rest
    end
  else seg :: kept.

Definition normalizeString (p : jstring) (allowAboveRoot : bool) : jstring :=
  join_with (rev (fold_left (step allowAboveRoot) (segments p) [])).

Definition isAbsolute (p : jstring) : bool :=
  match p with
  | c :: _ => N.eqb c SLASH
  | [] => false
  end.

Definition normalize (p : jstring) : jstring :=
  match p with
  | [] => [DOT]
  | _ :: _ =>
      let trailing := Js.endsWith p sep in
      let q := normalizeString p (negb (isAbsolute p)) in
      match q with
      | [] => if isAbsolute p then sep
              else if trailing then [DOT; SLASH] else [DOT]
      | _ :: _ =>
          let q := if trailing then q ++ sep else q in
          if isAbsolute p then SLASH :: q else q
      end
  end.

(** [path.join(...args)] *)
Definition join (args : list jstring) : jstring :=
  match filter (fun a => negb (Js.eqb a [])) args with
  | [] => [DOT]
  | nonempty => normalize (join_with nonempty)
  end.

(** The right-to-left loop of [path.resolve]: prepend arguments until one
    is absolute. *)
Fixpoint resolve_loop (rargs : list jstring) (acc : jstring) : jstring * bool :=
  match rargs with
  | [] => (acc, false)
  | p :: rest =>
      match p with
      | [] => resolve_loop rest acc
      | _ :: _ =>
          let acc := p ++ SLASH :: acc in
          if isAbsolute p then (acc, true) else resolve_loop rest acc
      end
  end.

(** [path.resolve(...args)], with [cwd] the value of [process.cwd()]. *)
Definition resolve (cwd : jstring) (args : list jstring) : jstring :=
  let '(p, absolute) := resolve_loop (rev (cwd :: args)) [] in
  let q := normalizeString p (negb absolute) in
  if absolute then SLASH :: q
  else match q with [] => [DOT] | _ :: _ => q end.

End Path.


(* ================================================================== *)
(** ** The world: file system, clock, entropy, console *)
(* ================================================================== *)

(** Everything the cache reaches outside its own code.  The file system maps
    a path, as the string handed to [fs], to a regular file or a directory
    (the first binding of a path is the one in force); every path the cache
    builds is absolute and normalised.  The cache directory is flat: what
    [readdirSync] lists are the regular files in it, which is all the cache
    ever creates there.  [unlinkSync] and [readFileSync] throw for a path
    that holds no regular file, [statSync] for a path that holds nothing;
    [writeFileSync] throws where the world's fault oracle says (no space, no
    permission, a directory in the way, a missing parent).  This is the
    file system at its most obliging: [mkdirSync] always makes the
    directory, and a write that fails leaves nothing behind.  [Posix],
    further down, is the file system in which making the directory and
    removing what it lists fail as they do on disk. *)
Module Node.

(** The error objects the platform throws. *)
Inductive Err :=
| ENOENT | EISDIR | ENOTDIR | EEXIST | EIO
| SyntaxError   (* JSON.parse *)
| TypeError.    (* JSON.stringify *)

(** [`${error}`] *)
Definition err_text (e : Err) : jstring :=
  match e with
  | ENOENT => lit "Error: ENOENT: no such file or directory"
  | EISDIR => lit "Error: EISDIR: illegal operation on a directory"
  | ENOTDIR => lit "Error: ENOTDIR: not a directory"
  | EEXIST => lit "Error: EEXIST: file already exists"
  | EIO => lit "Error: EIO: i/o error"
  | SyntaxError => lit "SyntaxError: Unexpected token in JSON"
  | TypeError => lit "TypeError: Converting circular structure to JSON"
  end.

Inductive Result (A : Type) :=
| Return (a : A)
| Throw (e : Err).
Arguments Return {A} a.
Arguments Throw {A} e.

(** The calls into [fs], as the trace records them. *)
Inductive fs_call :=
| Call_exists (p : jstring)
| Call_mkdir (p : jstring)
| Call_chmod (p : jstring)
| Call_readdir (p : jstring)
| Call_stat (p : jstring)
| Call_unlink (p : jstring)
| Call_write (p : jstring)
| Call_read (p : jstring).

Inductive stream := Stderr_warn | Stderr_error.

(** What the process is started with.  [os.tmpdir()] is an absolute path;
    [LOG_PREFIX] comes from constants.js. *)
Record Env := {
  tmpdir : jstring;
  tmpdir_absolute : Path.isAbsolute tmpdir = true;
  cwd : jstring;
  LOG_PREFIX : jstring;
  GEMINI_MCP_LOG_PROMPTS : option jstring
}.

Section World.

(** [EditChunk] belongs to the chunker; the cache stores and returns its
    values unopened.  [stringifiable] tells the values [JSON.stringify]
    accepts. *)
Variable EditChunk : Type.
Variable stringifiable : EditChunk -> bool.

(** interface CacheEntry *)
Record CacheEntry := {
  chunks : list EditChunk;
  timestamp : Z;
  promptHash : jstring
}.

(** What a file holds: the text [JSON.stringify] made of an entry, which
    [JSON.parse] reads back as that entry, or text [JSON.parse] rejects. *)
Inductive Text :=
| Serialized (e : CacheEntry)
| Garbage (raw : jstring).

Record file := { content : Text; mtimeMs : Z }.

Record World := {
  files : list (jstring * file);
  dirs : list (jstring * Z);
  clock : Z;                        (* epoch milliseconds *)
  entropy : nat -> Z;               (* the bytes randomBytes will hand out *)
  drawn : nat;                      (* how many it has handed out *)
  write_fails : jstring -> bool;    (* where writeFileSync throws *)
  console : list (stream * jstring);
  trace : list fs_call
}.

Definition M (A : Type) : Type := World -> Result A * World.

Definition ret {A} (a : A) : M A := fun w => (Return a, w).

Definition bind {A B} (c : M A) (k : A -> M B) : M B :=
  fun w =>
    match c w with
    | (Return a, w') => k a w'
    | (Throw e, w') => (Throw e, w')
    end.

(** [try { c } catch (error) { h error }]: the handler runs in the world the
    throw left behind. *)
Definition try_catch {A} (c : M A) (h : Err -> M A) : M A :=
  fun w =>
    match c w with
    | (Return a, w') => (Return a, w')
    | (Throw e, w') => h e w'
    end.

Definition throw {A} (e : Err) : M A := fun w => (Throw e, w).

Definition traced (c : fs_call) (w : World) : World :=
  {| files := files w; dirs := dirs w; clock := clock w;
     entropy := entropy w; drawn := drawn w; write_fails := write_fails w;
     console := console w; trace := trace w ++ [c] |}.

Definition set_files (fs : list (jstring * file)) (w : World) : World :=
  {| files := fs; dirs := dirs w; clock := clock w;
     entropy := entropy w; drawn := drawn w; write_fails := write_fails w;
     console := console w; trace := trace w |}.

Definition set_dirs (ds : list (jstring * Z)) (w : World) : World :=
  {| files := files w; dirs := ds; clock := clock w;
     entropy := entropy w; drawn := drawn w; write_fails := write_fails w;
     console := console w; trace := trace w |}.

Definition set_clock (t : Z) (w : World) : World :=
  {| files := files w; dirs := dirs w; clock := t;
     entropy := entropy w; drawn := drawn w; write_fails := write_fails w;
     console := console w; trace := trace w |}.

Definition set_drawn (n : nat) (w : World) : World :=
  {| files := files w; dirs := dirs w; clock := clock w;
     entropy := entropy w; drawn := n; write_fails := write_fails w;
     console := console w; trace := trace w |}.

Definition printed (s : stream) (text : jstring) (w : World) : World :=
  {| files := files w; dirs := dirs w; clock := clock w;
     entropy := entropy w; drawn := drawn w; write_fails := write_fails w;
     console := console w ++ [(s, text)]; trace := trace w |}.

(** *** Lookups *)

Fixpoint assoc {V} (p : jstring) (l : list (jstring * V)) : option V :=
  match l with
  | [] => None
  | (q, v) :: l' => if Js.eqb q p then Some v else assoc p l'
  end.

Definition without {V} (p : jstring) (l : list (jstring * V))
  : list (jstring * V) :=
  filter (fun qv => negb (Js.eqb (fst qv) p)) l.

Definition is_some {V} (o : option V) : bool :=
  match o with Some _ => true | None => false end.

(** The name under which [q] is listed in directory [d], if [q] lies
    directly inside it. *)
Definition child_name (d q : jstring) : option jstring :=
  if Js.startsWith q (d ++ Path.sep) then
    let n := skipn (length d + 1) q in
    match n with
    | [] => None
    | _ :: _ => if forallb (fun c => negb (N.eqb c Path.SLASH)) n
                then Some n else None
    end
  else None.

Fixpoint children (d : jstring) (l : list (jstring * file)) : list jstring :=
  match l with
  | [] => []
  | (q, _) :: l' =>
      match child_name d q with
      | Some n => n :: children d l'
      | None => children d l'
      end
  end.

(** A directory lists each name once. *)
Definition listing (d : jstring) (l : list (jstring * file)) : list jstring :=
  nodup (list_eq_dec N.eq_dec) (children d l).

(** *** fs *)

Definition existsSync (p : jstring) : M bool :=
  fun w => (Return (is_some (assoc p (files w)) || is_some (assoc p (dirs w))),
            traced (Call_exists p) w).

(** [fs.mkdirSync(p, { recursive: true, mode })] *)
Definition mkdirSync (p : jstring) : M unit :=
  fun w =>
    let w := traced (Call_mkdir p) w in
    if is_some (assoc p (files w)) then (Throw EEXIST, w)
    else if is_some (assoc p (dirs w)) then (Return tt, w)
    else (Return tt, set_dirs ((p, clock w) :: dirs w) w).

(** [fs.chmodSync(p, mode)]; permission bits are not modelled. *)
Definition chmodSync (p : jstring) : M unit :=
  fun w =>
    let w := traced (Call_chmod p) w in
    if is_some (assoc p (files w)) || is_some (assoc p (dirs w))
    then (Return tt, w) else (Throw ENOENT, w).

Definition readdirSync (p : jstring) : M (list jstring) :=
  fun w =>
    let w := traced (Call_readdir p) w in
    if is_some (assoc p (dirs w)) then (Return (listing p (files w)), w)
    else if is_some (assoc p (files w)) then (Throw ENOTDIR, w)
    else (Throw ENOENT, w).

(** [fs.statSync(p).mtimeMs] *)
Definition statSync_mtimeMs (p : jstring) : M Z :=
  fun w =>
    let w := traced (Call_stat p) w in
    match assoc p (files w) with
    | Some f => (Return (mtimeMs f), w)
    | None =>
        match assoc p (dirs w) with
        | Some t => (Return t, w)
        | None => (Throw ENOENT, w)
        end
    end.

Definition unlinkSync (p : jstring) : M unit :=
  fun w =>
    let w := traced (Call_unlink p) w in
    match assoc p (files w) with
    | Some _ => (Return tt, set_files (without p (files w)) w)
    | None =>
        if is_some (assoc p (dirs w)) then (Throw EISDIR, w)
        else (Throw ENOENT, w)
    end.

(** [fs.writeFileSync(p, data, { mode })]: creates or overwrites. *)
Definition writeFileSync (p : jstring) (data : Text) : M unit :=
  fun w =>
    let w := traced (Call_write p) w in
    if write_fails w p then (Throw EIO, w)
    else (Return tt,
          set_files ((p, {| content := data; mtimeMs := clock w |})
                       :: without p (files w)) w).

(** [fs.readFileSync(p, 'utf-8')] *)
Definition readFileSync (p : jstring) : M Text :=
  fun w =>
    let w := traced (Call_read p) w in
    match assoc p (files w) with
    | Some f => (Return (content f), w)
    | None =>
        if is_some (assoc p (dirs w)) then (Throw EISDIR, w)
        else (Throw ENOENT, w)
    end.

(** *** The rest of the platform *)

(** [Date.now()] *)
Definition Date_now : M Z := fun w => (Return (clock w), w).

(** [randomBytes(n)] *)
Definition randomBytes (n : nat) : M (list Z) :=
  fun w => (Return (map (entropy w) (seq (drawn w) n)),
            set_drawn (drawn w + n) w).

Definition console_warn (text : jstring) : M unit :=
  fun w => (Return tt, printed Stderr_warn text w).

Definition console_error (text : jstring) : M unit :=
  fun w => (Return tt, printed Stderr_error text w).

Definition JSON_stringify (e : CacheEntry) : M Text :=
  if forallb stringifiable (chunks e) then ret (Serialized e)
  else throw TypeError.

Definition JSON_parse (t : Text) : M CacheEntry :=
  match t with
  | Serialized e => ret e
  | Garbage _ => throw SyntaxError
  end.

End World.

Arguments Serialized {EditChunk} e.
Arguments Garbage {EditChunk} raw.
Arguments ret {EditChunk A} a.
Arguments throw {EditChunk A} e.
Arguments existsSync {EditChunk} p.
Arguments mkdirSync {EditChunk} p.
Arguments chmodSync {EditChunk} p.
Arguments readdirSync {EditChunk} p.
Arguments statSync_mtimeMs {EditChunk} p.
Arguments unlinkSync {EditChunk} p.
Arguments writeFileSync {EditChunk} p data.
Arguments readFileSync {EditChunk} p.
Arguments Date_now {EditChunk}.
Arguments randomBytes {EditChunk} n.
Arguments console_warn {EditChunk} text.
Arguments console_error {EditChunk} text.
Arguments JSON_parse {EditChunk} t.

End Node.

Declare Scope js_scope.
Delimit Scope js_scope with js.
Notation "x <- c ;; k" := (Node.bind c (fun x => k))
  (at level 61, c at next level, right associativity) : js_scope.
Notation "c ;; k" := (Node.bind c (fun _ => k))
  (at level 61, right associativity) : js_scope.
Notation "'try' c 'catch' h" := (Node.try_catch c h)
  (at level 60, c at level 61, h at level 9) : js_scope.

(* ================================================================== *)
(** ** src/utils/logger.ts *)
(* ================================================================== *)

Module Logger.
Import Node.
Local Open Scope js_scope.

Section Logger.

Context {EditChunk : Type}.
Variable env : Env.

Definition formatMessage (message : jstring) : jstring :=
  LOG_PREFIX env ++ lit " " ++ message ++ [10%N].

Definition shouldLogPrompts : bool :=
  match GEMINI_MCP_LOG_PROMPTS env with
  | Some v => Js.eqb v (lit "1")
  | None => false
  end.

Definition redactString (value : jstring) : jstring :=
  if shouldLogPrompts then value
  else
    let hash := Js.slice0 12 (Crypto.sha256_hex value) in
    lit "[REDACTED len=" ++ Js.of_nat (length value)
      ++ lit " sha256=" ++ hash ++ lit "]".

Definition log (message : jstring) : M EditChunk unit :=
  console_warn (formatMessage message).

Definition warn (message : jstring) : M EditChunk unit :=
  console_warn (formatMessage message).

Definition error (message : jstring) : M EditChunk unit :=
  console_error (formatMessage message).

Definition debug (message : jstring) : M EditChunk unit :=
  console_warn (formatMessage message).

End Logger.
End Logger.

(* ================================================================== *)
(** ** src/utils/chunkCache.ts *)
(* ================================================================== *)

Module ChunkCache.
Import Node.
Local Open Scope js_scope.

Definition CACHE_TTL : Z := 10 * 60 * 1000.
Definition MAX_CACHE_FILES : nat := 50.

(** [/^[a-f0-9]{8}$/i].  Without the [u] flag, ignoring case compares the
    upper-case forms of single code units, and a character outside ASCII
    never canonicalises into ASCII: the class matches the digits and the
    letters a-f of either case. *)
Definition canonicalize (c : N) : N :=
  if (97 <=? c)%N && (c <=? 122)%N then (c - 32)%N else c.

Definition class_a_f_0_9 (c : N) : bool :=
  ((97 <=? c)%N && (c <=? 102)%N) || ((48 <=? c)%N && (c <=? 57)%N).

Definition class_ignoreCase (c : N) : bool :=
  let u := canonicalize c in
  ((65 <=? u)%N && (u <=? 70)%N) || ((48 <=? u)%N && (u <=? 57)%N).

Definition CACHE_KEY_PATTERN_test (s : jstring) : bool :=
  Nat.eqb (length s) 8 && forallb class_ignoreCase s.

(** What [sort] works on in enforceFileLimits. *)
Record listed := { name : jstring; path : jstring; mtime : Z }.

(** [Array.prototype.sort((a, b) => a.mtime - b.mtime)]: stable, so an
    element moves behind another only when the comparator is positive. *)
Fixpoint insert (a : listed) (l : list listed) : list listed :=
  match l with
  | [] => [a]
  | b :: l' =>
      if (mtime a - mtime b >? 0)%Z then b :: insert a l' else a :: l
  end.

Definition sort (l : list listed) : list listed := fold_right insert [] l.

Record Stats := {
  size : nat; ttl : Z; maxSize : nat; cacheDir : jstring
}.

Section ChunkCache.

Variable EditChunk : Type.
Variable stringifiable : EditChunk -> bool.
Variable env : Env.

Local Abbreviation M := (Node.M EditChunk).

Definition CACHE_DIR : jstring :=
  Path.join [tmpdir env; lit "gemini-mcp-chunks"].

(** [for (const x of xs) body], threading what the body updates. *)
Fixpoint for_of {A S} (xs : list A) (body : A -> S -> M S) (s : S) : M S :=
  match xs with
  | [] => ret s
  | x :: xs' => s' <- body x s ;; for_of xs' body s'
  end.

(** [xs.map(f)] with an [f] that may throw. *)
Fixpoint map_of {A B} (f : A -> M B) (xs : list A) : M (list B) :=
  match xs with
  | [] => ret []
  | x :: xs' => y <- f x ;; ys <- map_of f xs' ;; ret (y :: ys)
  end.

Definition is_json (f : jstring) : bool := Js.endsWith f (lit ".json").

Definition ensureCacheDir : M unit :=
  present <- existsSync CACHE_DIR ;;
  (if negb present then mkdirSync CACHE_DIR else ret tt) ;;
  try (chmodSync CACHE_DIR) catch (fun _ => ret tt).

Definition resolveCachePath (cacheKey : jstring) : option jstring :=
  if negb (CACHE_KEY_PATTERN_test cacheKey) then None
  else
    let base := Path.resolve (cwd env) [CACHE_DIR] in
    let resolved :=
      Path.resolve (cwd env) [CACHE_DIR; cacheKey ++ lit ".json"] in
    if negb (Js.startsWith resolved (base ++ Path.sep)) then None
    else Some resolved.

Definition cleanExpiredFiles : M unit :=
  try (
    ensureCacheDir ;;
    files <- readdirSync CACHE_DIR ;;
    now <- Date_now ;;
    cleaned <- for_of files (fun file cleaned =>
      if negb (is_json file) then ret cleaned
      else
        let filePath := Path.join [CACHE_DIR; file] in
        try (
          mtimeMs <- statSync_mtimeMs filePath ;;
          if (now - mtimeMs >? CACHE_TTL)%Z then
            unlinkSync filePath ;;
            ret (S cleaned)
          else ret cleaned
        ) catch (fun error =>
          Logger.debug env (lit "Error checking file " ++ file ++ lit ": "
                              ++ err_text error) ;;
          ret cleaned)) 0 ;;
    if Nat.ltb 0 cleaned then
      Logger.debug env (lit "Cleaned " ++ Js.of_nat cleaned
                          ++ lit " expired cache files")
    else ret tt
  ) catch (fun error =>
    Logger.debug env (lit "Cache cleanup error: " ++ err_text error)).

Definition enforceFileLimits : M unit :=
  try (
    names <- readdirSync CACHE_DIR ;;
    stated <- map_of (fun f =>
      mtimeMs <- statSync_mtimeMs (Path.join [CACHE_DIR; f]) ;;
      ret {| name := f; path := Path.join [CACHE_DIR; f]; mtime := mtimeMs |})
      (filter is_json names) ;;
    let files := sort stated in
    if Nat.ltb MAX_CACHE_FILES (length files) then
      let toRemove := firstn (length files - MAX_CACHE_FILES) files in
      for_of toRemove (fun file _ =>
        try (unlinkSync (path file)) catch (fun _ => ret tt)) tt ;;
      Logger.debug env (lit "Removed " ++ Js.of_nat (length toRemove)
                          ++ lit " old cache files to enforce limit")
    else ret tt
  ) catch (fun error =>
    Logger.debug env (lit "Error enforcing file limits: " ++ err_text error)).

(** The loop of cacheChunks that redraws while the drawn key's file exists,
    [i] counting the draws still allowed. *)
Fixpoint redraw (i : nat) (cacheKey : jstring) (filePath : option jstring)
  : M (jstring * option jstring) :=
  match i with
  | O => ret (cacheKey, filePath)
  | S i' =>
      match filePath with
      | None => ret (cacheKey, filePath)
      | Some p =>
          taken <- existsSync p ;;
          if taken then
            bytes <- randomBytes 4 ;;
            let cacheKey := Crypto.toString_hex bytes in
            redraw i' cacheKey (resolveCachePath cacheKey)
          else ret (cacheKey, filePath)
      end
  end.

Definition cacheChunks (prompt : jstring) (chunks : list EditChunk)
  : M jstring :=
  ensureCacheDir ;;
  cleanExpiredFiles ;;
  let promptHash := Crypto.sha256_hex prompt in
  bytes <- randomBytes 4 ;;
  let cacheKey := Crypto.toString_hex bytes in
  drawn <- redraw 5 cacheKey (resolveCachePath cacheKey) ;;
  let '(cacheKey, filePath) := drawn in
  let '(cacheKey, filePath) :=
    match filePath with
    | None => (Js.slice0 8 promptHash,
               resolveCachePath (Js.slice0 8 promptHash))
    | Some _ => (cacheKey, filePath)
    end in
  match filePath with
  | None =>
      Logger.error env (lit "Failed to generate a safe cache key/path") ;;
      ret (Js.slice0 8 promptHash)
  | Some filePath =>
      now <- Date_now ;;
      let cacheData :=
        {| Node.chunks := chunks; timestamp := now;
           promptHash := promptHash |} in
      try (
        text <- JSON_stringify stringifiable cacheData ;;
        writeFileSync filePath text ;;
        Logger.debug env (lit "Cached " ++ Js.of_nat (length chunks)
                            ++ lit " chunks to file: " ++ cacheKey
                            ++ lit ".json")
      ) catch (fun error =>
        Logger.error env (lit "Failed to cache chunks: " ++ err_text error)) ;;
      enforceFileLimits ;;
      ret cacheKey
  end.

Definition getChunks (cacheKey : jstring) : M (option (list EditChunk)) :=
  match resolveCachePath cacheKey with
  | None =>
      Logger.debug env (lit "Invalid cache key format: " ++ cacheKey) ;;
      ret None
  | Some filePath =>
      try (
        present <- existsSync filePath ;;
        if negb present then ret None
        else
          fileContent <- readFileSync filePath ;;
          data <- JSON_parse fileContent ;;
          now <- Date_now ;;
          if (now - timestamp data >? CACHE_TTL)%Z then
            unlinkSync filePath ;;
            Logger.debug env (lit "Cache expired for " ++ cacheKey
                                ++ lit ", deleted file") ;;
            ret None
          else
            Logger.debug env (lit "Cache hit for " ++ cacheKey
                                ++ lit ", returning "
                                ++ Js.of_nat (length (Node.chunks data))
                                ++ lit " chunks") ;;
            ret (Some (Node.chunks data))
      ) catch (fun error =>
        Logger.debug env (lit "Cache read error for " ++ cacheKey ++ lit ": "
                            ++ err_text error) ;;
        try (unlinkSync filePath) catch (fun _ => ret tt) ;;
        ret None)
  end.

Definition getCacheStats : M Stats :=
  ensureCacheDir ;;
  size <- try (
      files <- readdirSync CACHE_DIR ;;
      ret (length (filter is_json files))
    ) catch (fun _ => ret 0) ;;
  ret {| size := size; ttl := CACHE_TTL; maxSize := MAX_CACHE_FILES;
         cacheDir := CACHE_DIR |}.

Definition clearCache : M unit :=
  try (
    ensureCacheDir ;;
    files <- readdirSync CACHE_DIR ;;
    for_of files (fun file _ =>
      if is_json file then unlinkSync (Path.join [CACHE_DIR; file])
      else ret tt) tt ;;
    Logger.debug env (lit "Cache emptied")
  ) catch (fun error =>
    Logger.error env (lit "Failed to empty cache: " ++ err_text error)).

End ChunkCache.
End ChunkCache.

(* ================================================================== *)
(** ** Vocabulary of the statements *)
(* ================================================================== *)

Module PathSpec.
Import Path.

Definition noslash (s : jstring) : bool :=
  forallb (fun c => negb (N.eqb c SLASH)) s.

(** A segment that names something: not empty, not "." or "..", no '/'. *)
Definition simple (s : jstring) : bool :=
  negb (Js.eqb s []) && negb (Js.eqb s [DOT]) && negb (Js.eqb s [DOT; DOT])
  && noslash s.

(** The absolute path with the given segments. *)
Definition rooted (l : list jstring) : jstring := SLASH :: join_with l.

End PathSpec.

Module RunSpec.
Import Node.

(** A computation that returns, whatever the world: it never throws. *)
Definition returns {EditChunk A} (c : M EditChunk A) : Prop :=
  forall w, exists a w', c w = (Return a, w').

(** Whether anything, file or directory, is at path [p]. *)
Definition present {EditChunk} (w : World EditChunk) (p : jstring) : bool :=
  is_some (assoc p (files w)) || is_some (assoc p (dirs w)).


(** [c] takes every world to one that [R] relates to it. *)
Definition keeps {EditChunk A} (R : World EditChunk -> World EditChunk -> Prop)
  (c : M EditChunk A) : Prop :=
  forall w, R w (snd (c w)).

(** No operation moves the clock, touches the entropy source or the fault
    oracle, or takes back what the console printed. *)
Definition steady {EditChunk} (w w' : World EditChunk) : Prop :=
  clock w' = clock w /\ entropy w' = entropy w
  /\ write_fails w' = write_fails w
  /\ exists l, console w' = console w ++ l.

(** Files only disappear: what is found afterwards was there before. *)
Definition shrinks {EditChunk} (w w' : World EditChunk) : Prop :=
  forall p f, assoc p (files w') = Some f -> assoc p (files w) = Some f.

End RunSpec.

Module CacheSpec.
Import Node ChunkCache.

(** Where the entry of key [k] is stored. *)
Definition entry_path (env : Env) (k : jstring) : jstring :=
  CACHE_DIR env ++ Path.sep ++ k ++ lit ".json".

(** The path of the directory entry listed as [n]. *)
Definition child_path (env : Env) (n : jstring) : jstring :=
  CACHE_DIR env ++ Path.sep ++ n.

(** The key pattern as the specification words it: [^[a-f0-9]{8}$], lower
    case only. *)
Definition lowercase_KEY_PATTERN_test (s : jstring) : bool :=
  Nat.eqb (length s) 8 && forallb class_a_f_0_9 s.


(** The entries of the cache directory, as getCacheStats counts them: the
    listed names that end in ".json". *)
Definition entries {EditChunk} (env : Env) (w : World EditChunk)
  : list jstring :=
  if is_some (assoc (CACHE_DIR env) (dirs w))
  then filter is_json (listing (CACHE_DIR env) (files w))
  else [].

(** The modification time of the entry listed as [n]. *)
Definition mtime_of {EditChunk} (env : Env) (w : World EditChunk)
  (n : jstring) : Z :=
  match assoc (child_path env n) (files w) with
  | Some f => mtimeMs f
  | None => 0%Z
  end.

(** What enforceFileLimits makes of a listed name before sorting. *)
Definition stat_of {EditChunk} (env : Env) (w : World EditChunk)
  (n : jstring) : listed :=
  {| name := n; path := Path.join [CACHE_DIR env; n];
     mtime := mtime_of env w n |}.

Definition not_newer (a b : listed) : Prop := (mtime a <= mtime b)%Z.

(** The key randomBytes(4).toString('hex') yields from position [pos] of
    the entropy source, and the [i]-th key drawn from world [w] on. *)
Definition key_at {EditChunk} (w : World EditChunk) (pos : nat) : jstring :=
  Crypto.toString_hex (map (entropy w) (seq pos 4)).

Definition draw {EditChunk} (w : World EditChunk) (i : nat) : jstring :=
  key_at w (drawn w + 4 * i).

Local Open Scope js_scope.

Section Phases.

Variable EditChunk : Type.
Variable stringifiable : EditChunk -> bool.
Variable env : Env.

(** cacheChunks up to the sweep. *)
Definition sweep : M EditChunk unit :=
  ensureCacheDir env ;; cleanExpiredFiles env.

(** The world the sweep leaves, in which the drawn keys are checked. *)
Definition swept (w : World EditChunk) : World EditChunk := snd (sweep w).

(** cacheChunks up to the point where the key is drawn: directory, sweep
    and the draws. *)
Definition drawKey : M EditChunk (jstring * option jstring) :=
  ensureCacheDir env ;;
  cleanExpiredFiles env ;;
  bytes <- randomBytes 4 ;;
  let cacheKey := Crypto.toString_hex bytes in
  redraw env 5 cacheKey (resolveCachePath env cacheKey).

(** The write step of cacheChunks. *)
Definition store (prompt : jstring) (chunks : list EditChunk)
  (cacheKey filePath : jstring) : M EditChunk unit :=
  now <- Date_now ;;
  try (
    text <- JSON_stringify stringifiable
              {| Node.chunks := chunks; timestamp := now;
                 promptHash := Crypto.sha256_hex prompt |} ;;
    writeFileSync filePath text ;;
    Logger.debug env (lit "Cached " ++ Js.of_nat (length chunks)
                        ++ lit " chunks to file: " ++ cacheKey
                        ++ lit ".json")
  ) catch (fun error =>
    Logger.error env (lit "Failed to cache chunks: " ++ err_text error)).

End Phases.

End CacheSpec.

(** Concrete processes and worlds on which the statements are exercised. *)
Module Samples.
Import Node ChunkCache CacheSpec.

Definition env : Env :=
  {| tmpdir := lit "/tmp"; tmpdir_absolute := eq_refl;
     cwd := lit "/home/dev/project"; LOG_PREFIX := lit "[GMCPT]";
     GEMINI_MCP_LOG_PROMPTS := None |}.

(** Chunks stand-ins: numbered edits, all of them serialisable. *)
Definition chunk := nat.
Definition stringifiable (c : chunk) : bool := true.

Definition stored (cs : list chunk) (t : Z) (prompt : jstring) (mtime : Z)
  : file chunk :=
  {| content := Serialized {| chunks := cs; timestamp := t;
                              promptHash := Crypto.sha256_hex prompt |};
     mtimeMs := mtime |}.

Definition dir : jstring := lit "/tmp/gemini-mcp-chunks".

(** An empty cache directory at time [t]; the entropy source hands out the
    bytes 3, 20, 37, 54, ... *)
Definition world_at (t : Z) (fs : list (jstring * file chunk)) : World chunk :=
  {| files := fs; dirs := [(dir, 0%Z)]; clock := t;
     entropy := fun n => (Z.of_nat (17 * n + 3) mod 256)%Z; drawn := 0;
     write_fails := fun _ => false; console := []; trace := [] |}.

(** A world whose disk refuses every write. *)
Definition world_full_disk (t : Z) (fs : list (jstring * file chunk))
  : World chunk :=
  {| files := fs; dirs := [(dir, 0%Z)]; clock := t;
     entropy := fun n => (Z.of_nat (17 * n + 3) mod 256)%Z; drawn := 0;
     write_fails := fun _ => true; console := []; trace := [] |}.


Definition key_path (k : string) : jstring :=
  lit "/tmp/gemini-mcp-chunks/" ++ lit k ++ lit ".json".

(** An entry stored under an upper-case key. *)
Definition world_uppercase : World chunk :=
  world_at 1000 [(key_path "ABCDEF12", stored [7; 8] 900 (lit "p") 900)].



(** The six keys the entropy source will produce are all taken. *)
Definition world_six_taken : World chunk :=
  world_at 1000
    [(key_path "03142536", stored [10] 900 (lit "a") 900);
     (key_path "4758697a", stored [11] 900 (lit "b") 900);
     (key_path "8b9cadbe", stored [12] 900 (lit "c") 900);
     (key_path "cfe0f102", stored [13] 900 (lit "d") 900);
     (key_path "13243546", stored [14] 900 (lit "e") 900);
     (key_path "5768798a", stored [15] 900 (lit "f") 900)].


(** Fifty entries, the [i]-th last modified at time [100 + i]. *)
Definition numbered (i : nat) : jstring :=
  Crypto.toString_hex [0; 0; 0; Z.of_nat i]%Z.

Definition world_fifty : World chunk :=
  world_at 1000
    (map (fun i => (dir ++ Path.sep ++ numbered i ++ lit ".json",
                    stored [i] (100 + Z.of_nat i) (lit "p")
                      (100 + Z.of_nat i)))
         (seq 0 50)).

End Samples.

(* ================================================================== *)
(** ** The logger's helpers for tool calls and commands *)
(* ================================================================== *)

(** The values a tool receives as arguments: what [JSON.parse] produces,
    and [undefined].  An object is its properties in enumeration order;
    numbers are only ever passed through or printed, and are integers
    here. *)
Module JsData.

Local Unset Elimination Schemes.

Inductive value : Type :=
| Undefined
| Null
| Bool (b : bool)
| Num (n : Z)
| Str (s : jstring)
| Arr (items : list value)
| Obj (props : list (jstring * value)).

(** [typeof v] *)
Definition typeof (v : value) : jstring :=
  match v with
  | Undefined => lit "undefined"
  | Null => lit "object"
  | Bool _ => lit "boolean"
  | Num _ => lit "number"
  | Str _ => lit "string"
  | Arr _ | Obj _ => lit "object"
  end.

(** [!v] *)
Definition falsy (v : value) : bool :=
  match v with
  | Undefined | Null => true
  | Bool b => negb b
  | Num n => Z.eqb n 0
  | Str s => Js.eqb s []
  | Arr _ | Obj _ => false
  end.

(** [Array.isArray(v)] *)
Definition isArray (v : value) : bool :=
  match v with
  | Arr _ => true
  | _ => false
  end.

(** [o[k]] *)
Fixpoint get (o : list (jstring * value)) (k : jstring) : value :=
  match o with
  | [] => Undefined
  | (k', v) :: o' => if Js.eqb k' k then v else get o' k
  end.

(** [o[k] = v]: an existing property keeps its place. *)
Fixpoint set (o : list (jstring * value)) (k : jstring) (v : value)
  : list (jstring * value) :=
  match o with
  | [] => [(k, v)]
  | (k', v') :: o' =>
      if Js.eqb k' k then (k', v) :: o' else (k', v') :: set o' k v
  end.

(** [Object.keys(o)] *)
Definition keys (o : list (jstring * value)) : list jstring := map fst o.

(** [s.includes(p)] *)
Fixpoint includes (s p : jstring) : bool :=
  Js.startsWith s p
  || match s with
     | [] => false
     | _ :: s' => includes s' p
     end.

(** [`${n}`] for an integer below 10^21 in magnitude, where JavaScript
    prints all the digits. *)
Definition Number_toString (n : Z) : jstring :=
  if (n <? 0)%Z then lit "-" ++ Js.of_nat (Z.to_nat (- n))
  else Js.of_nat (Z.to_nat n).

(** [l.join(sep)] *)
Fixpoint Array_join (sep : jstring) (l : list jstring) : jstring :=
  match l with
  | [] => []
  | [a] => a
  | a :: l' => a ++ sep ++ Array_join sep l'
  end.

End JsData.

Module LoggerTools.
Import Node JsData.
Local Open Scope js_scope.

(** What [_commandStartTimes] holds for a command, and the map itself, in
    insertion order. *)
Record started := {
  command : jstring; args : list jstring; startTime : Z
}.

Definition Tracking := list (Z * started).

(** [map.set(k, v)] *)
Fixpoint Map_set (k : Z) (v : started) (m : Tracking) : Tracking :=
  match m with
  | [] => [(k, v)]
  | (k', v') :: m' =>
      if Z.eqb k' k then (k', v) :: m' else (k', v') :: Map_set k v m'
  end.

(** [map.delete(k)] *)
Definition Map_delete (k : Z) (m : Tracking) : Tracking :=
  filter (fun kv => negb (Z.eqb (fst kv) k)) m.

(** [map.get(k)] *)
Fixpoint Map_get (k : Z) (m : Tracking) : option started :=
  match m with
  | [] => None
  | (k', v) :: m' => if Z.eqb k' k then Some v else Map_get k m'
  end.

(** The double quote of the template literals. *)
Definition QUOTE : jstring := [34%N].

Section LoggerTools.

Context {EditChunk : Type}.
Variable env : Env.

(** [String.prototype.toLowerCase], and [(ms / 1000).toFixed(1)] on a
    number of milliseconds: whatever the engine makes of them. *)
Variable toLowerCase : jstring -> jstring.
Variable toFixed1 : Z -> jstring.

(** [this.redactString(v as string)] *)
Definition redacted (v : value) : value :=
  match v with
  | Str s => Str (Logger.redactString env s)
  | _ => v
  end.

Definition sanitizeArgs (args : value) : value :=
  if Logger.shouldLogPrompts env then args
  else if falsy args || negb (Js.eqb (typeof args) (lit "object"))
  then args
  else if isArray args then
    match args with
    | Arr items =>
        Arr (map (fun v =>
                    if Js.eqb (typeof v) (lit "string") then redacted v
                    else v) items)
    | _ => args
    end
  else
    match args with
    | Obj props =>
        let copy := props in
        Obj (fold_left (fun copy key =>
               if includes (toLowerCase key) (lit "prompt")
                  && Js.eqb (typeof (get copy key)) (lit "string")
               then set copy key (redacted (get copy key))
               else copy) (keys copy) copy)
    | _ => args
    end.

(** The loop of commandExecution from index [i] on, [prev] being
    [args[i - 1]], undefined at the start. *)
Fixpoint safeArgs_from (prev : option jstring) (args : list jstring)
  : list jstring :=
  match args with
  | [] => []
  | current :: rest =>
      let shouldRedact :=
        negb (Logger.shouldLogPrompts env)
        && match prev with
           | Some p => Js.eqb p (lit "-p") || Js.eqb p (lit "--prompt")
           | None => false
           end in
      (if shouldRedact then Logger.redactString env current else current)
        :: safeArgs_from (Some current) rest
  end.

Definition commandExecution (command : jstring) (args : list jstring)
  (startTime : Z) (times : Tracking) : M EditChunk Tracking :=
  let safeArgs := safeArgs_from None args in
  Logger.warn env
    (lit "[" ++ Number_toString startTime ++ lit "] Starting: " ++ command
       ++ lit " "
       ++ Array_join (lit " ")
            (map (fun arg => QUOTE ++ arg ++ QUOTE) safeArgs)) ;;
  ret (Map_set startTime
         {| command := command; args := safeArgs; startTime := startTime |}
         times).

Definition commandComplete (startTime : Z) (exitCode outputLength : option Z)
  (times : Tracking) : M EditChunk Tracking :=
  now <- Date_now ;;
  let elapsed := toFixed1 (now - startTime) in
  Logger.warn env
    (lit "[" ++ elapsed ++ lit "s] Process finished with exit code: "
       ++ match exitCode with
          | Some c => Number_toString c
          | None => lit "null"
          end) ;;
  match outputLength with
  | Some n =>
      Logger.warn env (lit "Response: " ++ Number_toString n ++ lit " chars")
  | None => ret tt
  end ;;
  ret (Map_delete startTime times).

End LoggerTools.

(** Whether the argument at index [i] comes right after a prompt flag. *)
Definition after_prompt_flag (args : list jstring) (i : nat) : bool :=
  match i with
  | O => false
  | S j =>
      match nth_error args j with
      | Some p => Js.eqb p (lit "-p") || Js.eqb p (lit "--prompt")
      | None => false
      end
  end.

(** What sanitizeArgs makes of the property [k] of an object. *)
Definition sanitized_property (env : Env) (toLowerCase : jstring -> jstring)
  (kv : jstring * value) : jstring * value :=
  match snd kv with
  | Str s =>
      if includes (toLowerCase (fst kv)) (lit "prompt")
      then (fst kv, Str (Logger.redactString env s))
      else kv
  | _ => kv
  end.

End LoggerTools.

(** Vocabulary for the sweep and for what the operations leave alone. *)
Module SweepSpec.
Import Node ChunkCache CacheSpec.


End SweepSpec.

Module DrawSpec.
Import Node CacheSpec.

(** The keys the redraw loop checks in world [w], in order: the key [k] it
    is given, then those it draws. *)
Definition tried {EditChunk} (w : World EditChunk) (k : jstring) (j : nat)
  : jstring :=
  match j with
  | O => k
  | S j' => key_at w (drawn w + 4 * j')
  end.

(** Directory listings hold names: nothing with a slash in it. *)
Definition names_ok (names : list jstring) : Prop :=
  forall n, In n names -> PathSpec.noslash n = true.

End DrawSpec.

Module ConfineSpec.
Import Node ChunkCache CacheSpec.

(** The path a call into [fs] is made on. *)
Definition call_path (c : fs_call) : jstring :=
  match c with
  | Call_exists p | Call_mkdir p | Call_chmod p | Call_readdir p
  | Call_stat p | Call_unlink p | Call_write p | Call_read p => p
  end.

(** Whether [q] is the path of an entry: a name ending in ".json" directly
    inside the cache directory. *)
Definition entry_pathb (env : Env) (q : jstring) : bool :=
  match child_name (CACHE_DIR env) q with
  | Some n => is_json n
  | None => false
  end.

(** The calls the cache may make: on its directory and on entries. *)
Definition call_ok (env : Env) (c : fs_call) : bool :=
  Js.eqb (call_path c) (CACHE_DIR env) || entry_pathb env (call_path c).

(** From [w] to [w']: every call made into the file system was on the
    cache directory or on an entry of it. *)
Definition confined {EditChunk} (env : Env) (w w' : World EditChunk) : Prop :=
  exists l, trace w' = trace w ++ l /\ forallb (call_ok env) l = true.

End ConfineSpec.

Module MoreSamples.
Import Node JsData LoggerTools Samples.

(** Lower-casing of the letters A to Z: what toLowerCase does to a key
    written in ASCII. *)
Definition ascii_toLowerCase (s : jstring) : jstring :=
  map (fun c => if (65 <=? c)%N && (c <=? 90)%N then (c + 32)%N else c) s.

(** [(ms / 1000).toFixed(1)] where [ms] is a whole number of tenths of a
    second and not negative: no rounding is called for. *)
Definition tenths (ms : Z) : jstring :=
  Number_toString (ms / 1000) ++ lit "."
    ++ Number_toString ((ms mod 1000) / 100).

(** The arguments of a tool call, one prompt of them a level down. *)
Definition tool_args : value :=
  Obj [(lit "prompt", Str (lit "rename foo"));
       (lit "systemPrompt", Str (lit "be brief"));
       (lit "model", Str (lit "pro"));
       (lit "promptTokens", Num 12);
       (lit "options", Obj [(lit "prompt", Str (lit "inner"))])].

Definition cli_args : list jstring :=
  [lit "-m"; lit "pro"; lit "-p"; lit "rename foo"].

(** One entry written at time 900, read at time 1000. *)
Definition world_one_entry : World chunk :=
  world_at 1000 [(key_path "abcdef12", stored [7; 8] 900 (lit "p") 900)].

End MoreSamples.

(* ================================================================== *)
(** ** The operations over any file system, and a file system that fails *)
(* ================================================================== *)

(** The part of [fs] the cache directory is kept with, as an interface:
    [Node]'s functions above are one implementation of it, the one in which
    a directory can always be made, holds regular files only and gives up
    any of them; [Posix] below is another, in which making a directory and
    removing an entry can fail. *)
Module Platform.
Import Node.

Record Fs (EditChunk : Type) := {
  existsSync : jstring -> M EditChunk bool;
  mkdirSync : jstring -> M EditChunk unit;
  chmodSync : jstring -> M EditChunk unit;
  readdirSync : jstring -> M EditChunk (list jstring);
  statSync_mtimeMs : jstring -> M EditChunk Z;
  unlinkSync : jstring -> M EditChunk unit;
  writeFileSync : jstring -> Text EditChunk -> M EditChunk unit
}.

Definition nominal {EditChunk : Type} : Fs EditChunk :=
  {| existsSync := Node.existsSync;
     mkdirSync := Node.mkdirSync;
     chmodSync := Node.chmodSync;
     readdirSync := Node.readdirSync;
     statSync_mtimeMs := Node.statSync_mtimeMs;
     unlinkSync := Node.unlinkSync;
     writeFileSync := Node.writeFileSync |}.

End Platform.

(** chunkCache.ts once more, line for line as in [ChunkCache], with the
    calls into [fs] going to the file system it is given. *)
Module ChunkCacheOn.
Import Node ChunkCache.
Local Open Scope js_scope.

Section ChunkCacheOn.

Variable EditChunk : Type.
Variable fs : Platform.Fs EditChunk.
Variable stringifiable : EditChunk -> bool.
Variable env : Env.

Local Abbreviation M := (Node.M EditChunk).

Definition ensureCacheDir : M unit :=
  present <- Platform.existsSync fs (CACHE_DIR env) ;;
  (if negb present then Platform.mkdirSync fs (CACHE_DIR env) else ret tt) ;;
  try (Platform.chmodSync fs (CACHE_DIR env)) catch (fun _ => ret tt).

Definition cleanExpiredFiles : M unit :=
  try (
    ensureCacheDir ;;
    files <- Platform.readdirSync fs (CACHE_DIR env) ;;
    now <- Date_now ;;
    cleaned <- for_of files (fun file cleaned =>
      if negb (is_json file) then ret cleaned
      else
        let filePath := Path.join [CACHE_DIR env; file] in
        try (
          mtimeMs <- Platform.statSync_mtimeMs fs filePath ;;
          if (now - mtimeMs >? CACHE_TTL)%Z then
            Platform.unlinkSync fs filePath ;;
            ret (S cleaned)
          else ret cleaned
        ) catch (fun error =>
          Logger.debug env (lit "Error checking file " ++ file ++ lit ": "
                              ++ err_text error) ;;
          ret cleaned)) 0 ;;
    if Nat.ltb 0 cleaned then
      Logger.debug env (lit "Cleaned " ++ Js.of_nat cleaned
                          ++ lit " expired cache files")
    else ret tt
  ) catch (fun error =>
    Logger.debug env (lit "Cache cleanup error: " ++ err_text error)).

Definition enforceFileLimits : M unit :=
  try (
    names <- Platform.readdirSync fs (CACHE_DIR env) ;;
    stated <- map_of (fun f =>
      mtimeMs <- Platform.statSync_mtimeMs fs
                   (Path.join [CACHE_DIR env; f]) ;;
      ret {| name := f; path := Path.join [CACHE_DIR env; f];
             mtime := mtimeMs |})
      (filter is_json names) ;;
    let files := sort stated in
    if Nat.ltb MAX_CACHE_FILES (length files) then
      let toRemove := firstn (length files - MAX_CACHE_FILES) files in
      for_of toRemove (fun file _ =>
        try (Platform.unlinkSync fs (path file)) catch (fun _ => ret tt)) tt ;;
      Logger.debug env (lit "Removed " ++ Js.of_nat (length toRemove)
                          ++ lit " old cache files to enforce limit")
    else ret tt
  ) catch (fun error =>
    Logger.debug env (lit "Error enforcing file limits: " ++ err_text error)).

Fixpoint redraw (i : nat) (cacheKey : jstring) (filePath : option jstring)
  : M (jstring * option jstring) :=
  match i with
  | O => ret (cacheKey, filePath)
  | S i' =>
      match filePath with
      | None => ret (cacheKey, filePath)
      | Some p =>
          taken <- Platform.existsSync fs p ;;
          if taken then
            bytes <- randomBytes 4 ;;
            let cacheKey := Crypto.toString_hex bytes in
            redraw i' cacheKey (resolveCachePath env cacheKey)
          else ret (cacheKey, filePath)
      end
  end.

Definition cacheChunks (prompt : jstring) (chunks : list EditChunk)
  : M jstring :=
  ensureCacheDir ;;
  cleanExpiredFiles ;;
  let promptHash := Crypto.sha256_hex prompt in
  bytes <- randomBytes 4 ;;
  let cacheKey := Crypto.toString_hex bytes in
  drawn <- redraw 5 cacheKey (resolveCachePath env cacheKey) ;;
  let '(cacheKey, filePath) := drawn in
  let '(cacheKey, filePath) :=
    match filePath with
    | None => (Js.slice0 8 promptHash,
               resolveCachePath env (Js.slice0 8 promptHash))
    | Some _ => (cacheKey, filePath)
    end in
  match filePath with
  | None =>
      Logger.error env (lit "Failed to generate a safe cache key/path") ;;
      ret (Js.slice0 8 promptHash)
  | Some filePath =>
      now <- Date_now ;;
      let cacheData :=
        {| Node.chunks := chunks; timestamp := now;
           promptHash := promptHash |} in
      try (
        text <- JSON_stringify stringifiable cacheData ;;
        Platform.writeFileSync fs filePath text ;;
        Logger.debug env (lit "Cached " ++ Js.of_nat (length chunks)
                            ++ lit " chunks to file: " ++ cacheKey
                            ++ lit ".json")
      ) catch (fun error =>
        Logger.error env (lit "Failed to cache chunks: " ++ err_text error)) ;;
      enforceFileLimits ;;
      ret cacheKey
  end.

Definition getCacheStats : M Stats :=
  ensureCacheDir ;;
  size <- try (
      files <- Platform.readdirSync fs (CACHE_DIR env) ;;
      ret (length (filter is_json files))
    ) catch (fun _ => ret 0) ;;
  ret {| size := size; ttl := CACHE_TTL; maxSize := MAX_CACHE_FILES;
         cacheDir := CACHE_DIR env |}.

Definition clearCache : M unit :=
  try (
    ensureCacheDir ;;
    files <- Platform.readdirSync fs (CACHE_DIR env) ;;
    for_of files (fun file _ =>
      if is_json file then
        Platform.unlinkSync fs (Path.join [CACHE_DIR env; file])
      else ret tt) tt ;;
    Logger.debug env (lit "Cache emptied")
  ) catch (fun error =>
    Logger.error env (lit "Failed to empty cache: " ++ err_text error)).

End ChunkCacheOn.
End ChunkCacheOn.

(** The two halves of cacheChunks around its try. *)
Module OnSpec.
Import Node ChunkCache.
Local Open Scope js_scope.

(** The console only grows. *)
Definition console_kept {EditChunk} (w w' : World EditChunk) : Prop :=
  exists l, console w' = console w ++ l.

Section Phases.

Variable EditChunk : Type.
Variable fs : Platform.Fs EditChunk.
Variable stringifiable : EditChunk -> bool.
Variable env : Env.

(** cacheChunks up to the point where the key is drawn: directory, sweep
    and the draws. *)
Definition drawKey : M EditChunk (jstring * option jstring) :=
  ChunkCacheOn.ensureCacheDir fs env ;;
  ChunkCacheOn.cleanExpiredFiles fs env ;;
  bytes <- randomBytes 4 ;;
  let cacheKey := Crypto.toString_hex bytes in
  ChunkCacheOn.redraw fs env 5 cacheKey (resolveCachePath env cacheKey).

(** What cacheChunks attempts inside its try, [now] being what
    [Date.now()] gave. *)
Definition attempt (prompt : jstring) (chunks : list EditChunk)
  (cacheKey filePath : jstring) (now : Z) : M EditChunk unit :=
  text <- JSON_stringify stringifiable
            {| Node.chunks := chunks; timestamp := now;
               promptHash := Crypto.sha256_hex prompt |} ;;
  Platform.writeFileSync fs filePath text ;;
  Logger.debug env (lit "Cached " ++ Js.of_nat (length chunks)
                      ++ lit " chunks to file: " ++ cacheKey
                      ++ lit ".json").

End Phases.
End OnSpec.

(** A file system in which the calls the cache directory depends on fail as
    Node's do.  Every path is absolute and normalised, and a link is not
    told from what it points to.  The world's oracle [write_fails] names
    the paths the file system refuses to create or remove (no permission,
    a read-only or full disk). *)
Module Posix.
Import Node.

(** The non-empty proper prefixes of a list, shortest first. *)
Fixpoint prefixes {A} (l : list A) : list (list A) :=
  match l with
  | [] => []
  | x :: r =>
      match r with
      | [] => []
      | _ :: _ => [x] :: map (cons x) (prefixes r)
      end
  end.

(** The directories an absolute path lies under, outermost first, the
    root left out. *)
Definition ancestors (p : jstring) : list jstring :=
  map (fun l => Path.SLASH :: Path.join_with l)
    (prefixes (filter (fun s => negb (Js.eqb s [])) (Path.segments p))).

(** The names that the paths [paths] give to directory [d]. *)
Fixpoint child_names (d : jstring) (paths : list jstring) : list jstring :=
  match paths with
  | [] => []
  | q :: paths' =>
      match child_name d q with
      | Some n => n :: child_names d paths'
      | None => child_names d paths'
      end
  end.

Section Posix.

Context {EditChunk : Type}.
Local Abbreviation M := (Node.M EditChunk).
Local Abbreviation World := (Node.World EditChunk).

(** What a directory lists: the regular files and the directories in it,
    each name once. *)
Definition listing (d : jstring) (w : World) : list jstring :=
  nodup (list_eq_dec N.eq_dec)
    (child_names d (map fst (files w) ++ map fst (dirs w))).

(** The loop of [mkdir -p] down the chain of directories that ends with
    [target]: a regular file in the way stops it, a missing directory is
    made unless the file system refuses. *)
Fixpoint mkdir_chain (chain : list jstring) (target : jstring) (w : World)
  : Result unit * World :=
  match chain with
  | [] => (Return tt, w)
  | q :: rest =>
      if is_some (assoc q (files w))
      then (Throw (if Js.eqb q target then EEXIST else ENOTDIR), w)
      else if is_some (assoc q (dirs w)) then mkdir_chain rest target w
      else if write_fails w q then (Throw EIO, w)
      else mkdir_chain rest target (set_dirs ((q, clock w) :: dirs w) w)
  end.

(** [fs.mkdirSync(p, { recursive: true, mode })] *)
Definition mkdirSync (p : jstring) : M unit :=
  fun w => mkdir_chain (ancestors p ++ [p]) p (traced (Call_mkdir p) w).

Definition readdirSync (p : jstring) : M (list jstring) :=
  fun w =>
    let w := traced (Call_readdir p) w in
    if is_some (assoc p (dirs w)) then (Return (listing p w), w)
    else if is_some (assoc p (files w)) then (Throw ENOTDIR, w)
    else (Throw ENOENT, w).

Definition unlinkSync (p : jstring) : M unit :=
  fun w =>
    let w := traced (Call_unlink p) w in
    if is_some (assoc p (dirs w)) then (Throw EISDIR, w)
    else
      match assoc p (files w) with
      | Some _ =>
          if write_fails w p then (Throw EIO, w)
          else (Return tt, set_files (without p (files w)) w)
      | None => (Throw ENOENT, w)
      end.

(** The file system, for any way [writeFileSync] may behave. *)
Definition fs (writeFileSync : jstring -> Text EditChunk -> M unit)
  : Platform.Fs EditChunk :=
  {| Platform.existsSync := Node.existsSync;
     Platform.mkdirSync := mkdirSync;
     Platform.chmodSync := Node.chmodSync;
     Platform.readdirSync := readdirSync;
     Platform.statSync_mtimeMs := Node.statSync_mtimeMs;
     Platform.unlinkSync := unlinkSync;
     Platform.writeFileSync := writeFileSync |}.

End Posix.
End Posix.

Module PosixSpec.
Import Node ChunkCache CacheSpec.

(** The names ending in ".json" of what lies directly under the cache
    directory's path. *)
Definition named_entries {EditChunk} (env : Env) (w : World EditChunk)
  : list jstring :=
  filter is_json (Posix.listing (CACHE_DIR env) w).

(** The entries of the cache directory as getCacheStats counts them on
    [Posix]: the listed names that end in ".json", whatever they name. *)
Definition listed_entries {EditChunk} (env : Env) (w : World EditChunk)
  : list jstring :=
  if is_some (assoc (CACHE_DIR env) (dirs w))
  then named_entries env w
  else [].

(** An entry unlinkSync will remove: a regular file, not a directory, at a
    path the file system lets go of. *)
Definition removable {EditChunk} (env : Env) (w : World EditChunk)
  (n : jstring) : bool :=
  is_some (assoc (child_path env n) (files w))
  && negb (is_some (assoc (child_path env n) (dirs w)))
  && negb (write_fails w (child_path env n)).

End PosixSpec.

Module PosixSamples.
Import Node Samples.

(** The temporary directory's path names a regular file. *)
Definition world_tmp_is_a_file : World chunk :=
  {| files := [(lit "/tmp", {| content := Garbage (lit "x"); mtimeMs := 0 |})];
     dirs := []; clock := 1000;
     entropy := fun n => (Z.of_nat (17 * n + 3) mod 256)%Z; drawn := 0;
     write_fails := fun _ => false; console := []; trace := [] |}.

(** The cache directory holds one entry and a directory named like one. *)
Definition world_directory_entry : World chunk :=
  {| files := [(key_path "abcdef12", stored [7; 8] 900 (lit "p") 900)];
     dirs := [(dir, 0%Z); (lit "/tmp/gemini-mcp-chunks/old.json", 0%Z)];
     clock := 1000;
     entropy := fun n => (Z.of_nat (17 * n + 3) mod 256)%Z; drawn := 0;
     write_fails := fun _ => false; console := []; trace := [] |}.

End PosixSamples.

(* ================================================================== *)
(** * Facts *)
(* ================================================================== *)

Unset Implicit Arguments.

(** ** Strings *)

Module JsFacts.

Lemma eqb_refl (a : jstring) : Js.eqb a a = true.
Proof.
  induction a as [|x a IH]; simpl; [reflexivity|].
  now rewrite N.eqb_refl, IH.
Qed.

Lemma eqb_eq (a b : jstring) : Js.eqb a b = true <-> a = b.
Proof.
  split; [|intros ->; apply eqb_refl].
  revert b; induction a as [|x a IH]; intros [|y b]; simpl; try discriminate; auto.
  intros H. apply andb_true_iff in H as [H1 H2].
  apply N.eqb_eq in H1. apply IH in H2. congruence.
Qed.

Lemma eqb_neq (a b : jstring) : Js.eqb a b = false <-> a <> b.
Proof.
  destruct (Js.eqb a b) eqn:E.
  - apply eqb_eq in E. split; [discriminate | congruence].
  - split; [|reflexivity]. intros _ ->. now rewrite eqb_refl in E.
Qed.

Lemma startsWith_app (p s : jstring) : Js.startsWith (p ++ s) p = true.
Proof.
  induction p as [|y p IH]; simpl; [reflexivity|].
  now rewrite N.eqb_refl, IH.
Qed.

Lemma startsWith_inv (s p : jstring) :
  Js.startsWith s p = true -> s = p ++ skipn (length p) s.
Proof.
  revert s; induction p as [|y p IH]; intros s H; simpl in *; [reflexivity|].
  destruct s as [|x s]; [discriminate|].
  apply andb_true_iff in H as [H1 H2].
  apply N.eqb_eq in H1. subst. f_equal. now apply IH.
Qed.

Lemma endsWith_app (s p : jstring) : Js.endsWith (s ++ p) p = true.
Proof.
  unfold Js.endsWith. rewrite rev_app_distr. apply startsWith_app.
Qed.

Lemma endsWith_length (s p : jstring) :
  Js.endsWith s p = true -> length p <= length s.
Proof.
  unfold Js.endsWith. intros H. apply startsWith_inv in H.
  apply (f_equal (@length N)) in H.
  rewrite length_app, !length_rev in H. lia.
Qed.

Lemma endsWith_last (s p : jstring) (c d : N) :
  Js.endsWith (s ++ [c]) (p ++ [d]) = true -> c = d.
Proof.
  unfold Js.endsWith. rewrite !rev_app_distr. simpl.
  intros H. apply andb_true_iff in H as [H _]. now apply N.eqb_eq in H.
Qed.

End JsFacts.

(** ** Paths *)

Module PathFacts.
Import Path PathSpec.

Lemma simple_noslash s : simple s = true -> noslash s = true.
Proof. unfold simple. intros H. now apply andb_true_iff in H as [_ H]. Qed.

Lemma simple_nonempty s : simple s = true -> s <> [].
Proof. intros H ->. discriminate H. Qed.

Lemma segments_nonempty p : segments p <> [].
Proof.
  destruct p as [|c p]; simpl; [discriminate|].
  destruct (N.eqb c SLASH); [discriminate|].
  destruct (segments p); discriminate.
Qed.

Lemma segments_app_slash a b :
  segments (a ++ SLASH :: b) = segments a ++ segments b.
Proof.
  induction a as [|c a IH]; simpl.
  - reflexivity.
  - rewrite IH. destruct (N.eqb c SLASH); [reflexivity|].
    pose proof (segments_nonempty a).
    destruct (segments a); [congruence | reflexivity].
Qed.

Lemma segments_noslash f : noslash f = true -> segments f = [f].
Proof.
  induction f as [|c f IH]; simpl; [reflexivity|].
  intros H. apply andb_true_iff in H as [H1 H2].
  apply negb_true_iff in H1. rewrite H1, (IH H2). reflexivity.
Qed.

Lemma segments_all_noslash p : Forall (fun s => noslash s = true) (segments p).
Proof.
  induction p as [|c p IH]; simpl.
  - repeat constructor.
  - destruct (N.eqb c SLASH) eqn:E.
    + constructor; [reflexivity | exact IH].
    + destruct (segments p) as [|seg rest].
      * repeat constructor. simpl. now rewrite E.
      * inversion IH; subst. constructor; [|assumption].
        simpl. now rewrite E.
Qed.

Lemma join_with_cons x l :
  l <> [] -> join_with (x :: l) = x ++ SLASH :: join_with l.
Proof. destruct l; [congruence | reflexivity]. Qed.

Lemma join_with_snoc l f :
  l <> [] -> join_with (l ++ [f]) = join_with l ++ SLASH :: f.
Proof.
  induction l as [|x l IH]; [congruence|]. intros _.
  destruct l as [|y l].
  - reflexivity.
  - change ((x :: y :: l) ++ [f]) with (x :: ((y :: l) ++ [f])).
    rewrite (join_with_cons x ((y :: l) ++ [f])) by (simpl; discriminate).
    rewrite IH by discriminate.
    rewrite (join_with_cons x (y :: l)) by discriminate.
    now rewrite <- app_assoc.
Qed.

Lemma segments_join l :
  l <> [] -> Forall (fun s => noslash s = true) l -> segments (join_with l) = l.
Proof.
  induction l as [|x l IH]; [congruence|]. intros _ H.
  inversion H as [|? ? Hx Hl]; subst.
  destruct l as [|y l].
  - simpl. now apply segments_noslash.
  - rewrite join_with_cons by discriminate.
    rewrite segments_app_slash, (segments_noslash _ Hx), IH; auto.
    discriminate.
Qed.

Lemma step_empty a kept : step a kept [] = kept.
Proof. reflexivity. Qed.

Lemma step_simple a kept f : simple f = true -> step a kept f = f :: kept.
Proof.
  unfold simple, step. intros H.
  repeat (apply andb_true_iff in H as [H ?]).
  apply negb_true_iff in H. rewrite H.
  match goal with H1 : negb (Js.eqb f [DOT]) = true |- _ =>
    apply negb_true_iff in H1; rewrite H1 end.
  match goal with H1 : negb (Js.eqb f [DOT; DOT]) = true |- _ =>
    apply negb_true_iff in H1; rewrite H1 end.
  reflexivity.
Qed.

Lemma fold_step_simple a l kept :
  Forall (fun s => simple s = true) l ->
  fold_left (step a) l kept = rev l ++ kept.
Proof.
  revert kept; induction l as [|x l IH]; intros kept H; simpl; [reflexivity|].
  inversion H; subst. rewrite step_simple by assumption.
  rewrite IH by assumption. now rewrite <- app_assoc.
Qed.

Lemma step_keeps_simple kept seg :
  noslash seg = true ->
  Forall (fun s => simple s = true) kept ->
  Forall (fun s => simple s = true) (step false kept seg).
Proof.
  intros Hs Hk. unfold step.
  destruct (Js.eqb seg []) eqn:E1; simpl; [assumption|].
  destruct (Js.eqb seg [DOT]) eqn:E2; simpl; [assumption|].
  destruct (Js.eqb seg [DOT; DOT]) eqn:E3.
  - destruct kept as [|top rest]; [constructor|].
    inversion Hk; subst.
    destruct (Js.eqb top [DOT; DOT]); assumption.
  - constructor; [|assumption]. unfold simple. now rewrite E1, E2, E3, Hs.
Qed.

Lemma fold_keeps_simple l kept :
  Forall (fun s => noslash s = true) l ->
  Forall (fun s => simple s = true) kept ->
  Forall (fun s => simple s = true) (fold_left (step false) l kept).
Proof.
  revert kept; induction l as [|x l IH]; intros kept Hl Hk; simpl; [assumption|].
  inversion Hl; subst. apply IH; [assumption|]. now apply step_keeps_simple.
Qed.

Lemma segments_rooted l :
  l <> [] -> Forall (fun s => simple s = true) l ->
  segments (rooted l) = [] :: l.
Proof.
  intros Hne Hl. unfold rooted.
  change (segments (SLASH :: join_with l)) with ([] :: segments (join_with l)).
  rewrite segments_join; auto.
  eapply Forall_impl; [|exact Hl]. apply simple_noslash.
Qed.

(** Normalising a rooted path followed by more segments. *)
Lemma normalizeString_rooted l more :
  l <> [] -> Forall (fun s => simple s = true) l ->
  normalizeString (rooted l ++ SLASH :: more) false =
  join_with (rev (fold_left (step false) (segments more) (rev l))).
Proof.
  intros Hne Hl. unfold normalizeString.
  rewrite segments_app_slash, segments_rooted by assumption.
  cbn [app fold_left]. rewrite step_empty, fold_left_app.
  rewrite (fold_step_simple false l) by assumption.
  now rewrite app_nil_r.
Qed.

Lemma simple_not_absolute f : simple f = true -> isAbsolute f = false.
Proof.
  intros H. destruct f as [|c f]; [reflexivity|].
  apply simple_noslash in H. simpl in H.
  apply andb_true_iff in H as [H _]. now apply negb_true_iff in H.
Qed.

Lemma noslash_not_trailing a f :
  f <> [] -> noslash f = true -> Js.endsWith (a ++ f) sep = false.
Proof.
  intros Hne Hf.
  destruct (exists_last Hne) as [g [c ->]].
  destruct (Js.endsWith (a ++ g ++ [c]) sep) eqn:E; [|reflexivity].
  rewrite app_assoc in E. change sep with ([] ++ [SLASH]) in E.
  apply JsFacts.endsWith_last in E. subst c.
  unfold noslash in Hf. rewrite forallb_app in Hf.
  apply andb_true_iff in Hf as [_ Hf]. simpl in Hf.
  unfold SLASH in Hf. discriminate Hf.
Qed.

Lemma resolve_loop_absolute p rest acc :
  isAbsolute p = true ->
  resolve_loop (p :: rest) acc = (p ++ SLASH :: acc, true).
Proof.
  intros H. destruct p as [|c p]; [discriminate|].
  cbn [resolve_loop]. now rewrite H.
Qed.

Lemma resolve_loop_relative p rest acc :
  p <> [] -> isAbsolute p = false ->
  resolve_loop (p :: rest) acc = resolve_loop rest (p ++ SLASH :: acc).
Proof.
  intros Hne H. destruct p as [|c p]; [congruence|].
  cbn [resolve_loop]. now rewrite H.
Qed.

Lemma rooted_absolute l : isAbsolute (rooted l) = true.
Proof. reflexivity. Qed.

Section Rooted.

Variables (l : list jstring) (cwd : jstring).
Hypothesis l_nonempty : l <> [].
Hypothesis l_simple : Forall (fun s => simple s = true) l.

Lemma resolve_rooted : resolve cwd [rooted l] = rooted l.
Proof.
  unfold resolve. cbn [rev app].
  rewrite resolve_loop_absolute by apply rooted_absolute.
  rewrite normalizeString_rooted by assumption. cbn [segments fold_left].
  now rewrite step_empty, rev_involutive.
Qed.

Lemma fold_one f :
  simple f = true ->
  fold_left (step false) (segments (f ++ [SLASH])) (rev l) = f :: rev l.
Proof.
  intros Hf. rewrite segments_app_slash.
  rewrite (segments_noslash _ (simple_noslash _ Hf)).
  cbn [segments app fold_left].
  rewrite step_empty. now apply step_simple.
Qed.

Lemma resolve_rooted_file f :
  simple f = true -> resolve cwd [rooted l; f] = rooted l ++ SLASH :: f.
Proof.
  intros Hf. unfold resolve. cbn [rev app].
  rewrite resolve_loop_relative
    by (auto using simple_nonempty, simple_not_absolute).
  rewrite resolve_loop_absolute by apply rooted_absolute.
  rewrite normalizeString_rooted by assumption.
  rewrite fold_one by assumption. cbn [rev]. rewrite rev_involutive.
  rewrite join_with_snoc by assumption. reflexivity.
Qed.

Lemma join_rooted_file f :
  simple f = true -> join [rooted l; f] = rooted l ++ SLASH :: f.
Proof.
  intros Hf. unfold join.
  pose proof (simple_nonempty _ Hf) as Hne.
  assert (Ef : Js.eqb f [] = false) by now apply JsFacts.eqb_neq.
  cbn [filter rooted Js.eqb negb]. rewrite Ef. cbn [negb].
  rewrite join_with_cons by discriminate. cbn [join_with].
  change (SLASH :: join_with l) with (rooted l).
  unfold normalize.
  destruct (rooted l ++ SLASH :: f) as [|c0 r0] eqn:Ep; [discriminate Ep|].
  rewrite <- Ep.
  assert (Htr : Js.endsWith (rooted l ++ SLASH :: f) sep = false).
  { change (SLASH :: f) with ([SLASH] ++ f). rewrite app_assoc.
    apply noslash_not_trailing; [assumption | now apply simple_noslash]. }
  rewrite Htr.
  assert (Habs : isAbsolute (rooted l ++ SLASH :: f) = true).
  { reflexivity. }
  rewrite Habs. cbn [negb].
  assert (Hn : normalizeString (rooted l ++ SLASH :: f) false
               = join_with l ++ SLASH :: f).
  { unfold normalizeString. rewrite segments_app_slash.
    rewrite segments_rooted by assumption.
    rewrite (segments_noslash _ (simple_noslash _ Hf)).
    cbn [app fold_left]. rewrite step_empty.
    rewrite fold_left_app, (fold_step_simple false l) by assumption.
    cbn [fold_left]. rewrite step_simple by assumption.
    rewrite app_nil_r. cbn [rev]. rewrite rev_involutive.
    now apply join_with_snoc. }
  rewrite Hn.
  destruct (join_with l ++ SLASH :: f) eqn:Eq.
  - destruct (join_with l); discriminate Eq.
  - rewrite <- Eq. reflexivity.
Qed.

Lemma resolve_rooted_idem f :
  simple f = true ->
  resolve cwd [rooted l ++ SLASH :: f] = rooted l ++ SLASH :: f.
Proof.
  intros Hf.
  replace (rooted l ++ SLASH :: f) with (rooted (l ++ [f])).
  2:{ unfold rooted. rewrite join_with_snoc by assumption. reflexivity. }
  unfold resolve. cbn [rev app].
  rewrite resolve_loop_absolute by apply rooted_absolute.
  rewrite normalizeString_rooted.
  - cbn [segments fold_left]. now rewrite step_empty, rev_involutive.
  - destruct l; discriminate.
  - apply Forall_app. split; [assumption | now constructor].
Qed.

End Rooted.

(** [path.join(dir, name)] of an absolute [dir] and a name: a rooted path
    whose last segment is the name. *)
Lemma join_absolute_name dir nm :
  isAbsolute dir = true -> simple nm = true ->
  exists l, join [dir; nm] = rooted (l ++ [nm])
            /\ Forall (fun s => simple s = true) (l ++ [nm]).
Proof.
  intros Habs Hnm.
  destruct dir as [|c dir']; [discriminate|].
  set (dir := c :: dir') in *.
  pose proof (simple_nonempty _ Hnm) as Hne.
  assert (En : Js.eqb nm [] = false) by now apply JsFacts.eqb_neq.
  set (kept := fold_left (step false) (segments dir) []).
  assert (Hk : Forall (fun s => simple s = true) kept).
  { apply fold_keeps_simple; [apply segments_all_noslash | constructor]. }
  exists (rev kept). split.
  - unfold join. cbn [filter]. rewrite En.
    change (Js.eqb dir []) with false. cbn [negb].
    rewrite join_with_cons by discriminate. cbn [join_with].
    unfold normalize.
    destruct (dir ++ SLASH :: nm) as [|c0 r0] eqn:Ep; [discriminate Ep|].
    rewrite <- Ep.
    assert (Htr : Js.endsWith (dir ++ SLASH :: nm) sep = false).
    { change (SLASH :: nm) with ([SLASH] ++ nm). rewrite app_assoc.
      apply noslash_not_trailing; [assumption | now apply simple_noslash]. }
    rewrite Htr.
    assert (Ha : isAbsolute (dir ++ SLASH :: nm) = true) by exact Habs.
    rewrite Ha. cbn [negb].
    assert (Hn : normalizeString (dir ++ SLASH :: nm) false
                 = join_with (rev kept ++ [nm])).
    { unfold normalizeString. rewrite segments_app_slash.
      rewrite (segments_noslash _ (simple_noslash _ Hnm)).
      rewrite fold_left_app. cbn [fold_left]. fold kept.
      now rewrite step_simple. }
    rewrite Hn. unfold rooted.
    destruct (join_with (rev kept ++ [nm])) eqn:Eq; [|now rewrite <- Eq].
    exfalso. destruct (rev kept) as [|k0 ks].
    + simpl in Eq. congruence.
    + rewrite join_with_snoc in Eq by discriminate.
      destruct (join_with (k0 :: ks)); discriminate Eq.
  - apply Forall_app. split; [|now constructor].
    now apply Forall_rev.
Qed.

End PathFacts.

(** ** The cache directory and the paths inside it *)

Module CachePathFacts.
Import Path PathSpec PathFacts Node ChunkCache CacheSpec.

Lemma simple_of_long s : 2 < length s -> noslash s = true -> simple s = true.
Proof.
  intros Hlen Hs. unfold simple. rewrite Hs.
  destruct s as [|a [|b [|c s]]]; simpl in Hlen; try lia.
  simpl. now rewrite !andb_false_r.
Qed.

Lemma class_ignoreCase_noslash c :
  class_ignoreCase c = true -> negb (N.eqb c SLASH) = true.
Proof.
  unfold class_ignoreCase, canonicalize, SLASH. intros H.
  apply negb_true_iff, N.eqb_neq. intros ->. discriminate H.
Qed.

Lemma key_noslash k : CACHE_KEY_PATTERN_test k = true -> noslash k = true.
Proof.
  unfold CACHE_KEY_PATTERN_test, noslash. intros H.
  apply andb_true_iff in H as [_ H].
  rewrite forallb_forall in *. intros c Hc.
  now apply class_ignoreCase_noslash, H.
Qed.

Lemma key_file_simple k :
  CACHE_KEY_PATTERN_test k = true -> simple (k ++ lit ".json") = true.
Proof.
  intros H. apply simple_of_long.
  - rewrite length_app. simpl. lia.
  - unfold noslash. rewrite forallb_app.
    apply andb_true_iff. split; [now apply key_noslash | reflexivity].
Qed.

Lemma json_name_simple n :
  noslash n = true -> is_json n = true -> simple n = true.
Proof.
  intros Hn Hj. apply simple_of_long; [|assumption].
  apply JsFacts.endsWith_length in Hj. simpl in Hj. lia.
Qed.

Section Paths.

Variable env : Env.

Lemma CACHE_DIR_rooted :
  exists l, CACHE_DIR env = rooted l /\ l <> []
            /\ Forall (fun s => simple s = true) l.
Proof.
  destruct (join_absolute_name (tmpdir env) (lit "gemini-mcp-chunks"))
    as [l [E F]]; [apply tmpdir_absolute | reflexivity |].
  exists (l ++ [lit "gemini-mcp-chunks"]). repeat split; try assumption.
  destruct l; discriminate.
Qed.

Lemma resolve_CACHE_DIR : resolve (cwd env) [CACHE_DIR env] = CACHE_DIR env.
Proof.
  destruct CACHE_DIR_rooted as [l [E [Hne Hl]]]. rewrite E.
  now apply resolve_rooted.
Qed.

Lemma resolve_child n :
  simple n = true -> resolve (cwd env) [CACHE_DIR env; n] = child_path env n.
Proof.
  intros Hn. unfold child_path.
  destruct CACHE_DIR_rooted as [l [E [Hne Hl]]]. rewrite E.
  now apply resolve_rooted_file.
Qed.

Lemma join_child n :
  simple n = true -> join [CACHE_DIR env; n] = child_path env n.
Proof.
  intros Hn. unfold child_path.
  destruct CACHE_DIR_rooted as [l [E [Hne Hl]]]. rewrite E.
  now apply join_rooted_file.
Qed.

Lemma resolve_child_path n :
  simple n = true -> resolve (cwd env) [child_path env n] = child_path env n.
Proof.
  intros Hn. unfold child_path.
  destruct CACHE_DIR_rooted as [l [E [Hne Hl]]]. rewrite E.
  now apply resolve_rooted_idem.
Qed.

Lemma child_path_inj n m : child_path env n = child_path env m -> n = m.
Proof.
  unfold child_path. intros H.
  apply app_inv_head in H. now apply app_inv_head in H.
Qed.

Lemma child_path_not_dir n : child_path env n <> CACHE_DIR env.
Proof.
  unfold child_path. intros H.
  apply (f_equal (@length N)) in H. rewrite !length_app in H. simpl in H. lia.
Qed.

Lemma resolveCachePath_valid k :
  CACHE_KEY_PATTERN_test k = true ->
  resolveCachePath env k = Some (entry_path env k).
Proof.
  intros H. unfold resolveCachePath. rewrite H. cbn [negb].
  rewrite resolve_CACHE_DIR, (resolve_child _ (key_file_simple _ H)).
  unfold child_path. rewrite app_assoc, JsFacts.startsWith_app.
  cbn [negb]. now rewrite <- app_assoc.
Qed.

Lemma resolveCachePath_invalid k :
  CACHE_KEY_PATTERN_test k = false -> resolveCachePath env k = None.
Proof. intros H. unfold resolveCachePath. now rewrite H. Qed.

Lemma resolveCachePath_Some k p :
  resolveCachePath env k = Some p ->
  CACHE_KEY_PATTERN_test k = true /\ p = entry_path env k.
Proof.
  destruct (CACHE_KEY_PATTERN_test k) eqn:E.
  - rewrite (resolveCachePath_valid _ E). intros [= <-]. auto.
  - rewrite (resolveCachePath_invalid _ E). discriminate.
Qed.

End Paths.
End CachePathFacts.

(** ** The file system as a finite map *)

Module FsFacts.
Import Node.

Section Assoc.

Variable V : Type.

Lemma assoc_without_same p (l : list (jstring * V)) :
  assoc p (without p l) = None.
Proof.
  induction l as [|[q v] l IH]; simpl; [reflexivity|].
  destruct (Js.eqb q p) eqn:E; simpl; [assumption|]. now rewrite E.
Qed.

Lemma assoc_without_other p q (l : list (jstring * V)) :
  q <> p -> assoc p (without q l) = assoc p l.
Proof.
  intros Hne. induction l as [|[r v] l IH]; simpl; [reflexivity|].
  destruct (Js.eqb r q) eqn:E; simpl.
  - apply JsFacts.eqb_eq in E. subst r.
    apply JsFacts.eqb_neq in Hne. now rewrite Hne.
  - now rewrite IH.
Qed.

Lemma assoc_In p v (l : list (jstring * V)) :
  assoc p l = Some v -> In (p, v) l.
Proof.
  induction l as [|[q u] l IH]; simpl; [discriminate|].
  destruct (Js.eqb q p) eqn:E.
  - apply JsFacts.eqb_eq in E. intros [= ->]. left. now subst.
  - intros H. right. auto.
Qed.

Lemma In_assoc p v (l : list (jstring * V)) :
  In (p, v) l -> exists u, assoc p l = Some u.
Proof.
  induction l as [|[q u] l IH]; simpl; [tauto|].
  intros [[= -> ->]|H].
  - rewrite JsFacts.eqb_refl. eauto.
  - destruct (Js.eqb q p); eauto.
Qed.

End Assoc.
End FsFacts.

(** ** Reading: getChunks *)

Module ReadFacts.
Import Node ChunkCache CacheSpec CachePathFacts FsFacts.

Arguments Js.lit : simpl never.

Section Read.

Variable EditChunk : Type.
Variable env : Env.

Local Abbreviation World := (Node.World EditChunk).

(** C3, as the code has it.  A key that is not eight hexadecimal digits (of
    either case) is answered with absent; the world changes by one console
    line only, so no call into the file system is made. *)
Theorem getChunks_rejects_malformed_key (key : jstring) (w : World) :
  CACHE_KEY_PATTERN_test key = false ->
  getChunks env key w =
    (Return None,
     printed Stderr_warn
       (Logger.formatMessage env (lit "Invalid cache key format: " ++ key)) w)
  /\ trace (snd (getChunks env key w)) = trace w
  /\ files (snd (getChunks env key w)) = files w
  /\ dirs (snd (getChunks env key w)) = dirs w.
Proof.
  intros H. unfold getChunks.
  rewrite (resolveCachePath_invalid env _ H). repeat split.
Qed.



End Read.
End ReadFacts.

(** ** Running the monad *)

Module RunFacts.
Import Node RunSpec.

Section Run.

Variable EditChunk : Type.
Local Abbreviation M := (Node.M EditChunk).
Local Abbreviation World := (Node.World EditChunk).

Lemma bind_Return {A B} (c : M A) (k : A -> M B) w a w' :
  c w = (Return a, w') -> bind c k w = k a w'.
Proof. unfold bind. now intros ->. Qed.

Lemma bind_Throw {A B} (c : M A) (k : A -> M B) w e w' :
  c w = (Throw e, w') -> bind c k w = (Throw e, w').
Proof. unfold bind. now intros ->. Qed.

Lemma try_Return {A} (c : M A) (h : Err -> M A) w a w' :
  c w = (Return a, w') -> try_catch c h w = (Return a, w').
Proof. unfold try_catch. now intros ->. Qed.

Lemma try_Throw {A} (c : M A) (h : Err -> M A) w e w' :
  c w = (Throw e, w') -> try_catch c h w = h e w'.
Proof. unfold try_catch. now intros ->. Qed.

Lemma returns_ret {A} (a : A) : returns (ret a : M A).
Proof. intros w. now exists a, w. Qed.

Lemma returns_bind {A B} (c : M A) (k : A -> M B) :
  returns c -> (forall a, returns (k a)) -> returns (bind c k).
Proof.
  intros Hc Hk w. destruct (Hc w) as [a [w' E]].
  destruct (Hk a w') as [b [w'' E']]. exists b, w''.
  now rewrite (bind_Return c k w a w' E).
Qed.

Lemma returns_try {A} (c : M A) (h : Err -> M A) :
  (forall e, returns (h e)) -> returns (try_catch c h).
Proof.
  intros Hh w. unfold try_catch.
  destruct (c w) as [[a|e] w']; [now exists a, w' | apply Hh].
Qed.

End Run.
End RunFacts.

(** ** What every operation leaves alone *)

Module FrameFacts.
Import Node RunSpec RunFacts FsFacts.

Section Closure.

Variable EditChunk : Type.
Local Abbreviation M := (Node.M EditChunk).
Local Abbreviation World := (Node.World EditChunk).

Variable R : World -> World -> Prop.
Hypothesis R_refl : forall w, R w w.
Hypothesis R_trans : forall a b c, R a b -> R b c -> R a c.

Lemma keeps_ret {A} (a : A) : keeps R (ret a : M A).
Proof. intros w. apply R_refl. Qed.

Lemma keeps_throw {A} e : keeps R (throw e : M A).
Proof. intros w. apply R_refl. Qed.

Lemma keeps_bind {A B} (c : M A) (k : A -> M B) :
  keeps R c -> (forall a, keeps R (k a)) -> keeps R (bind c k).
Proof.
  intros Hc Hk w. unfold bind. specialize (Hc w).
  destruct (c w) as [[a|e] w']; [|exact Hc].
  eapply R_trans; [exact Hc | apply Hk].
Qed.

Lemma keeps_try {A} (c : M A) (h : Err -> M A) :
  keeps R c -> (forall e, keeps R (h e)) -> keeps R (try_catch c h).
Proof.
  intros Hc Hh w. unfold try_catch. specialize (Hc w).
  destruct (c w) as [[a|e] w']; [exact Hc|].
  eapply R_trans; [exact Hc | apply Hh].
Qed.

Lemma keeps_for_of {A S} (xs : list A) (body : A -> S -> M S) s :
  (forall x s, keeps R (body x s)) ->
  keeps R (ChunkCache.for_of xs body s).
Proof.
  intros Hb. revert s. induction xs as [|x xs IH]; intros s; simpl.
  - apply keeps_ret.
  - apply keeps_bind; auto.
Qed.

Lemma keeps_map_of {A B} (f : A -> M B) (xs : list A) :
  (forall x, keeps R (f x)) -> keeps R (ChunkCache.map_of f xs).
Proof.
  intros Hf. induction xs as [|x xs IH]; simpl.
  - apply keeps_ret.
  - apply keeps_bind; [apply Hf|]. intros y.
    apply keeps_bind; [exact IH|]. intros ys. apply keeps_ret.
Qed.

End Closure.

Section Relations.

Variable EditChunk : Type.
Local Abbreviation World := (Node.World EditChunk).

Lemma steady_refl (w : World) : steady w w.
Proof. repeat split. exists []. now rewrite app_nil_r. Qed.

Lemma steady_trans (a b c : World) : steady a b -> steady b c -> steady a c.
Proof.
  intros [H1 [H2 [H3 [l H4]]]] [K1 [K2 [K3 [m K4]]]].
  repeat split; try congruence.
  exists (l ++ m). now rewrite K4, H4, app_assoc.
Qed.

Lemma shrinks_refl (w : World) : shrinks w w.
Proof. intros p f H. exact H. Qed.

Lemma shrinks_trans (a b c : World) :
  shrinks a b -> shrinks b c -> shrinks a c.
Proof. intros H K p f Hc. apply H, K, Hc. Qed.

End Relations.
End FrameFacts.

(** ** Directory listings *)

Module DirFacts.
Import Node PathSpec RunSpec FsFacts.

Section Dir.

Variable EditChunk : Type.
Local Abbreviation World := (Node.World EditChunk).

Lemma child_name_Some d q n :
  child_name d q = Some n <->
  q = d ++ Path.sep ++ n /\ n <> [] /\ noslash n = true.
Proof.
  unfold child_name. split.
  - destruct (Js.startsWith q (d ++ Path.sep)) eqn:E; [|discriminate].
    apply JsFacts.startsWith_inv in E.
    rewrite length_app in E. cbn [length Path.sep] in E.
    destruct (skipn (length d + 1) q) as [|c r] eqn:En; [discriminate|].
    destruct (forallb _ (c :: r)) eqn:Ef; [|discriminate].
    intros [= <-]. repeat split; [|discriminate|exact Ef].
    now rewrite <- app_assoc in E.
  - intros [-> [Hne Hn]].
    rewrite app_assoc, JsFacts.startsWith_app.
    replace (skipn (length d + 1) ((d ++ Path.sep) ++ n)) with n.
    + destruct n; [congruence|]. unfold noslash in Hn. now rewrite Hn.
    + rewrite skipn_app, skipn_all2 by (rewrite length_app; simpl; lia).
      rewrite length_app. cbn [length Path.sep].
      now replace (length d + 1 - (length d + 1)) with 0 by lia.
Qed.

Lemma In_children d (l : list (jstring * file EditChunk)) n :
  In n (children d l) <->
  (exists f, In (d ++ Path.sep ++ n, f) l) /\ n <> [] /\ noslash n = true.
Proof.
  induction l as [|[q f] l IH]; simpl.
  - split; [tauto | intros [[_ []] _]].
  - destruct (child_name d q) as [m|] eqn:E.
    + apply child_name_Some in E as [-> [Hne Hm]]. simpl. rewrite IH.
      split.
      * intros [<-|[[g Hg] H]]; [|split; eauto].
        split; eauto.
      * intros [[g [Hg|Hg]] H].
        -- left. injection Hg as Hq _.
           apply app_inv_head in Hq. now injection Hq.
        -- right. split; eauto.
    + rewrite IH. split.
      * intros [[g Hg] H]. split; eauto.
      * intros [[g [Hg|Hg]] [Hne Hn]]; [|split; eauto].
        exfalso. injection Hg as -> _.
        assert (Hc : child_name d (d ++ Path.sep ++ n) = Some n)
          by (apply child_name_Some; auto).
        change (Path.sep ++ n) with (Path.SLASH :: n) in *.
        rewrite Hc in E. discriminate E.
Qed.

Lemma In_listing d (l : list (jstring * file EditChunk)) n :
  In n (listing d l) <->
  (exists f, In (d ++ Path.sep ++ n, f) l) /\ n <> [] /\ noslash n = true.
Proof. unfold listing. rewrite nodup_In. apply In_children. Qed.

Lemma NoDup_listing d (l : list (jstring * file EditChunk)) :
  NoDup (listing d l).
Proof. apply NoDup_nodup. Qed.

(** What is listed is there. *)
Lemma listed_assoc d (l : list (jstring * file EditChunk)) n :
  In n (listing d l) -> exists f, assoc (d ++ Path.sep ++ n) l = Some f.
Proof.
  intros H. apply In_listing in H as [[f Hf] _]. eapply In_assoc; eauto.
Qed.

Lemma In_without p (l : list (jstring * file EditChunk)) q f :
  In (q, f) (without p l) -> In (q, f) l.
Proof. unfold without. intros H. now apply filter_In in H. Qed.

End Dir.
End DirFacts.

Module OpFrames.
Import Node RunSpec RunFacts FrameFacts FsFacts ChunkCache.

Lemma assoc_without_Some {V} p q (l : list (jstring * V)) v :
  assoc p (without q l) = Some v -> assoc p l = Some v.
Proof.
  destruct (Js.eqb q p) eqn:E.
  - apply JsFacts.eqb_eq in E. subst q. now rewrite assoc_without_same.
  - apply JsFacts.eqb_neq in E. now rewrite assoc_without_other.
Qed.

Ltac relation_law :=
  solve [ exact (steady_refl _) | exact (steady_trans _)
        | exact (shrinks_refl _) | exact (shrinks_trans _) ].

Ltac leaf_steady :=
  intros w; cbv beta zeta delta
    [existsSync mkdirSync chmodSync readdirSync statSync_mtimeMs unlinkSync
     writeFileSync readFileSync Date_now randomBytes console_warn
     console_error JSON_stringify JSON_parse Logger.debug Logger.error
     Logger.warn Logger.log ret throw];
  repeat match goal with
         | |- context [match ?x with _ => _ end] => destruct x
         end;
  cbn; repeat split;
  first [ exists []; now rewrite app_nil_r | eexists; reflexivity ].

Ltac leaf_shrinks :=
  intros w q f; cbv beta zeta delta
    [existsSync mkdirSync chmodSync readdirSync statSync_mtimeMs unlinkSync
     readFileSync Date_now randomBytes console_warn
     console_error JSON_stringify JSON_parse Logger.debug Logger.error
     Logger.warn Logger.log ret throw];
  repeat match goal with
         | |- context [match ?x with _ => _ end] => destruct x
         end;
  cbn; intros Hfound;
  first [ exact Hfound | exact (assoc_without_Some _ _ _ _ Hfound) ].

Section Leaves.

Variable EditChunk : Type.
Variable stringifiable : EditChunk -> bool.
Variable env : Env.
Local Abbreviation M := (Node.M EditChunk).

Lemma steady_existsSync p : keeps steady (existsSync p : M bool).
Proof. leaf_steady. Qed.
Lemma steady_mkdirSync p : keeps steady (mkdirSync p : M unit).
Proof. leaf_steady. Qed.
Lemma steady_chmodSync p : keeps steady (chmodSync p : M unit).
Proof. leaf_steady. Qed.
Lemma steady_readdirSync p : keeps steady (readdirSync p : M _).
Proof. leaf_steady. Qed.
Lemma steady_statSync p : keeps steady (statSync_mtimeMs p : M Z).
Proof. leaf_steady. Qed.
Lemma steady_unlinkSync p : keeps steady (unlinkSync p : M unit).
Proof. leaf_steady. Qed.
Lemma steady_writeFileSync p t : keeps steady (writeFileSync p t : M unit).
Proof. leaf_steady. Qed.
Lemma steady_readFileSync p : keeps steady (readFileSync p : M _).
Proof. leaf_steady. Qed.
Lemma steady_Date_now : keeps steady (Date_now : M Z).
Proof. leaf_steady. Qed.
Lemma steady_randomBytes n : keeps steady (randomBytes n : M _).
Proof. leaf_steady. Qed.
Lemma steady_debug m : keeps steady (Logger.debug env m : M unit).
Proof. leaf_steady. Qed.
Lemma steady_error m : keeps steady (Logger.error env m : M unit).
Proof. leaf_steady. Qed.
Lemma steady_stringify e : keeps steady (JSON_stringify stringifiable e).
Proof. leaf_steady. Qed.
Lemma steady_parse t : keeps steady (JSON_parse t : M _).
Proof. leaf_steady. Qed.

Lemma shrinks_existsSync p : keeps shrinks (existsSync p : M bool).
Proof. leaf_shrinks. Qed.
Lemma shrinks_mkdirSync p : keeps shrinks (mkdirSync p : M unit).
Proof. leaf_shrinks. Qed.
Lemma shrinks_chmodSync p : keeps shrinks (chmodSync p : M unit).
Proof. leaf_shrinks. Qed.
Lemma shrinks_readdirSync p : keeps shrinks (readdirSync p : M _).
Proof. leaf_shrinks. Qed.
Lemma shrinks_statSync p : keeps shrinks (statSync_mtimeMs p : M Z).
Proof. leaf_shrinks. Qed.
Lemma shrinks_unlinkSync p : keeps shrinks (unlinkSync p : M unit).
Proof. leaf_shrinks. Qed.
Lemma shrinks_Date_now : keeps shrinks (Date_now : M Z).
Proof. leaf_shrinks. Qed.
Lemma shrinks_debug m : keeps shrinks (Logger.debug env m : M unit).
Proof. leaf_shrinks. Qed.
Lemma shrinks_error m : keeps shrinks (Logger.error env m : M unit).
Proof. leaf_shrinks. Qed.

End Leaves.

Create HintDb frames.

#[export] Hint Resolve steady_existsSync steady_mkdirSync steady_chmodSync
  steady_readdirSync steady_statSync steady_unlinkSync steady_writeFileSync
  steady_readFileSync steady_Date_now steady_randomBytes steady_debug
  steady_error steady_stringify steady_parse
  shrinks_existsSync shrinks_mkdirSync shrinks_chmodSync shrinks_readdirSync
  shrinks_statSync shrinks_unlinkSync shrinks_Date_now shrinks_debug
  shrinks_error : frames.

(** Take a computation apart down to its calls. *)
Ltac frames :=
  repeat (intros;
    first
      [ apply keeps_ret; relation_law
      | apply keeps_throw; relation_law
      | apply keeps_bind; [relation_law | | ]
      | apply keeps_try; [relation_law | | ]
      | apply keeps_for_of; [relation_law | relation_law | ]
      | apply keeps_map_of; [relation_law | relation_law | ]
      | match goal with
        | |- keeps _ (if ?b then _ else _) => destruct b
        | |- keeps _ (match ?x with _ => _ end) => destruct x
        end
      | solve [auto with frames] ]).

Section Composite.

Variable EditChunk : Type.
Variable stringifiable : EditChunk -> bool.
Variable env : Env.
Local Abbreviation M := (Node.M EditChunk).

Lemma steady_ensureCacheDir : keeps steady (ensureCacheDir env : M unit).
Proof. unfold ensureCacheDir. frames. Qed.

Lemma steady_cleanExpiredFiles : keeps steady (cleanExpiredFiles env : M unit).
Proof.
  unfold cleanExpiredFiles. pose proof steady_ensureCacheDir. frames.
Qed.

Lemma steady_enforceFileLimits : keeps steady (enforceFileLimits env : M unit).
Proof. unfold enforceFileLimits. frames. Qed.

Lemma shrinks_enforceFileLimits :
  keeps shrinks (enforceFileLimits env : M unit).
Proof. unfold enforceFileLimits. frames. Qed.

Lemma steady_redraw i k fp : keeps steady (redraw env i k fp : M _).
Proof.
  revert k fp. induction i as [|i IH]; intros k fp; simpl; frames.
Qed.

End Composite.
End OpFrames.

(** ** The cache directory across operations *)

Module CacheDirFacts.
Import Node PathSpec RunSpec RunFacts FsFacts DirFacts.
Import ChunkCache CacheSpec CachePathFacts.

Section CacheDir.

Variable EditChunk : Type.
Variable env : Env.
Local Abbreviation M := (Node.M EditChunk).
Local Abbreviation World := (Node.World EditChunk).

(** ensureCacheDir returns; afterwards something is at CACHE_DIR, and the
    files are those from before. *)
Lemma ensureCacheDir_spec (w : World) :
  exists w', ensureCacheDir env w = (Return tt, w')
    /\ files w' = files w
    /\ (is_some (assoc (CACHE_DIR env) (dirs w')) = true
        \/ is_some (assoc (CACHE_DIR env) (files w')) = true)
    /\ (present w (CACHE_DIR env) = true -> dirs w' = dirs w).
Proof.
  unfold present.
  unfold ensureCacheDir, bind, try_catch, existsSync, mkdirSync, chmodSync, ret.
  cbn.
  destruct (assoc (CACHE_DIR env) (files w)) as [f|] eqn:Ef;
    destruct (assoc (CACHE_DIR env) (dirs w)) as [t|] eqn:Ed; cbn;
    rewrite ?Ef, ?Ed; cbn; rewrite ?Ef, ?Ed, ?JsFacts.eqb_refl; cbn;
    eexists; (split; [reflexivity|]); cbn;
    rewrite ?Ef, ?Ed, ?JsFacts.eqb_refl; cbn; auto.
  intuition discriminate.
Qed.

End CacheDir.
End CacheDirFacts.

(** ** Keys: hex encoding and digests *)

Module KeyFacts.
Import Node ChunkCache CacheSpec.

Lemma hex_digit_lower d : class_a_f_0_9 (Crypto.hex_digit d) = true.
Proof.
  unfold Crypto.hex_digit, class_a_f_0_9.
  pose proof (Z.mod_pos_bound d 16 ltac:(lia)) as Hd.
  destruct (Z.ltb_spec (d mod 16) 10) as [Hlt|Hge].
  - apply orb_true_iff. right. apply andb_true_iff.
    split; apply N.leb_le; lia.
  - apply orb_true_iff. left. apply andb_true_iff.
    split; apply N.leb_le; lia.
Qed.

Lemma toString_hex_lower bs :
  forallb class_a_f_0_9 (Crypto.toString_hex bs) = true.
Proof.
  unfold Crypto.toString_hex.
  induction bs as [|b bs IH]; [reflexivity|].
  cbn [flat_map Crypto.hex_byte app forallb].
  now rewrite !hex_digit_lower, IH.
Qed.

Lemma toString_hex_length bs :
  length (Crypto.toString_hex bs) = 2 * length bs.
Proof.
  unfold Crypto.toString_hex.
  induction bs as [|b bs IH]; [reflexivity|].
  cbn [flat_map Crypto.hex_byte app length]. rewrite IH. lia.
Qed.

Lemma be_bytes_length n x : length (Crypto.be_bytes n x) = n.
Proof.
  unfold Crypto.be_bytes. now rewrite length_map, length_rev, length_seq.
Qed.

Lemma sha256_length msg : length (Crypto.sha256 msg) = 32.
Proof.
  unfold Crypto.sha256, Crypto.regs_bytes.
  now rewrite !length_app, !be_bytes_length.
Qed.

Lemma sha256_hex_length s : length (Crypto.sha256_hex s) = 64.
Proof.
  unfold Crypto.sha256_hex. now rewrite toString_hex_length, sha256_length.
Qed.

Lemma sha256_hex_lower s : forallb class_a_f_0_9 (Crypto.sha256_hex s) = true.
Proof. apply toString_hex_lower. Qed.

Lemma forallb_firstn {A} (f : A -> bool) n l :
  forallb f l = true -> forallb f (firstn n l) = true.
Proof.
  revert l; induction n as [|n IH]; intros [|x l]; simpl; auto.
  intros H. apply andb_true_iff in H as [-> H]. now apply IH.
Qed.

(** What randomBytes(4).toString('hex') yields is a key, in lower case. *)
Lemma drawn_key_lowercase (entropy : nat -> Z) d :
  lowercase_KEY_PATTERN_test
    (Crypto.toString_hex (map entropy (seq d 4))) = true.
Proof.
  unfold lowercase_KEY_PATTERN_test.
  rewrite toString_hex_length, length_map, length_seq, toString_hex_lower.
  reflexivity.
Qed.

(** So is the first eight characters of a digest. *)
Lemma digest_key_lowercase s :
  lowercase_KEY_PATTERN_test (Js.slice0 8 (Crypto.sha256_hex s)) = true.
Proof.
  unfold lowercase_KEY_PATTERN_test, Js.slice0.
  rewrite length_firstn, sha256_hex_length.
  now rewrite forallb_firstn by apply sha256_hex_lower.
Qed.

Lemma class_lower_ignoreCase c :
  class_a_f_0_9 c = true -> class_ignoreCase c = true.
Proof.
  unfold class_a_f_0_9, class_ignoreCase, canonicalize. intros H.
  apply orb_true_iff in H as [H|H]; apply andb_true_iff in H as [H1 H2];
    apply N.leb_le in H1, H2.
  - replace ((97 <=? c)%N && (c <=? 122)%N) with true
      by (symmetry; apply andb_true_iff; split; apply N.leb_le; lia).
    apply orb_true_iff. left. apply andb_true_iff.
    split; apply N.leb_le; lia.
  - replace ((97 <=? c)%N && (c <=? 122)%N) with false.
    + apply orb_true_iff. right. apply andb_true_iff.
      split; apply N.leb_le; lia.
    + symmetry. apply andb_false_iff. left. apply N.leb_gt. lia.
Qed.

(** A lower-case key passes the pattern the code tests. *)
Lemma lowercase_key_valid k :
  lowercase_KEY_PATTERN_test k = true -> CACHE_KEY_PATTERN_test k = true.
Proof.
  unfold lowercase_KEY_PATTERN_test, CACHE_KEY_PATTERN_test. intros H.
  apply andb_true_iff in H as [-> H]. cbn [andb].
  rewrite forallb_forall in *. auto using class_lower_ignoreCase.
Qed.

End KeyFacts.

(** ** Sorting by modification time *)

Module SortFacts.
Import ChunkCache CacheSpec.

Lemma insert_perm a l : Permutation (insert a l) (a :: l).
Proof.
  induction l as [|b l IH]; simpl; [reflexivity|].
  destruct (mtime a - mtime b >? 0)%Z; [|reflexivity].
  rewrite IH. apply perm_swap.
Qed.

Lemma sort_perm l : Permutation (sort l) l.
Proof.
  induction l as [|a l IH]; simpl; [reflexivity|].
  rewrite insert_perm. now constructor.
Qed.

Lemma insert_sorted a l :
  StronglySorted not_newer l -> StronglySorted not_newer (insert a l).
Proof.
  induction 1 as [|b l Hs IH Hb]; simpl.
  - repeat constructor.
  - destruct (Z.gtb_spec (mtime a - mtime b) 0) as [Hgt|Hle].
    + constructor; [exact IH|].
      eapply Permutation_Forall; [symmetry; apply insert_perm|].
      constructor; [unfold not_newer; lia | exact Hb].
    + constructor; [now constructor|].
      constructor; [unfold not_newer; lia|].
      eapply Forall_impl; [|exact Hb].
      unfold not_newer. intros c Hc. lia.
Qed.

Lemma sort_sorted l : StronglySorted not_newer (sort l).
Proof.
  induction l as [|a l IH]; simpl; [constructor | now apply insert_sorted].
Qed.

Lemma sorted_split (R : listed -> listed -> Prop) a b :
  StronglySorted R (a ++ b) -> forall x y, In x a -> In y b -> R x y.
Proof.
  induction a as [|c a IH]; simpl; intros Hs x y Hx Hy; [contradiction|].
  inversion Hs as [|? ? Hs' Hc]; subst.
  destruct Hx as [<-|Hx]; [|now apply IH].
  rewrite Forall_forall in Hc. apply Hc, in_or_app. now right.
Qed.

(** The first [k] of a sorted list are not newer than the rest. *)
Lemma oldest_first l k x y :
  In x (firstn k (sort l)) -> In y (skipn k (sort l)) -> not_newer x y.
Proof.
  apply sorted_split. rewrite firstn_skipn. apply sort_sorted.
Qed.

Lemma sort_length l : length (sort l) = length l.
Proof. apply Permutation_length, sort_perm. Qed.

End SortFacts.

(** ** Eviction: enforceFileLimits *)

Module EnforceFacts.
Import Node PathSpec RunSpec RunFacts FsFacts DirFacts.
Import ChunkCache CacheSpec CachePathFacts SortFacts.

Section Enforce.

Variable EditChunk : Type.
Variable env : Env.
Local Abbreviation M := (Node.M EditChunk).
Local Abbreviation World := (Node.World EditChunk).

Lemma without_absent p (l : list (jstring * file EditChunk)) :
  assoc p l = None -> without p l = l.
Proof.
  induction l as [|[q f] l IH]; simpl; [reflexivity|].
  destruct (Js.eqb q p); [discriminate|]. intros H. simpl. now rewrite IH.
Qed.

Lemma In_without_iff p (l : list (jstring * file EditChunk)) q f :
  In (q, f) (without p l) <-> In (q, f) l /\ q <> p.
Proof.
  unfold without. rewrite filter_In. cbn [fst].
  rewrite negb_true_iff, JsFacts.eqb_neq. tauto.
Qed.

(** Unlinking a list of paths, one after the other. *)
Lemma In_unlinked ps (l : list (jstring * file EditChunk)) q f :
  In (q, f) (fold_left (fun fs p => without p fs) ps l)
  <-> In (q, f) l /\ ~ In q ps.
Proof.
  revert l; induction ps as [|p ps IH]; intros l; simpl; [tauto|].
  rewrite IH, In_without_iff. intuition congruence.
Qed.

Lemma stat_of_files (w w' : World) n :
  files w' = files w -> stat_of env w' n = stat_of env w n.
Proof. unfold stat_of, mtime_of. now intros ->. Qed.

(** The [map] of enforceFileLimits: every listed entry is stat'ed. *)
Lemma stat_all (l : list jstring) (w : World) :
  (forall n, In n l -> simple n = true
             /\ is_some (assoc (child_path env n) (files w)) = true) ->
  exists w',
    map_of (fun f =>
      bind (statSync_mtimeMs (Path.join [CACHE_DIR env; f])) (fun mtimeMs =>
      ret {| name := f; path := Path.join [CACHE_DIR env; f];
             mtime := mtimeMs |})) l w
    = (Return (map (stat_of env w) l), w')
    /\ files w' = files w /\ dirs w' = dirs w.
Proof.
  revert w. induction l as [|n l IH]; intros w Hl.
  - exists w. repeat split.
  - destruct (Hl n (in_eq _ _)) as [Hs Hp].
    destruct (assoc (child_path env n) (files w)) as [f|] eqn:Ef;
      [|discriminate Hp].
    set (w1 := traced (Call_stat (child_path env n)) w).
    destruct (IH w1) as [w' [E [Hf Hd]]].
    { intros m Hm. apply Hl. now right. }
    exists w'. split; [|auto].
    cbn [map_of map].
    assert (E1 : bind (statSync_mtimeMs (Path.join [CACHE_DIR env; n]))
                   (fun mtimeMs : Z =>
                      ret {| name := n; path := Path.join [CACHE_DIR env; n];
                             mtime := mtimeMs |}) w
                 = (Return (stat_of env w n), w1)).
    { unfold bind, statSync_mtimeMs, ret, stat_of, mtime_of.
      rewrite (join_child env n Hs). cbn. now rewrite Ef. }
    rewrite (bind_Return _ _ _ _ _ _ E1).
    rewrite (bind_Return _ _ _ _ _ _ E).
    replace (map (stat_of env w1) l) with (map (stat_of env w) l)
      by (apply map_ext; intros m; symmetry; now apply stat_of_files).
    reflexivity.
Qed.

(** The loop of enforceFileLimits: each unlink is tried, a failure skipped. *)
Lemma unlink_each (l : list listed) (w : World) :
  exists w',
    for_of l (fun file (_ : unit) =>
      try_catch (unlinkSync (path file)) (fun _ => ret tt)) tt w
    = (Return tt, w')
    /\ dirs w' = dirs w
    /\ files w' = fold_left (fun fs p => without p fs) (map path l) (files w).
Proof.
  revert w. induction l as [|x l IH]; intros w.
  - exists w. repeat split.
  - cbn [for_of map fold_left].
    destruct (assoc (path x) (files w)) as [f|] eqn:Ef.
    + set (w1 := set_files (without (path x) (files w))
                   (traced (Call_unlink (path x)) w)).
      assert (E1 : try_catch (unlinkSync (path x)) (fun _ => ret tt) w
                   = (Return tt, w1)).
      { unfold try_catch, unlinkSync. cbn. now rewrite Ef. }
      rewrite (bind_Return _ _ _ _ _ _ E1).
      destruct (IH w1) as [w' [E [Hd Hf]]]. exists w'. auto.
    + set (w1 := traced (Call_unlink (path x)) w).
      assert (E1 : try_catch (unlinkSync (path x)) (fun _ => ret tt) w
                   = (Return tt, w1)).
      { unfold try_catch, unlinkSync. cbn. rewrite Ef.
        destruct (is_some (assoc (path x) (dirs w))); reflexivity. }
      rewrite (bind_Return _ _ _ _ _ _ E1).
      destruct (IH w1) as [w' [E [Hd Hf]]]. exists w'.
      split; [exact E|]. split; [exact Hd|].
      rewrite Hf. cbn. now rewrite (without_absent _ _ Ef).
Qed.

(** What enforceFileLimits does: it returns, leaves the directories alone
    and unlinks the first [length - MAX_CACHE_FILES] entries of the list
    sorted by modification time. *)
Lemma enforce_run (w : World) :
  exists w',
    enforceFileLimits env w = (Return tt, w')
    /\ dirs w' = dirs w
    /\ files w' =
       fold_left (fun fs p => without p fs)
         (map path
            (firstn (length (entries env w) - MAX_CACHE_FILES)
               (sort (map (stat_of env w) (entries env w)))))
         (files w).
Proof.
  unfold enforceFileLimits, entries.
  set (D := CACHE_DIR env).
  destruct (is_some (assoc D (dirs w))) eqn:Ed.
  - set (w1 := traced (Call_readdir D) w).
    assert (Er : readdirSync D w = (Return (listing D (files w)), w1)).
    { unfold readdirSync. cbn. now rewrite Ed. }
    set (E := filter is_json (listing D (files w))).
    destruct (stat_all E w1) as [w2 [Es [Hf2 Hd2]]].
    { intros n Hn. apply filter_In in Hn as [Hn Hj]. split.
      - apply json_name_simple; [|exact Hj]. now apply In_listing in Hn.
      - apply listed_assoc in Hn as [f Hf]. cbn. unfold child_path.
        fold D. now rewrite Hf. }
    replace (map (stat_of env w1) E) with (map (stat_of env w) E) in Es
      by (apply map_ext; intros n; symmetry; now apply stat_of_files).
    set (S := sort (map (stat_of env w) E)) in *.
    assert (HS : length S = length E)
      by (unfold S; now rewrite sort_length, length_map).
    destruct (Nat.ltb MAX_CACHE_FILES (length S)) eqn:Elt.
    + destruct (unlink_each (firstn (length S - MAX_CACHE_FILES) S) w2)
        as [w3 [Eu [Hd3 Hf3]]].
      eexists. split.
      * erewrite try_Return; [reflexivity|].
        erewrite bind_Return by exact Er.
        erewrite bind_Return by exact Es.
        fold S. rewrite Elt.
        erewrite bind_Return by exact Eu. reflexivity.
      * cbn. rewrite Hd3, Hd2, Hf3, Hf2, HS. auto.
    + eexists. split.
      * erewrite try_Return; [reflexivity|].
        erewrite bind_Return by exact Er.
        erewrite bind_Return by exact Es.
        fold S. rewrite Elt. reflexivity.
      * cbn. split; [exact Hd2|]. rewrite Hf2.
        apply Nat.ltb_ge in Elt.
        replace (length E - MAX_CACHE_FILES) with 0 by lia. reflexivity.
  - assert (Er : exists e, readdirSync D w
                           = (Throw e, traced (Call_readdir D) w)).
    { unfold readdirSync. cbn. rewrite Ed.
      destruct (is_some (assoc D (files w))); eauto. }
    destruct Er as [e Er].
    eexists. split.
    + erewrite try_Throw; [reflexivity|].
      erewrite bind_Throw by exact Er. reflexivity.
    + cbn. auto.
Qed.

Lemma NoDup_entries (w : World) : NoDup (entries env w).
Proof.
  unfold entries. destruct (is_some _); [|constructor].
  apply NoDup_filter, NoDup_listing.
Qed.

Lemma entry_simple (w : World) n : In n (entries env w) -> simple n = true.
Proof.
  unfold entries. destruct (is_some _); [|intros []].
  intros H. apply filter_In in H as [H Hj].
  apply json_name_simple; [|exact Hj]. now apply In_listing in H.
Qed.

Lemma NoDup_app_disjoint {A} (a b : list A) x :
  NoDup (a ++ b) -> In x a -> In x b -> False.
Proof.
  induction a as [|c a IH]; simpl; [tauto|].
  intros Hn [<-|Hx] Hb; inversion Hn as [|? ? Hc Hn']; subst.
  - apply Hc, in_or_app. now right.
  - now apply IH.
Qed.

(** The entries split into the ones enforceFileLimits removes and the ones
    it keeps: the surplus, none of it newer than anything kept. *)
Lemma enforce_split (w : World) :
  exists w' removed kept,
    enforceFileLimits env w = (Return tt, w')
    /\ dirs w' = dirs w
    /\ Permutation (entries env w) (removed ++ kept)
    /\ length removed = length (entries env w) - MAX_CACHE_FILES
    /\ (forall r k, In r removed -> In k kept ->
                    (mtime_of env w r <= mtime_of env w k)%Z)
    /\ (forall n, In n (entries env w') <-> In n kept)
    /\ (forall n, In n kept ->
                  assoc (child_path env n) (files w')
                  = assoc (child_path env n) (files w)).
Proof.
  destruct (enforce_run w) as [w' [E [Hd Hf]]].
  set (En := entries env w) in *.
  set (S := sort (map (stat_of env w) En)) in *.
  set (k := length En - MAX_CACHE_FILES) in *.
  exists w', (map name (firstn k S)), (map name (skipn k S)).
  assert (HS : Forall (fun x => In (name x) En /\ x = stat_of env w (name x)) S).
  { eapply Permutation_Forall; [symmetry; apply sort_perm|].
    apply Forall_forall. intros x Hx. apply in_map_iff in Hx as [n [<- Hn]].
    auto. }
  rewrite Forall_forall in HS.
  assert (Hperm : Permutation En (map name (firstn k S) ++ map name (skipn k S))).
  { rewrite <- map_app, firstn_skipn. unfold S.
    rewrite (Permutation_map name (sort_perm _)), map_map. cbn [name stat_of].
    now rewrite map_id. }
  assert (Hnd : NoDup (map name (firstn k S) ++ map name (skipn k S))).
  { eapply Permutation_NoDup; [exact Hperm | apply NoDup_entries]. }
  assert (Hpaths : map path (firstn k S)
                   = map (child_path env) (map name (firstn k S))).
  { rewrite map_map. apply map_ext_in. intros x Hx.
    assert (HxS : In x S) by (rewrite <- (firstn_skipn k S); apply in_or_app; auto).
    destruct (HS x HxS) as [Hin ->]. cbn [path name stat_of].
    apply join_child. eapply entry_simple, Hin. }
  rewrite Hpaths in Hf.
  assert (Hfile : forall n g, In (child_path env n, g) (files w') <->
                    In (child_path env n, g) (files w)
                    /\ ~ In n (map name (firstn k S))).
  { intros n g. rewrite Hf, In_unlinked. split; intros [H1 H2]; split; auto.
    - intros Hc. apply H2, in_map, Hc.
    - intros Hc. apply in_map_iff in Hc as [m [Hm Hin]].
      apply child_path_inj in Hm. subst. auto. }
  split; [exact E|]. split; [exact Hd|]. split; [exact Hperm|].
  split.
  { rewrite length_map, length_firstn. unfold S.
    rewrite sort_length, length_map. unfold k. lia. }
  split.
  { intros r kp Hr Hk.
    apply in_map_iff in Hr as [x [<- Hx]].
    apply in_map_iff in Hk as [y [<- Hy]].
    pose proof (oldest_first _ _ _ _ Hx Hy) as Hle. unfold not_newer in Hle.
    assert (HxS : In x S) by (rewrite <- (firstn_skipn k S); apply in_or_app; auto).
    assert (HyS : In y S) by (rewrite <- (firstn_skipn k S); apply in_or_app; auto).
    destruct (HS x HxS) as [_ Ex]. destruct (HS y HyS) as [_ Ey].
    rewrite Ex, Ey in Hle. exact Hle. }
  assert (Hiff : forall n, In n (entries env w')
                   <-> In n En /\ ~ In n (map name (firstn k S))).
  { intros n. unfold En, entries. rewrite Hd.
    destruct (is_some (assoc (CACHE_DIR env) (dirs w))); [|tauto].
    rewrite !filter_In, !In_listing.
    split.
    - intros [[[g Hg] Hn] Hj]. apply Hfile in Hg as [Hg Hnot].
      repeat split; eauto; tauto.
    - intros [[[[g Hg] Hn] Hj] Hnot].
      repeat split; try tauto. exists g. apply Hfile. auto. }
  split.
  - intros n. rewrite Hiff. split.
    + intros [Hin Hnot].
      apply (Permutation_in _ Hperm), in_app_or in Hin. tauto.
    + intros Hk. split.
      * apply (Permutation_in _ (Permutation_sym Hperm)), in_or_app. auto.
      * intros Hr. exact (NoDup_app_disjoint _ _ _ Hnd Hr Hk).
  - intros n Hk.
    assert (Hnot : ~ In n (map name (firstn k S)))
      by (intros Hr; exact (NoDup_app_disjoint _ _ _ Hnd Hr Hk)).
    rewrite Hf.
    assert (Hgen : forall ps (l : list (jstring * file EditChunk)),
              ~ In (child_path env n) ps ->
              assoc (child_path env n)
                (fold_left (fun fs p => without p fs) ps l)
              = assoc (child_path env n) l).
    { induction ps as [|p ps IHp]; intros l Hp; [reflexivity|].
      cbn [fold_left]. rewrite IHp by (intros Hc; apply Hp; now right).
      apply assoc_without_other. intros ->. apply Hp. now left. }
    apply Hgen. intros Hc. apply in_map_iff in Hc as [m [Hm Hin]].
    apply child_path_inj in Hm. subst. auto.
Qed.

End Enforce.
End EnforceFacts.

(** ** Writing: cacheChunks *)

Module WriteFacts.
Import Node PathSpec RunSpec RunFacts FrameFacts OpFrames FsFacts DirFacts.
Import ChunkCache CacheSpec CachePathFacts KeyFacts CacheDirFacts EnforceFacts.

Section Write.

Variable EditChunk : Type.
Variable stringifiable : EditChunk -> bool.
Variable env : Env.
Local Abbreviation M := (Node.M EditChunk).
Local Abbreviation World := (Node.World EditChunk).

Lemma returns_debug m : returns (Logger.debug env m : M unit).
Proof. intros w. now eexists _, _. Qed.

Lemma returns_error m : returns (Logger.error env m : M unit).
Proof. intros w. now eexists _, _. Qed.

Lemma returns_cleanExpiredFiles : returns (cleanExpiredFiles env : M unit).
Proof.
  unfold cleanExpiredFiles. apply returns_try. intros e. apply returns_debug.
Qed.

(** The redraw loop hands back a lower-case key together with its path. *)
Lemma redraw_returns i k (w : World) :
  lowercase_KEY_PATTERN_test k = true ->
  exists k' w',
    redraw env i k (Some (entry_path env k)) w
    = (Return (k', Some (entry_path env k')), w')
    /\ lowercase_KEY_PATTERN_test k' = true.
Proof.
  revert k w. induction i as [|i IH]; intros k w Hk.
  - now exists k, w.
  - cbn [redraw]. unfold bind at 1. unfold existsSync at 1.
    destruct (is_some _ || is_some _).
    + unfold bind at 1. unfold randomBytes at 1.
      set (k2 := Crypto.toString_hex _).
      assert (Hk2 : lowercase_KEY_PATTERN_test k2 = true)
        by apply drawn_key_lowercase.
      rewrite (resolveCachePath_valid env k2 (lowercase_key_valid _ Hk2)).
      now apply IH.
    + now eexists _, _.
Qed.

Lemma drawKey_returns (w : World) :
  exists key wk,
    drawKey env w = (Return (key, Some (entry_path env key)), wk)
    /\ lowercase_KEY_PATTERN_test key = true.
Proof.
  unfold drawKey.
  destruct (ensureCacheDir_spec _ env w) as [w1 [E1 _]].
  destruct (returns_cleanExpiredFiles w1) as [[] [w2 E2]].
  erewrite bind_Return by exact E1.
  erewrite bind_Return by exact E2.
  unfold bind at 1. unfold randomBytes at 1.
  set (k := Crypto.toString_hex _).
  assert (Hk : lowercase_KEY_PATTERN_test k = true)
    by apply drawn_key_lowercase.
  rewrite (resolveCachePath_valid env k (lowercase_key_valid _ Hk)).
  now apply redraw_returns.
Qed.

Lemma store_returns prompt chunks key p (wk : World) :
  exists ws, store stringifiable env prompt chunks key p wk = (Return tt, ws).
Proof.
  unfold store, bind at 1, Date_now at 1.
  match goal with
  | |- context [try_catch ?c ?h] =>
      destruct (@returns_try _ _ c h (fun e => returns_error _) wk)
        as [[] [ws E]]
  end.
  exists ws. exact E.
Qed.

(** cacheChunks is: draw a key, store under it, enforce the limit, return
    the key. *)
Lemma cacheChunks_run prompt chunks (w : World) :
  exists key wk ws,
    drawKey env w = (Return (key, Some (entry_path env key)), wk)
    /\ lowercase_KEY_PATTERN_test key = true
    /\ store stringifiable env prompt chunks key (entry_path env key) wk
       = (Return tt, ws)
    /\ cacheChunks stringifiable env prompt chunks w
       = (Return key, snd (enforceFileLimits env ws)).
Proof.
  destruct (drawKey_returns w) as [key [wk [Ed Hk]]].
  destruct (store_returns prompt chunks key (entry_path env key) wk)
    as [ws Es].
  exists key, wk, ws. repeat split; auto.
  destruct (enforce_run _ env ws) as [w' [Ee _]]. rewrite Ee. cbn [snd].
  revert Ed Es. unfold drawKey, store, cacheChunks, bind.
  destruct (ensureCacheDir env w) as [[[]|e1] w1]; [|discriminate].
  destruct (cleanExpiredFiles env w1) as [[[]|e2] w2]; [|discriminate].
  destruct (randomBytes 4 w2) as [[bytes|e3] w3]; [|discriminate].
  destruct (redraw env 5 _ _ w3) as [[[k fp]|e4] w4]; [|discriminate].
  intros [= -> -> ->].
  destruct (Date_now wk) as [[now|e5] w5]; [|discriminate].
  intros ->. now rewrite Ee.
Qed.

Lemma steady_drawKey : keeps steady (drawKey env : M _).
Proof.
  unfold drawKey.
  pose proof (steady_ensureCacheDir EditChunk env).
  pose proof (steady_cleanExpiredFiles EditChunk env).
  pose proof (steady_redraw EditChunk env).
  frames.
Qed.

(** The write step when nothing fails: the entry is the file at the path. *)
Lemma store_ok prompt chunks key p (wk : World) :
  forallb stringifiable chunks = true ->
  write_fails wk p = false ->
  exists ws,
    store stringifiable env prompt chunks key p wk = (Return tt, ws)
    /\ files ws =
       (p, {| content := Serialized
                {| Node.chunks := chunks; timestamp := clock wk;
                   promptHash := Crypto.sha256_hex prompt |};
              mtimeMs := clock wk |}) :: without p (files wk)
    /\ clock ws = clock wk.
Proof.
  intros Hs Hw.
  unfold store, bind, try_catch, Date_now, JSON_stringify, writeFileSync,
    Logger.debug, console_warn, ret.
  cbn. rewrite Hs. cbn. rewrite Hw. cbn. eexists. repeat split.
Qed.


(** The redraw loop when every key it checks is taken: the key it hands
    back is the last one drawn. *)
Lemma key_at_eq (w w' : World) a b :
  entropy w = entropy w' -> a = b -> key_at w a = key_at w' b.
Proof. unfold key_at. now intros -> ->. Qed.

Lemma redraw_all_taken i k (w : World) :
  lowercase_KEY_PATTERN_test k = true ->
  (0 < i -> present w (entry_path env k) = true) ->
  (forall j, S j < i ->
             present w (entry_path env (key_at w (drawn w + 4 * j))) = true) ->
  fst (redraw env i k (Some (entry_path env k)) w)
  = Return (match i with
            | O => k
            | S i' => key_at w (drawn w + 4 * i')
            end,
            Some (entry_path env
                    (match i with
                     | O => k
                     | S i' => key_at w (drawn w + 4 * i')
                     end))).
Proof.
  revert k w. induction i as [|i IH]; intros k w Hk Hp Hall; [reflexivity|].
  cbn [redraw]. unfold bind at 1. unfold existsSync at 1.
  specialize (Hp ltac:(lia)). unfold present in Hp. rewrite Hp.
  unfold bind at 1. unfold randomBytes at 1.
  set (w1 := traced (Call_exists (entry_path env k)) w).
  set (w2 := set_drawn (drawn w1 + 4) w1).
  change (Crypto.toString_hex (map (entropy w1) (seq (drawn w1) 4)))
    with (key_at w (drawn w)).
  assert (Hk2 : lowercase_KEY_PATTERN_test (key_at w (drawn w)) = true)
    by apply drawn_key_lowercase.
  rewrite (resolveCachePath_valid env _ (lowercase_key_valid _ Hk2)).
  rewrite IH; auto.
  - destruct i as [|i']; [now rewrite Nat.mul_0_r, Nat.add_0_r|].
    assert (E : key_at w2 (drawn w2 + 4 * i') = key_at w (drawn w + 4 * S i'))
      by (apply key_at_eq; [reflexivity | subst w2 w1; cbn; lia]).
    now rewrite E.
  - intros Hi. specialize (Hall 0 ltac:(lia)).
    now rewrite Nat.mul_0_r, Nat.add_0_r in Hall.
  - intros j Hj. specialize (Hall (S j) ltac:(lia)).
    assert (E : key_at w2 (drawn w2 + 4 * j) = key_at w (drawn w + 4 * S j))
      by (apply key_at_eq; [reflexivity | subst w2 w1; cbn; lia]).
    rewrite E. exact Hall.
Qed.

End Write.
End WriteFacts.

(** ** What cacheChunks guarantees *)

Module CacheChunksFacts.
Import Node PathSpec RunSpec RunFacts FrameFacts OpFrames FsFacts DirFacts.
Import ChunkCache CacheSpec CachePathFacts KeyFacts CacheDirFacts EnforceFacts.
Import WriteFacts.

Section Guarantees.

Variable EditChunk : Type.
Variable stringifiable : EditChunk -> bool.
Variable env : Env.
Local Abbreviation M := (Node.M EditChunk).
Local Abbreviation World := (Node.World EditChunk).

Lemma drawKey_all_taken (w : World) :
  (forall i, i < 5 ->
     present (swept env w) (entry_path env (draw (swept env w) i)) = true) ->
  fst (drawKey env w)
  = Return (draw (swept env w) 5,
            Some (entry_path env (draw (swept env w) 5))).
Proof.
  destruct (ensureCacheDir_spec _ env w) as [w1 [E1 _]].
  destruct (returns_cleanExpiredFiles _ env w1) as [[] [w2 E2]].
  assert (Hsw : swept env w = w2).
  { unfold swept, sweep. erewrite bind_Return by exact E1. now rewrite E2. }
  rewrite Hsw. intros H. unfold drawKey.
  erewrite bind_Return by exact E1.
  erewrite bind_Return by exact E2.
  unfold bind at 1. unfold randomBytes at 1.
  set (w3 := set_drawn (drawn w2 + 4) w2).
  change (Crypto.toString_hex (map (entropy w2) (seq (drawn w2) 4)))
    with (key_at w2 (drawn w2)).
  assert (Hk : lowercase_KEY_PATTERN_test (key_at w2 (drawn w2)) = true)
    by apply drawn_key_lowercase.
  rewrite (resolveCachePath_valid env _ (lowercase_key_valid _ Hk)).
  rewrite redraw_all_taken; auto.
  - assert (E : key_at w3 (drawn w3 + 4 * 4) = draw w2 5)
      by (apply key_at_eq; [reflexivity | subst w3; cbn; lia]).
    now rewrite E.
  - intros _. specialize (H 0 ltac:(lia)). unfold draw in H.
    now rewrite Nat.mul_0_r, Nat.add_0_r in H.
  - intros j Hj. specialize (H (S j) ltac:(lia)).
    assert (E : key_at w3 (drawn w3 + 4 * j) = draw w2 (S j))
      by (apply key_at_eq; [reflexivity | subst w3; cbn; lia]).
    rewrite E. exact H.
Qed.

(** C1, as the code has it.  When the first draw and the retried draws all
    collide with existing files, cacheChunks returns the last key drawn (the
    fifth retry, which the loop no longer checks) and does not throw; the
    digest of the prompt plays no part. *)
Theorem cacheChunks_all_draws_taken_returns_last_draw
  prompt chunks (w : World) :
  (forall i, i < 5 ->
     present (swept env w) (entry_path env (draw (swept env w) i)) = true) ->
  fst (cacheChunks stringifiable env prompt chunks w)
  = Return (draw (swept env w) 5).
Proof.
  intros H. apply drawKey_all_taken in H.
  destruct (cacheChunks_run _ stringifiable env prompt chunks w)
    as [key [wk [ws [Ed [_ [_ Ec]]]]]].
  rewrite Ec. rewrite Ed in H. cbn [fst] in *. now injection H as ->.
Qed.

(** C2.  When neither the serialisation nor the write failed, then in any
    later world where the entry's file is still the one cacheChunks left
    (it was not evicted, by the call's own enforceFileLimits or since) and
    the clock is no more than CACHE_TTL past the write, getChunks on the
    returned key returns the chunks that were cached, in order. *)
Theorem getChunks_after_cacheChunks prompt chunks (w w2 : World) key :
  fst (cacheChunks stringifiable env prompt chunks w) = Return key ->
  forallb stringifiable chunks = true ->
  write_fails w (entry_path env key) = false ->
  assoc (entry_path env key) (files w2)
  = assoc (entry_path env key)
      (files (snd (cacheChunks stringifiable env prompt chunks w))) ->
  is_some (assoc (entry_path env key) (files w2)) = true ->
  (clock w2 - clock w <= CACHE_TTL)%Z ->
  fst (getChunks env key w2) = Return (Some chunks).
Proof.
  destruct (cacheChunks_run _ stringifiable env prompt chunks w)
    as [key0 [wk [ws [Ed [Hk [Es Ec]]]]]].
  rewrite Ec. cbn [fst snd]. intros [= <-] Hs Hw Hsame Hkept Ht.
  pose proof (steady_drawKey _ env w) as Hst. rewrite Ed in Hst.
  destruct Hst as [Hclock [_ [Hwf _]]]. cbn [snd] in Hclock, Hwf.
  rewrite <- Hwf in Hw.
  destruct (store_ok _ stringifiable env prompt chunks key0 _ wk Hs Hw)
    as [ws' [Es' [Hf _]]].
  rewrite Es in Es'. injection Es' as <-.
  pose proof (shrinks_enforceFileLimits EditChunk env ws) as Hsh.
  remember (snd (enforceFileLimits env ws)) as w' eqn:Ew'.
  destruct (assoc (entry_path env key0) (files w')) as [f|] eqn:Ef;
    [|rewrite Hsame in Hkept; discriminate Hkept].
  pose proof (Hsh _ _ Ef) as Hf'.
  rewrite Hf in Hf'. cbn [assoc] in Hf'.
  rewrite JsFacts.eqb_refl in Hf'. injection Hf' as <-.
  unfold getChunks.
  rewrite (resolveCachePath_valid env _ (lowercase_key_valid _ Hk)).
  unfold try_catch, bind, existsSync, readFileSync, JSON_parse, Date_now,
    Logger.debug, console_warn, ret.
  assert (Hle : (clock w2 - clock wk >? 600000)%Z = false).
  { rewrite Z.gtb_ltb. apply Z.ltb_ge. unfold CACHE_TTL in Ht. lia. }
  repeat (progress cbn || rewrite Hsame || rewrite Hle).
  reflexivity.
Qed.


End Guarantees.
End CacheChunksFacts.

(** ** Path confinement *)

Module ConfinementFacts.
Import Node PathSpec RunSpec ChunkCache CacheSpec CachePathFacts.

Lemma key_with_foreign_character key c :
  In c key -> class_ignoreCase c = false -> CACHE_KEY_PATTERN_test key = false.
Proof.
  intros Hin Hc. unfold CACHE_KEY_PATTERN_test.
  apply andb_false_iff. right.
  destruct (forallb class_ignoreCase key) eqn:E; [|reflexivity].
  rewrite forallb_forall in E. rewrite (E c Hin) in Hc. discriminate.
Qed.

(** C4.  A path that resolveCachePath returns is in canonical form and
    begins with the canonical cache directory followed by the separator; a
    key whose candidate path does not is answered with null, as is any key
    holding a '/', a '.', a '%' or a backslash; and resolveCachePath being a
    function of the key alone, getChunks has made no call into the file
    system when it rejects a key. *)
Theorem resolveCachePath_stays_inside_cache_dir (env : Env) (key : jstring) :
  (forall p, resolveCachePath env key = Some p ->
     Path.resolve (cwd env) [p] = p
     /\ Js.startsWith p
          (Path.resolve (cwd env) [CACHE_DIR env] ++ Path.sep) = true)
  /\ (Js.startsWith
        (Path.resolve (cwd env) [CACHE_DIR env; key ++ lit ".json"])
        (Path.resolve (cwd env) [CACHE_DIR env] ++ Path.sep) = false ->
      resolveCachePath env key = None)
  /\ ((exists c, In c key /\ In c [Path.SLASH; Path.DOT; 37%N; 92%N]) ->
      resolveCachePath env key = None)
  /\ (resolveCachePath env key = None ->
      forall (EditChunk : Type) (w : World EditChunk),
        fst (getChunks env key w) = Return None
        /\ trace (snd (getChunks env key w)) = trace w).
Proof.
  split; [|split; [|split]].
  - intros p Hp. apply resolveCachePath_Some in Hp as [Hk ->].
    split.
    + apply (resolve_child_path env (key ++ lit ".json")).
      now apply key_file_simple.
    + rewrite resolve_CACHE_DIR. unfold entry_path.
      rewrite app_assoc. apply JsFacts.startsWith_app.
  - intros H. unfold resolveCachePath.
    destruct (CACHE_KEY_PATTERN_test key); [|reflexivity].
    cbn [negb]. now rewrite H.
  - intros [c [Hin Hc]]. apply resolveCachePath_invalid.
    apply (key_with_foreign_character key c Hin).
    cbn [In] in Hc. destruct Hc as [<-|[<-|[<-|[<-|[]]]]]; reflexivity.
  - intros H EditChunk w. unfold getChunks. rewrite H. split; reflexivity.
Qed.

End ConfinementFacts.

(** ** Redaction *)

Module LoggerFacts.
Import Node ChunkCache KeyFacts.

(** A character of one literal is a character of a longer one. *)
Ltac frame_char H :=
  cbv in H |- *;
  repeat (destruct H as [<-|H];
          [repeat (first [left; reflexivity | right])|]);
  destruct H.

Lemma uint_chars_digits u : forallb class_a_f_0_9 (Js.uint_chars u) = true.
Proof. induction u; simpl; auto. Qed.

(** C10.  Unless GEMINI_MCP_LOG_PROMPTS is "1", redactString returns
    "[REDACTED len=" + the length + " sha256=" + the first twelve hex digits
    of the value's sha-256 digest + "]".  The value enters through its
    length and that digest prefix only: two values that agree on both are
    redacted to the same text, and every character of that text is one of
    the fixed frame, a decimal digit of the length or a hex digit of the
    digest, none is taken from the value. *)
Theorem redactString_shows_length_and_digest_only (env : Env) (value : jstring) :
  GEMINI_MCP_LOG_PROMPTS env <> Some (lit "1") ->
  Logger.redactString env value
  = lit "[REDACTED len=" ++ Js.of_nat (length value) ++ lit " sha256="
      ++ Js.slice0 12 (Crypto.sha256_hex value) ++ lit "]"
  /\ length (Js.slice0 12 (Crypto.sha256_hex value)) = 12
  /\ forallb class_a_f_0_9 (Js.slice0 12 (Crypto.sha256_hex value)) = true
  /\ (forall value',
        length value' = length value ->
        Js.slice0 12 (Crypto.sha256_hex value')
        = Js.slice0 12 (Crypto.sha256_hex value) ->
        Logger.redactString env value' = Logger.redactString env value)
  /\ (forall c, In c (Logger.redactString env value) ->
        In c (lit "[REDACTED len= sha256=]") \/ class_a_f_0_9 c = true).
Proof.
  intros Hflag.
  assert (Hoff : Logger.shouldLogPrompts env = false).
  { unfold Logger.shouldLogPrompts.
    destruct (GEMINI_MCP_LOG_PROMPTS env) as [v|]; [|reflexivity].
    apply JsFacts.eqb_neq. intros ->. now apply Hflag. }
  unfold Logger.redactString. rewrite Hoff.
  assert (Hhex : forallb class_a_f_0_9
                   (Js.slice0 12 (Crypto.sha256_hex value)) = true)
    by apply forallb_firstn, sha256_hex_lower.
  split; [reflexivity|]. split; [|split; [|split]].
  - unfold Js.slice0. rewrite length_firstn, sha256_hex_length. reflexivity.
  - exact Hhex.
  - intros value' Hlen Hdig. now rewrite Hlen, Hdig.
  - intros c Hc. rewrite !in_app_iff in Hc.
    destruct Hc as [Hc|[Hc|[Hc|[Hc|Hc]]]].
    + left. frame_char Hc.
    + right. pose proof (uint_chars_digits (Nat.to_uint (length value))) as Hd.
      rewrite forallb_forall in Hd. now apply Hd.
    + left. frame_char Hc.
    + right. rewrite forallb_forall in Hhex. now apply Hhex.
    + left. frame_char Hc.
Qed.

End LoggerFacts.
Example sha256_constants :
  nth 0 Crypto.K256 0%Z = 0x428a2f98%Z /\ nth 63 Crypto.K256 0%Z = 0xc67178f2%Z
  /\ nth 0 Crypto.H256 0%Z = 0x6a09e667%Z /\ nth 7 Crypto.H256 0%Z = 0x5be0cd19%Z
  /\ length Crypto.K256 = 64.
Proof. repeat split. Qed.

Example sha256_two_blocks :
  Crypto.sha256_hex
    (lit "abcdbcdecdefdefgefghfghighijhijkijkljklmklmnlmnomnopnopq") =
  lit "248d6a61d20638b8e5c026930c3e6039a33ce45964ff2167f6ecedd419db06c1".
Proof. vm_compute. reflexivity. Qed.

(** "h\u00e9llo \u20ac" and U+1F600 as a surrogate pair; a lone surrogate. *)
Example utf8_beyond_ascii :
  Js.utf8 [104; 233; 108; 108; 111; 32; 8364; 32; 55357; 56832]%N
  = [104; 195; 169; 108; 108; 111; 32; 226; 130; 172; 32;
     240; 159; 152; 128]%Z
  /\ Js.utf8 [55357; 97]%N = [239; 191; 189; 97]%Z
  /\ Crypto.sha256_hex [104; 233; 108; 108; 111; 32; 8364; 32; 55357; 56832]%N
     = lit "83643b4928cf4914ee6352fed94ef1d9cacb5a843c45544627c6593db3548d74".
Proof. repeat split; vm_compute; reflexivity. Qed.

Example sha256_empty :
  Crypto.sha256_hex (lit "") =
  lit "e3b0c44298fc1c149afbf4c8996fb92427ae41e4649b934ca495991b7852b855".
Proof. vm_compute. reflexivity. Qed.

Example sha256_abc :
  Crypto.sha256_hex (lit "abc") =
  lit "ba7816bf8f01cfea414140de5dae2223b00361a396177a9cb410ff61f20015ad".
Proof. vm_compute. reflexivity. Qed.

Example path_resolve_relative :
  Path.resolve (lit "/home/u") [lit "/foo/bar"; lit "./baz"] = lit "/foo/bar/baz".
Proof. reflexivity. Qed.

Example path_resolve_absolute_wins :
  Path.resolve (lit "/home/u") [lit "/foo/bar"; lit "/tmp/file/"] = lit "/tmp/file".
Proof. reflexivity. Qed.

Example path_resolve_cwd :
  Path.resolve (lit "/home/myself/node")
    [lit "wwwroot"; lit "static_files/png/"; lit "../gif/image.gif"]
  = lit "/home/myself/node/wwwroot/static_files/gif/image.gif".
Proof. reflexivity. Qed.

Example path_join_dotdot :
  Path.join [lit "/foo"; lit "bar"; lit "baz/asdf"; lit "quux"; lit ".."]
  = lit "/foo/bar/baz/asdf".
Proof. reflexivity. Qed.

Example path_normalize_doubled :
  Path.normalize (lit "/foo/bar//baz/asdf/quux/..") = lit "/foo/bar/baz/asdf".
Proof. reflexivity. Qed.

Example path_normalize_above_root :
  Path.normalize (lit "../../a/../b/") = lit "../../b/"
  /\ Path.normalize (lit "/../a") = lit "/a".
Proof. split; reflexivity. Qed.

(** ** The statements on concrete worlds *)

Module Checks.
Import Node PathSpec RunSpec ChunkCache CacheSpec Samples.
Import ReadFacts CacheDirFacts CacheChunksFacts ConfinementFacts LoggerFacts.

Example sample_paths :
  CACHE_DIR env = dir
  /\ entry_path env (lit "abcdef12") = key_path "abcdef12"
  /\ map (draw world_six_taken) (seq 0 6)
     = [lit "03142536"; lit "4758697a"; lit "8b9cadbe";
        lit "cfe0f102"; lit "13243546"; lit "5768798a"].
Proof. repeat split; vm_compute; reflexivity. Qed.

(** The scenario of the specification: store, read back, miss, expire. *)
Example scenario_fix_bug :
  let run := cacheChunks stringifiable env (lit "fix bug") [1; 2]
               (world_at 1000 []) in
  fst run = Return (lit "03142536")
  /\ fst (getChunks env (lit "03142536") (snd run)) = Return (Some [1; 2])
  /\ fst (getChunks env (lit "00000000") (snd run)) = Return None
  /\ fst (getChunks env (lit "03142536") (set_clock 601001 (snd run)))
     = Return None
  /\ files (snd (getChunks env (lit "03142536")
                   (set_clock 601001 (snd run)))) = [].
Proof. repeat split; vm_compute; reflexivity. Qed.

(** A fifty-first entry evicts the oldest of the fifty. *)
Example eviction_drops_oldest :
  let w' := snd (cacheChunks stringifiable env (lit "p") [51] world_fifty) in
  length (entries env world_fifty) = 50
  /\ length (entries env w') = 50
  /\ In (lit "03142536.json") (entries env w')
  /\ ~ In (numbered 0 ++ lit ".json") (entries env w')
  /\ In (numbered 1 ++ lit ".json") (entries env w').
Proof.
  vm_compute. repeat split; try reflexivity.
  - now left.
  - intros H. repeat (destruct H as [H|H]; [discriminate H|]). exact H.
  - do 50 (try (left; reflexivity); right).
Qed.

Example clear_fifty_then_stats :
  length (entries env world_fifty) = 50
  /\ fst (getCacheStats env (snd (clearCache env world_fifty)))
     = Return {| size := 0; ttl := 600000; maxSize := 50; cacheDir := dir |}.
Proof. split; vm_compute; reflexivity. Qed.

(** C1 fails as the specification states it: with all six draws taken the
    key returned is the sixth draw, not the prefix of the prompt's digest. *)
Lemma six_collisions_return_sixth_draw_not_digest :
  forallb (fun i =>
      present (swept env world_six_taken)
        (entry_path env (draw (swept env world_six_taken) i)))
    (seq 0 6) = true
  /\ fst (cacheChunks stringifiable env (lit "fix bug") [1; 2]
            world_six_taken)
     = Return (lit "5768798a")
  /\ Js.slice0 8 (Crypto.sha256_hex (lit "fix bug")) = lit "52f2d711"
  /\ fst (cacheChunks stringifiable env (lit "fix bug") [1; 2]
            world_six_taken)
     <> Return (Js.slice0 8 (Crypto.sha256_hex (lit "fix bug"))).
Proof.
  repeat split; try (vm_compute; reflexivity).
  vm_compute. intros H. discriminate H.
Qed.

Lemma cacheChunks_all_draws_taken_witness :
  (forall i, i < 5 ->
     present (swept env world_six_taken)
       (entry_path env (draw (swept env world_six_taken) i)) = true)
  /\ fst (cacheChunks stringifiable env (lit "fix bug") [1; 2]
            world_six_taken)
     = Return (draw (swept env world_six_taken) 5).
Proof.
  assert (H : forall i, i < 5 ->
     present (swept env world_six_taken)
       (entry_path env (draw (swept env world_six_taken) i)) = true).
  { intros i Hi.
    do 5 (destruct i as [|i]; [vm_compute; reflexivity|]). lia. }
  split; [exact H|].
  exact (cacheChunks_all_draws_taken_returns_last_draw
           chunk stringifiable env (lit "fix bug") [1; 2] world_six_taken H).
Defined.

Lemma getChunks_after_cacheChunks_witness :
  fst (getChunks env (lit "03142536")
         (set_clock 601000
            (snd (cacheChunks stringifiable env (lit "fix bug") [1; 2]
                    (world_at 1000 [])))))
  = Return (Some [1; 2]).
Proof.
  apply (getChunks_after_cacheChunks chunk stringifiable env (lit "fix bug")
           [1; 2] (world_at 1000 []));
    vm_compute; first [reflexivity | discriminate].
Defined.

(** C3 fails as the specification states it: an upper-case key is not in
    [^[a-f0-9]{8}$], yet getChunks looks it up on disk and serves it. *)
Lemma uppercase_key_reaches_the_file_system :
  lowercase_KEY_PATTERN_test (lit "ABCDEF12") = false
  /\ fst (getChunks env (lit "ABCDEF12") world_uppercase)
     = Return (Some [7; 8])
  /\ trace (snd (getChunks env (lit "ABCDEF12") world_uppercase))
     = [Call_exists (key_path "ABCDEF12"); Call_read (key_path "ABCDEF12")].
Proof. repeat split; vm_compute; reflexivity. Qed.

Lemma getChunks_rejects_malformed_key_witness :
  CACHE_KEY_PATTERN_test (lit "../../etc/passwd") = false
  /\ fst (getChunks env (lit "../../etc/passwd") world_uppercase)
     = Return None
  /\ trace (snd (getChunks env (lit "../../etc/passwd") world_uppercase))
     = trace world_uppercase.
Proof.
  split; [reflexivity|].
  destruct (getChunks_rejects_malformed_key chunk env
              (lit "../../etc/passwd") world_uppercase eq_refl)
    as [E [Ht _]].
  split; [now rewrite E | exact Ht].
Defined.

Lemma resolveCachePath_stays_inside_witness :
  (resolveCachePath env (lit "abcdef12") = Some (key_path "abcdef12")
   /\ Path.resolve (cwd env) [key_path "abcdef12"] = key_path "abcdef12"
   /\ Js.startsWith (key_path "abcdef12")
        (Path.resolve (cwd env) [CACHE_DIR env] ++ Path.sep) = true)
  /\ (Js.startsWith
        (Path.resolve (cwd env) [CACHE_DIR env; lit "../../ab" ++ lit ".json"])
        (Path.resolve (cwd env) [CACHE_DIR env] ++ Path.sep) = false
      /\ resolveCachePath env (lit "../../ab") = None).
Proof.
  split.
  - split; [reflexivity|].
    exact (proj1 (resolveCachePath_stays_inside_cache_dir env (lit "abcdef12"))
             (key_path "abcdef12") eq_refl).
  - split; [reflexivity|].
    exact (proj1 (proj2 (resolveCachePath_stays_inside_cache_dir env
                           (lit "../../ab"))) eq_refl).
Defined.



Example full_disk_still_returns_key :
  fst (cacheChunks stringifiable env (lit "fix bug") [1; 2]
         (world_full_disk 1000 []))
  = Return (lit "03142536")
  /\ files (snd (cacheChunks stringifiable env (lit "fix bug") [1; 2]
                   (world_full_disk 1000 []))) = []
  /\ map fst (console (snd (cacheChunks stringifiable env (lit "fix bug")
                              [1; 2] (world_full_disk 1000 []))))
     = [Stderr_error].
Proof. repeat split; vm_compute; reflexivity. Qed.

Lemma redactString_witness :
  Logger.redactString env (lit "fix bug")
  = lit "[REDACTED len=7 sha256=52f2d71111e2]".
Proof.
  destruct (redactString_shows_length_and_digest_only env (lit "fix bug"))
    as [E _]; [discriminate|].
  rewrite E. vm_compute. reflexivity.
Defined.

End Checks.

(** ** More on getChunks and resolveCachePath *)

Module GetChunksFacts.
Import Node PathSpec RunSpec FsFacts ChunkCache CacheSpec CachePathFacts.

(** Every branch of getChunks on a valid key, taken apart. *)
Ltac getChunks_cases env key w :=
  unfold getChunks;
  rewrite (resolveCachePath_valid env key) by assumption;
  unfold try_catch, bind, existsSync, readFileSync, JSON_parse, Date_now,
    unlinkSync, Logger.debug, console_warn, ret, throw;
  cbn;
  destruct (assoc (entry_path env key) (files w)) as [f0|] eqn:Ef0; cbn;
  [ destruct (content f0) as [e0|raw0] eqn:Ec0; cbn;
    [ destruct (clock w - timestamp e0 >? 600000)%Z eqn:Eage; cbn | ]
  | destruct (is_some (assoc (entry_path env key) (dirs w))) eqn:Ed0; cbn ];
  repeat first
    [ match goal with H : assoc _ _ = _ |- _ => rewrite H end
    | match goal with H : is_some _ = _ |- _ => rewrite H end
    | match goal with H : content _ = _ |- _ => rewrite H end
    | match goal with H : (_ >? _)%Z = _ |- _ => rewrite H end
    | progress cbn ].

Section GetChunks.

Variable EditChunk : Type.
Variable env : Env.
Local Abbreviation World := (Node.World EditChunk).

(** X1.  resolveCachePath answers exactly the keys of eight hexadecimal
    digits, and its answer is the cache directory, a separator, the key and
    ".json": for such a key the prefix test never fails. *)
Theorem resolveCachePath_exact (key : jstring) :
  resolveCachePath env key
  = if CACHE_KEY_PATTERN_test key
    then Some (CACHE_DIR env ++ Path.sep ++ key ++ lit ".json")
    else None.
Proof.
  destruct (CACHE_KEY_PATTERN_test key) eqn:E.
  - now apply resolveCachePath_valid.
  - now apply resolveCachePath_invalid.
Qed.

(** X2.  A miss: for a valid key with no file at its path getChunks
    returns null and leaves files and directories as they are. *)
Theorem getChunks_miss (key : jstring) (w : World) :
  CACHE_KEY_PATTERN_test key = true ->
  assoc (entry_path env key) (files w) = None ->
  fst (getChunks env key w) = Return None
  /\ files (snd (getChunks env key w)) = files w
  /\ dirs (snd (getChunks env key w)) = dirs w.
Proof.
  intros Hk Hnone. getChunks_cases env key w; try discriminate Hnone;
    repeat split.
Qed.

(** Reading an entry that is not too old: the run of getChunks. *)
Lemma getChunks_fresh_run (key : jstring) (w : World)
  (f : file EditChunk) (e : CacheEntry EditChunk) :
  CACHE_KEY_PATTERN_test key = true ->
  assoc (entry_path env key) (files w) = Some f ->
  content f = Serialized e ->
  (clock w - timestamp e <= CACHE_TTL)%Z ->
  fst (getChunks env key w) = Return (Some (chunks e))
  /\ files (snd (getChunks env key w)) = files w
  /\ dirs (snd (getChunks env key w)) = dirs w
  /\ clock (snd (getChunks env key w)) = clock w.
Proof.
  intros Hk Hf Hc Hage.
  assert (Hle : (clock w - timestamp e >? 600000)%Z = false).
  { rewrite Z.gtb_ltb. apply Z.ltb_ge. unfold CACHE_TTL in Hage. lia. }
  unfold getChunks. rewrite (resolveCachePath_valid env key Hk).
  unfold try_catch, bind, existsSync, readFileSync, JSON_parse, Date_now,
    Logger.debug, console_warn, ret.
  repeat (progress cbn || rewrite Hf || rewrite Hc || rewrite Hle).
  repeat split.
Qed.

(** X3.  A hit: an entry no older than CACHE_TTL (an age of exactly
    CACHE_TTL included) is returned, and reading it changes neither files
    nor directories, so it can be read again. *)
Theorem getChunks_hit (key : jstring) (w : World)
  (f : file EditChunk) (e : CacheEntry EditChunk) :
  CACHE_KEY_PATTERN_test key = true ->
  assoc (entry_path env key) (files w) = Some f ->
  content f = Serialized e ->
  (clock w - timestamp e <= CACHE_TTL)%Z ->
  fst (getChunks env key w) = Return (Some (chunks e))
  /\ files (snd (getChunks env key w)) = files w
  /\ dirs (snd (getChunks env key w)) = dirs w
  /\ fst (getChunks env key (snd (getChunks env key w)))
     = Return (Some (chunks e)).
Proof.
  intros Hk Hf Hc Hage.
  destruct (getChunks_fresh_run key w f e Hk Hf Hc Hage) as [H1 [H2 [H3 H4]]].
  repeat split; auto.
  apply (getChunks_fresh_run key _ f e Hk); auto.
  - now rewrite H2.
  - now rewrite H4.
Qed.

(** X5.  Whatever the key, getChunks leaves every directory and every file
    other than the key's own entry as it was. *)
Theorem getChunks_touches_only_its_entry (key : jstring) (w : World) :
  dirs (snd (getChunks env key w)) = dirs w
  /\ forall q, q <> entry_path env key ->
       assoc q (files (snd (getChunks env key w))) = assoc q (files w).
Proof.
  destruct (CACHE_KEY_PATTERN_test key) eqn:Hk.
  - getChunks_cases env key w; (split; [reflexivity|]); intros q Hq;
      try reflexivity; apply assoc_without_other; congruence.
  - unfold getChunks. rewrite (resolveCachePath_invalid env key Hk).
    split; reflexivity.
Qed.

End GetChunks.
End GetChunksFacts.

(** ** The sweep: cleanExpiredFiles *)

Module SweepFacts.
Import Node PathSpec RunSpec RunFacts FrameFacts OpFrames FsFacts DirFacts.
Import ChunkCache CacheSpec CachePathFacts CacheDirFacts EnforceFacts.
Import WriteFacts SweepSpec.

Section Sweep.

Variable EditChunk : Type.
Variable env : Env.
Local Abbreviation M := (Node.M EditChunk).
Local Abbreviation World := (Node.World EditChunk).




End Sweep.
End SweepFacts.

(** ** What the cache never touches *)

Module ConfineFacts.
Import Node PathSpec RunSpec RunFacts FrameFacts OpFrames FsFacts DirFacts.
Import ChunkCache CacheSpec CachePathFacts KeyFacts SortFacts ConfineSpec.
Import DrawSpec.

Section PostRules.

Variable EditChunk : Type.
Local Abbreviation M := (Node.M EditChunk).
Local Abbreviation World := (Node.World EditChunk).
Variable R : World -> World -> Prop.
Hypothesis R_refl : forall w, R w w.
Hypothesis R_trans : forall a b c, R a b -> R b c -> R a c.

(** Sequencing, knowing something of the value handed on. *)
Lemma keeps_bind_post {A B} (Q : A -> Prop) (c : M A) (k : A -> M B) :
  keeps R c ->
  (forall w a w', c w = (Return a, w') -> Q a) ->
  (forall a, Q a -> keeps R (k a)) ->
  keeps R (bind c k).
Proof.
  intros Hc HQ Hk w. unfold bind. specialize (Hc w).
  destruct (c w) as [[a|e] w'] eqn:E; [|exact Hc].
  eapply R_trans; [exact Hc|]. apply Hk. eapply HQ, E.
Qed.

Lemma keeps_for_of_In {A S} (xs : list A) (body : A -> S -> M S) s :
  (forall x, In x xs -> forall s, keeps R (body x s)) ->
  keeps R (for_of xs body s).
Proof.
  revert s. induction xs as [|x xs IH]; intros s Hb; cbn [for_of].
  - now apply keeps_ret.
  - apply keeps_bind; [exact R_trans | apply Hb; now left |].
    intros s'. apply IH. intros y Hy. apply Hb. now right.
Qed.

Lemma keeps_map_of_In {A B} (f : A -> M B) (xs : list A) :
  (forall x, In x xs -> keeps R (f x)) -> keeps R (map_of f xs).
Proof.
  induction xs as [|x xs IH]; intros Hf; cbn [map_of].
  - now apply keeps_ret.
  - apply keeps_bind; [exact R_trans | apply Hf; now left |]. intros y.
    apply keeps_bind; [exact R_trans | apply IH; intros z Hz; apply Hf; now right |].
    intros ys. now apply keeps_ret.
Qed.

Lemma map_of_post {A B} (Q : B -> Prop) (f : A -> M B) (xs : list A) :
  (forall x w y w', In x xs -> f x w = (Return y, w') -> Q y) ->
  forall w ys w', map_of f xs w = (Return ys, w') -> Forall Q ys.
Proof.
  induction xs as [|x xs IH]; intros Hf w ys w'; cbn [map_of].
  - unfold ret. intros [= <- _]. constructor.
  - unfold bind.
    destruct (f x w) as [[y|e] w1] eqn:E1; [|discriminate].
    destruct (map_of f xs w1) as [[ys1|e] w2] eqn:E2; [|discriminate].
    unfold ret. intros [= <- _]. constructor.
    + eapply Hf; [now left | exact E1].
    + eapply IH; [|exact E2]. intros z u v u' Hz. apply Hf. now right.
Qed.

End PostRules.

Section Confined.

Variable EditChunk : Type.
Variable stringifiable : EditChunk -> bool.
Variable env : Env.
Local Abbreviation M := (Node.M EditChunk).
Local Abbreviation World := (Node.World EditChunk).

Lemma confined_refl (w : World) : confined env w w.
Proof. exists []. now rewrite app_nil_r. Qed.

Lemma confined_trans (a b c : World) :
  confined env a b -> confined env b c -> confined env a c.
Proof.
  intros [l [Hl Hlok]] [m [Hm Hmok]].
  exists (l ++ m). split; [now rewrite Hm, Hl, app_assoc|].
  rewrite forallb_app, Hlok, Hmok. reflexivity.
Qed.

Lemma call_ok_dir c : call_path c = CACHE_DIR env -> call_ok env c = true.
Proof. unfold call_ok. intros ->. now rewrite JsFacts.eqb_refl. Qed.

Lemma entry_pathb_child n :
  noslash n = true -> is_json n = true ->
  entry_pathb env (child_path env n) = true.
Proof.
  intros Hn Hj. unfold entry_pathb.
  assert (E : child_name (CACHE_DIR env) (child_path env n) = Some n).
  { apply child_name_Some. repeat split; auto.
    intros ->. discriminate Hj. }
  now rewrite E.
Qed.

Lemma entry_pathb_key key :
  CACHE_KEY_PATTERN_test key = true ->
  entry_pathb env (entry_path env key) = true.
Proof.
  intros Hk. apply (entry_pathb_child (key ++ lit ".json")).
  - unfold noslash. rewrite forallb_app.
    apply andb_true_iff. split; [now apply key_noslash | reflexivity].
  - apply JsFacts.endsWith_app.
Qed.

(** One call, on a path the cache may use. *)
Ltac one_call :=
  cbn; eexists; split; [reflexivity|]; cbn;
  first [ reflexivity | rewrite andb_true_r; assumption ].

Ltac fs_leaf :=
  cbv zeta;
  repeat match goal with
         | |- context [if ?b then _ else _] => destruct b
         | |- context [match ?b with _ => _ end] => destruct b
         end; one_call.

Lemma confined_existsSync p :
  call_ok env (Call_exists p) = true -> keeps (confined env) (existsSync p : M _).
Proof. intros H w. unfold existsSync. one_call. Qed.

Lemma confined_chmodSync p :
  call_ok env (Call_chmod p) = true -> keeps (confined env) (chmodSync p : M _).
Proof. intros H w. unfold chmodSync. fs_leaf. Qed.

Lemma confined_readdirSync p :
  call_ok env (Call_readdir p) = true ->
  keeps (confined env) (readdirSync p : M _).
Proof. intros H w. unfold readdirSync. fs_leaf. Qed.

Lemma confined_statSync p :
  call_ok env (Call_stat p) = true ->
  keeps (confined env) (statSync_mtimeMs p : M _).
Proof. intros H w. unfold statSync_mtimeMs. fs_leaf. Qed.

Lemma confined_readFileSync p :
  call_ok env (Call_read p) = true ->
  keeps (confined env) (readFileSync p : M _).
Proof. intros H w. unfold readFileSync. fs_leaf. Qed.

Lemma confined_mkdirSync p :
  call_ok env (Call_mkdir p) = true -> keeps (confined env) (mkdirSync p : M _).
Proof. intros H w. unfold mkdirSync. fs_leaf. Qed.

Lemma confined_unlinkSync p :
  call_ok env (Call_unlink p) = true ->
  keeps (confined env) (unlinkSync p : M _).
Proof. intros H w. unfold unlinkSync. fs_leaf. Qed.

Lemma confined_writeFileSync p t :
  call_ok env (Call_write p) = true ->
  keeps (confined env) (writeFileSync p t : M _).
Proof. intros H w. unfold writeFileSync. fs_leaf. Qed.

(** Calls that do not reach the file system. *)
Ltac no_fs := intros w; exists []; cbn; now rewrite app_nil_r.

Lemma confined_Date_now : keeps (confined env) (Date_now : M Z).
Proof. no_fs. Qed.

Lemma confined_randomBytes n : keeps (confined env) (randomBytes n : M _).
Proof. no_fs. Qed.

Lemma confined_debug m : keeps (confined env) (Logger.debug env m : M unit).
Proof. no_fs. Qed.

Lemma confined_error m : keeps (confined env) (Logger.error env m : M unit).
Proof. no_fs. Qed.

Lemma confined_stringify e :
  keeps (confined env) (JSON_stringify stringifiable e).
Proof.
  unfold JSON_stringify. destruct (forallb _ _).
  - apply keeps_ret, confined_refl.
  - apply keeps_throw, confined_refl.
Qed.

Lemma confined_parse t : keeps (confined env) (JSON_parse t : M _).
Proof.
  destruct t; [apply keeps_ret | apply keeps_throw]; apply confined_refl.
Qed.

Lemma entry_pathb_join f :
  noslash f = true -> is_json f = true ->
  entry_pathb env (Path.join [CACHE_DIR env; f]) = true.
Proof.
  intros Hn Hj. rewrite (join_child env f (json_name_simple f Hn Hj)).
  now apply entry_pathb_child.
Qed.

Lemma call_ok_entry c : entry_pathb env (call_path c) = true -> call_ok env c = true.
Proof. unfold call_ok. intros ->. apply orb_true_r. Qed.

(** What readdirSync lists are names, without a slash in them. *)
Lemma readdirSync_names d (w : World) names w' :
  readdirSync d w = (Return names, w') ->
  forall n, In n names -> noslash n = true.
Proof.
  unfold readdirSync. cbv zeta. cbn [dirs files traced].
  destruct (is_some (assoc d (dirs w))).
  - intros [= <- _] n Hn. now apply In_listing in Hn as [_ [_ Hn]].
  - destruct (is_some (assoc d (files w))); discriminate.
Qed.

Local Hint Resolve confined_refl confined_trans : core.

Lemma confined_ensureCacheDir : keeps (confined env) (ensureCacheDir env : M _).
Proof.
  unfold ensureCacheDir.
  apply keeps_bind; [exact confined_trans | |].
  { apply confined_existsSync. now apply call_ok_dir. }
  intros present. apply keeps_bind; [exact confined_trans | |].
  { destruct (negb present); [apply confined_mkdirSync; now apply call_ok_dir | now apply keeps_ret]. }
  intros _. apply keeps_try; [exact confined_trans | |].
  { apply confined_chmodSync. now apply call_ok_dir. }
  intros _. now apply keeps_ret.
Qed.

Lemma confined_cleanExpiredFiles :
  keeps (confined env) (cleanExpiredFiles env : M _).
Proof.
  unfold cleanExpiredFiles.
  apply keeps_try; [exact confined_trans | | intros e; apply confined_debug].
  apply keeps_bind; [exact confined_trans | apply confined_ensureCacheDir |].
  intros _.
  apply (keeps_bind_post _ (confined env) confined_trans names_ok).
  { apply confined_readdirSync. now apply call_ok_dir. }
  { intros w a w' E. exact (readdirSync_names _ _ _ _ E). }
  intros names Hnames.
  apply keeps_bind; [exact confined_trans | apply confined_Date_now |].
  intros now. apply keeps_bind; [exact confined_trans | |].
  - apply keeps_for_of_In; [exact confined_refl | exact confined_trans |].
    intros f Hf cleaned. destruct (is_json f) eqn:Hj; cbn [negb].
    2:{ now apply keeps_ret. }
    pose proof (entry_pathb_join f (Hnames f Hf) Hj) as He.
    apply keeps_try; [exact confined_trans | |].
    + apply keeps_bind; [exact confined_trans | |].
      { apply confined_statSync. now apply call_ok_entry. }
      intros m. destruct (_ >? _)%Z; [|now apply keeps_ret].
      apply keeps_bind; [exact confined_trans | apply confined_unlinkSync; now apply call_ok_entry |].
      intros _. now apply keeps_ret.
    + intros e. apply keeps_bind; [exact confined_trans | apply confined_debug |].
      intros _. now apply keeps_ret.
  - intros cleaned. destruct (Nat.ltb 0 cleaned);
      [apply confined_debug | now apply keeps_ret].
Qed.

Lemma confined_enforceFileLimits :
  keeps (confined env) (enforceFileLimits env : M _).
Proof.
  unfold enforceFileLimits.
  apply keeps_try; [exact confined_trans | | intros e; apply confined_debug].
  apply (keeps_bind_post _ (confined env) confined_trans names_ok).
  { apply confined_readdirSync. now apply call_ok_dir. }
  { intros w a w' E. exact (readdirSync_names _ _ _ _ E). }
  intros names Hnames.
  apply (keeps_bind_post _ (confined env) confined_trans
           (Forall (fun x => entry_pathb env (path x) = true))).
  - apply keeps_map_of_In; [exact confined_refl | exact confined_trans |].
    intros f Hf. apply filter_In in Hf as [Hf Hj].
    apply keeps_bind; [exact confined_trans | |].
    + apply confined_statSync, call_ok_entry. cbn.
      now apply entry_pathb_join; [apply Hnames|].
    + intros m. now apply keeps_ret.
  - intros w a w'. apply map_of_post.
    intros f w1 y w2 Hf. apply filter_In in Hf as [Hf Hj].
    unfold bind, ret.
    destruct (statSync_mtimeMs _ w1) as [[m|e] w3]; [|discriminate].
    intros [= <- _]. cbn. now apply entry_pathb_join; [apply Hnames|].
  - intros stated Hst. cbv zeta.
    destruct (Nat.ltb _ _); [|now apply keeps_ret].
    apply keeps_bind; [exact confined_trans | | intros _; apply confined_debug].
    apply keeps_for_of_In; [exact confined_refl | exact confined_trans |].
    intros x Hx _.
    apply keeps_try; [exact confined_trans | | intros; now apply keeps_ret].
    apply confined_unlinkSync, call_ok_entry. cbn [call_path].
    rewrite Forall_forall in Hst. apply Hst.
    apply (Permutation_in _ (sort_perm stated)).
    rewrite <- (firstn_skipn (length (sort stated) - MAX_CACHE_FILES)).
    apply in_or_app. now left.
Qed.

Lemma confined_redraw i k p :
  (forall q, p = Some q -> entry_pathb env q = true) ->
  keeps (confined env) (redraw env i k p : M _).
Proof.
  revert k p. induction i as [|i IH]; intros k p Hp; cbn [redraw].
  - now apply keeps_ret.
  - destruct p as [q|]; [|now apply keeps_ret].
    apply keeps_bind; [exact confined_trans | |].
    { apply confined_existsSync, call_ok_entry. cbn. now apply Hp. }
    intros taken. destruct taken; [|now apply keeps_ret].
    apply keeps_bind; [exact confined_trans | apply confined_randomBytes |].
    intros bytes. cbv zeta. apply IH.
    intros q' Hq'. apply resolveCachePath_Some in Hq' as [Hk ->].
    now apply entry_pathb_key.
Qed.

(** The path the loop hands on is the one its key resolves to. *)
Lemma redraw_path i k (w : World) k' p' w' :
  redraw env i k (resolveCachePath env k) w = (Return (k', p'), w') ->
  p' = resolveCachePath env k'.
Proof.
  revert k w. induction i as [|i IH]; intros k w; cbn [redraw].
  - unfold ret. now intros [= <- <- _].
  - destruct (resolveCachePath env k) as [q|] eqn:Eq.
    2:{ unfold ret. intros [= <- <- _]. now rewrite Eq. }
    unfold bind at 1. unfold existsSync at 1.
    destruct (_ || _).
    + unfold bind at 1. unfold randomBytes at 1. cbv zeta. apply IH.
    + unfold ret. intros [= <- <- _]. now rewrite Eq.
Qed.

Lemma resolved_entry k q :
  resolveCachePath env k = Some q -> entry_pathb env q = true.
Proof.
  intros H. apply resolveCachePath_Some in H as [Hk ->].
  now apply entry_pathb_key.
Qed.

Lemma confined_cacheChunks prompt chunks :
  keeps (confined env) (cacheChunks stringifiable env prompt chunks).
Proof.
  unfold cacheChunks.
  apply keeps_bind; [exact confined_trans | apply confined_ensureCacheDir |].
  intros _.
  apply keeps_bind; [exact confined_trans | apply confined_cleanExpiredFiles |].
  intros _. cbv zeta.
  apply keeps_bind; [exact confined_trans | apply confined_randomBytes |].
  intros bytes.
  apply (keeps_bind_post _ (confined env) confined_trans
           (fun d => snd d = resolveCachePath env (fst d))).
  { apply confined_redraw. intros q. apply resolved_entry. }
  { intros w [k' p'] w' E. cbn [fst snd]. exact (redraw_path _ _ _ _ _ _ E). }
  intros [k' p'] E. cbn [fst snd] in E.
  assert (Hfp : exists k2 p2,
             match p' with
             | None => (Js.slice0 8 (Crypto.sha256_hex prompt),
                        resolveCachePath env
                          (Js.slice0 8 (Crypto.sha256_hex prompt)))
             | Some _ => (k', p')
             end = (k2, p2)
             /\ forall q, p2 = Some q -> entry_pathb env q = true).
  { destruct p' as [q'|].
    - exists k', (Some q'). split; [reflexivity|].
      intros q [= <-]. now apply (resolved_entry k').
    - eexists _, _. split; [reflexivity|].
      intros q. apply resolved_entry. }
  destruct Hfp as [k2 [p2 [-> Hfp]]].
  destruct p2 as [fp|].
  2:{ apply keeps_bind; [exact confined_trans | apply confined_error |].
      intros _. now apply keeps_ret. }
  specialize (Hfp fp eq_refl).
  apply keeps_bind; [exact confined_trans | apply confined_Date_now |].
  intros now.
  apply keeps_bind; [exact confined_trans | |].
  { apply keeps_try; [exact confined_trans | | intros e; apply confined_error].
    apply keeps_bind; [exact confined_trans | apply confined_stringify |].
    intros text.
    apply keeps_bind; [exact confined_trans | apply confined_writeFileSync; now apply call_ok_entry |].
    intros _. apply confined_debug. }
  intros _.
  apply keeps_bind; [exact confined_trans | apply confined_enforceFileLimits |].
  intros _. now apply keeps_ret.
Qed.

Lemma confined_getChunks key : keeps (confined env) (getChunks env key : M _).
Proof.
  unfold getChunks.
  destruct (resolveCachePath env key) as [fp|] eqn:E.
  2:{ apply keeps_bind; [exact confined_trans | apply confined_debug |].
      intros _. now apply keeps_ret. }
  apply resolved_entry in E.
  assert (Hc : forall c, call_path c = fp -> call_ok env c = true)
    by (intros c <-; now apply call_ok_entry).
  apply keeps_try; [exact confined_trans | |].
  - apply keeps_bind; [exact confined_trans | now apply confined_existsSync, Hc |].
    intros present. destruct (negb present); [now apply keeps_ret|].
    apply keeps_bind; [exact confined_trans | now apply confined_readFileSync, Hc |].
    intros text.
    apply keeps_bind; [exact confined_trans | apply confined_parse |].
    intros data.
    apply keeps_bind; [exact confined_trans | apply confined_Date_now |].
    intros now. destruct (_ >? _)%Z.
    + apply keeps_bind; [exact confined_trans | apply confined_unlinkSync; now apply call_ok_entry |].
      intros _.
      apply keeps_bind; [exact confined_trans | apply confined_debug |].
      intros _. now apply keeps_ret.
    + apply keeps_bind; [exact confined_trans | apply confined_debug |].
      intros _. now apply keeps_ret.
  - intros e.
    apply keeps_bind; [exact confined_trans | apply confined_debug |].
    intros _. apply keeps_bind; [exact confined_trans | |].
    + apply keeps_try; [exact confined_trans | apply confined_unlinkSync; now apply call_ok_entry |].
      intros _. now apply keeps_ret.
    + intros _. now apply keeps_ret.
Qed.

Lemma confined_getCacheStats : keeps (confined env) (getCacheStats env : M _).
Proof.
  unfold getCacheStats.
  apply keeps_bind; [exact confined_trans | apply confined_ensureCacheDir |].
  intros _. apply keeps_bind; [exact confined_trans | |].
  - apply keeps_try; [exact confined_trans | | intros; now apply keeps_ret].
    apply keeps_bind; [exact confined_trans | |].
    + apply confined_readdirSync. now apply call_ok_dir.
    + intros names. now apply keeps_ret.
  - intros n. now apply keeps_ret.
Qed.

Lemma confined_clearCache : keeps (confined env) (clearCache env : M _).
Proof.
  unfold clearCache.
  apply keeps_try; [exact confined_trans | | intros e; apply confined_error].
  apply keeps_bind; [exact confined_trans | apply confined_ensureCacheDir |].
  intros _.
  apply (keeps_bind_post _ (confined env) confined_trans names_ok).
  { apply confined_readdirSync. now apply call_ok_dir. }
  { intros w a w' E. exact (readdirSync_names _ _ _ _ E). }
  intros names Hnames.
  apply keeps_bind; [exact confined_trans | | intros _; apply confined_debug].
  apply keeps_for_of_In; [exact confined_refl | exact confined_trans |].
  intros f Hf _. destruct (is_json f) eqn:Hj; [|now apply keeps_ret].
  apply confined_unlinkSync, call_ok_entry. cbn [call_path].
  now apply entry_pathb_join; [apply Hnames|].
Qed.

(** X14.  Whatever the state of the file system, the key asked for or
    the prompt cached, every call the four exported operations make into
    the file system is on the cache directory itself or on an entry of it,
    a name ending in ".json" directly inside it. *)
Theorem cache_operations_are_confined prompt chunks key (w : World) :
  confined env w (snd (cacheChunks stringifiable env prompt chunks w))
  /\ confined env w (snd (getChunks env key w))
  /\ confined env w (snd (getCacheStats env w))
  /\ confined env w (snd (clearCache env w)).
Proof.
  split; [|split; [|split]].
  - apply confined_cacheChunks.
  - apply confined_getChunks.
  - apply confined_getCacheStats.
  - apply confined_clearCache.
Qed.

End Confined.
End ConfineFacts.

(** ** enforceFileLimits below the limit, and run twice *)

Module LimitFacts.
Import Node PathSpec RunSpec ChunkCache CacheSpec EnforceFacts.

Section Limit.

Variable EditChunk : Type.
Variable env : Env.
Local Abbreviation World := (Node.World EditChunk).

Lemma enforce_leaves_at_most_MAX (w : World) :
  length (entries env (snd (enforceFileLimits env w))) <= MAX_CACHE_FILES.
Proof.
  destruct (enforce_split _ env w)
    as [w' [removed [kept [Ee [_ [Hperm [Hlen [_ [Hiff _]]]]]]]]].
  rewrite Ee. cbn [snd].
  assert (Hnd : NoDup (removed ++ kept))
    by (eapply Permutation_NoDup; [exact Hperm | apply NoDup_entries]).
  assert (Hk : length (entries env w') = length kept).
  { apply Permutation_length, NoDup_Permutation.
    - apply NoDup_entries.
    - eapply NoDup_app_remove_l, Hnd.
    - exact Hiff. }
  apply Permutation_length in Hperm. rewrite length_app in Hperm. lia.
Qed.

Lemma enforce_within_limit (w : World) :
  length (entries env w) <= MAX_CACHE_FILES ->
  files (snd (enforceFileLimits env w)) = files w
  /\ dirs (snd (enforceFileLimits env w)) = dirs w.
Proof.
  intros Hle.
  destruct (enforce_run _ env w) as [w' [Ee [Hd Hf]]].
  rewrite Ee. cbn [snd]. split; [|exact Hd].
  rewrite Hf.
  replace (length (entries env w) - MAX_CACHE_FILES) with 0 by lia.
  reflexivity.
Qed.

(** X7.  enforceFileLimits removes nothing while the directory holds no
    more than MAX_CACHE_FILES entries, and whatever it started from, a
    second run right after the first removes nothing more: one run is
    enough to be within the limit. *)
Theorem enforceFileLimits_settles (w : World) :
  (length (entries env w) <= MAX_CACHE_FILES ->
   files (snd (enforceFileLimits env w)) = files w
   /\ dirs (snd (enforceFileLimits env w)) = dirs w)
  /\ files (snd (enforceFileLimits env (snd (enforceFileLimits env w))))
     = files (snd (enforceFileLimits env w))
  /\ fst (enforceFileLimits env w) = Return tt.
Proof.
  split; [apply enforce_within_limit|]. split.
  - apply enforce_within_limit, enforce_leaves_at_most_MAX.
  - destruct (enforce_run _ env w) as [w' [Ee _]]. now rewrite Ee.
Qed.

End Limit.
End LimitFacts.

(** ** The key cacheChunks picks and the entry it leaves *)

Module StoreFacts.
Import Node PathSpec RunSpec RunFacts FrameFacts OpFrames FsFacts DirFacts.
Import ChunkCache CacheSpec CachePathFacts KeyFacts CacheDirFacts EnforceFacts.
Import WriteFacts LimitFacts DrawSpec.

Section Store.

Variable EditChunk : Type.
Variable stringifiable : EditChunk -> bool.
Variable env : Env.
Local Abbreviation M := (Node.M EditChunk).
Local Abbreviation World := (Node.World EditChunk).

Lemma redraw_first_free i k (w : World) :
  lowercase_KEY_PATTERN_test k = true ->
  exists m,
    m <= i
    /\ fst (redraw env i k (Some (entry_path env k)) w)
       = Return (tried w k m, Some (entry_path env (tried w k m)))
    /\ (forall j, j < m -> present w (entry_path env (tried w k j)) = true)
    /\ (m < i -> present w (entry_path env (tried w k m)) = false).
Proof.
  revert k w. induction i as [|i IH]; intros k w Hk.
  - exists 0. repeat split; [reflexivity | lia | lia].
  - cbn [redraw]. unfold bind at 1. unfold existsSync at 1.
    destruct (is_some (assoc (entry_path env k) (files w))
              || is_some (assoc (entry_path env k) (dirs w))) eqn:Ep.
    + unfold bind at 1. unfold randomBytes at 1.
      set (w1 := traced (Call_exists (entry_path env k)) w).
      set (w2 := set_drawn (drawn w1 + 4) w1).
      change (Crypto.toString_hex (map (entropy w1) (seq (drawn w1) 4)))
        with (key_at w (drawn w)).
      assert (Hk2 : lowercase_KEY_PATTERN_test (key_at w (drawn w)) = true)
        by apply drawn_key_lowercase.
      rewrite (resolveCachePath_valid env _ (lowercase_key_valid _ Hk2)).
      destruct (IH (key_at w (drawn w)) w2 Hk2) as [m [Hm [E [Hall Hfree]]]].
      assert (Hshift : forall j,
                 tried w2 (key_at w (drawn w)) j = tried w k (S j)).
      { intros [|j]; cbn [tried].
        - now rewrite Nat.mul_0_r, Nat.add_0_r.
        - apply key_at_eq; [reflexivity | subst w2 w1; cbn; lia]. }
      exists (S m). split; [lia|]. split; [|split].
      * rewrite E, Hshift. reflexivity.
      * intros [|j] Hj; [exact Ep|].
        rewrite <- Hshift. apply (Hall j). lia.
      * intros Hlt. rewrite <- Hshift. apply Hfree. lia.
    + exists 0. split; [lia|]. split; [reflexivity|].
      split; [lia | intros _; exact Ep].
Qed.

(** X8.  The key cacheChunks returns is the first of the six keys drawn
    whose file does not exist once the directory has been swept: every
    earlier draw names something that exists, and unless the key is the
    sixth draw, which the loop does not check, nothing exists under it. *)
Theorem cacheChunks_returns_first_free_draw prompt chunks (w : World) :
  exists i,
    i <= 5
    /\ fst (cacheChunks stringifiable env prompt chunks w)
       = Return (draw (swept env w) i)
    /\ (forall j, j < i ->
          present (swept env w)
            (entry_path env (draw (swept env w) j)) = true)
    /\ (i < 5 ->
          present (swept env w)
            (entry_path env (draw (swept env w) i)) = false).
Proof.
  destruct (cacheChunks_run _ stringifiable env prompt chunks w)
    as [key [wk [ws [Ed [_ [_ Ec]]]]]].
  rewrite Ec. cbn [fst].
  destruct (ensureCacheDir_spec _ env w) as [w1 [E1 _]].
  destruct (returns_cleanExpiredFiles _ env w1) as [[] [w2 E2]].
  assert (Hsw : swept env w = w2).
  { unfold swept, sweep. erewrite bind_Return by exact E1. now rewrite E2. }
  rewrite Hsw. clear Hsw.
  assert (Ed' : fst (drawKey env w) = Return (key, Some (entry_path env key)))
    by now rewrite Ed.
  unfold drawKey in Ed'.
  erewrite bind_Return in Ed' by exact E1.
  erewrite bind_Return in Ed' by exact E2.
  unfold bind at 1 in Ed'. unfold randomBytes at 1 in Ed'.
  set (w3 := set_drawn (drawn w2 + 4) w2) in Ed'.
  change (Crypto.toString_hex (map (entropy w2) (seq (drawn w2) 4)))
    with (key_at w2 (drawn w2)) in Ed'.
  assert (Hk : lowercase_KEY_PATTERN_test (key_at w2 (drawn w2)) = true)
    by apply drawn_key_lowercase.
  rewrite (resolveCachePath_valid env _ (lowercase_key_valid _ Hk)) in Ed'.
  destruct (redraw_first_free 5 (key_at w2 (drawn w2)) w3 Hk)
    as [m [Hm [E [Hall Hfree]]]].
  assert (Hdraw : forall j, tried w3 (key_at w2 (drawn w2)) j = draw w2 j).
  { intros [|j]; cbn [tried]; unfold draw.
    - now rewrite Nat.mul_0_r, Nat.add_0_r.
    - apply key_at_eq; [reflexivity | subst w3; cbn; lia]. }
  rewrite E in Ed'. injection Ed' as Hkey _.
  exists m. split; [exact Hm|]. split; [|split].
  - now rewrite <- Hkey, Hdraw.
  - intros j Hj. rewrite <- Hdraw. exact (Hall j Hj).
  - intros Hlt. rewrite <- Hdraw. exact (Hfree Hlt).
Qed.

Lemma shrinks_randomBytes n : keeps shrinks (randomBytes n : M _).
Proof. intros w q f H. exact H. Qed.

Lemma shrinks_ensureCacheDir : keeps shrinks (ensureCacheDir env : M unit).
Proof. unfold ensureCacheDir. frames. Qed.

Lemma shrinks_cleanExpiredFiles :
  keeps shrinks (cleanExpiredFiles env : M unit).
Proof.
  unfold cleanExpiredFiles. pose proof shrinks_ensureCacheDir. frames.
Qed.

Lemma shrinks_redraw i k fp : keeps shrinks (redraw env i k fp : M _).
Proof.
  pose proof shrinks_randomBytes.
  revert k fp. induction i as [|i IH]; intros k fp; simpl; frames.
Qed.

Lemma shrinks_drawKey : keeps shrinks (drawKey env : M _).
Proof.
  unfold drawKey.
  pose proof shrinks_randomBytes. pose proof shrinks_ensureCacheDir.
  pose proof shrinks_cleanExpiredFiles. pose proof shrinks_redraw.
  frames.
Qed.



End Store.
End StoreFacts.

(** ** The entry cacheChunks leaves can be read back *)

Module SurviveFacts.
Import Node PathSpec RunSpec RunFacts FrameFacts OpFrames FsFacts DirFacts.
Import ChunkCache CacheSpec CachePathFacts KeyFacts CacheDirFacts EnforceFacts.
Import WriteFacts LimitFacts StoreFacts GetChunksFacts.

Section Survive.

Variable EditChunk : Type.
Variable stringifiable : EditChunk -> bool.
Variable env : Env.
Local Abbreviation M := (Node.M EditChunk).
Local Abbreviation World := (Node.World EditChunk).

(** What enforceFileLimits removes is not newer than what it keeps, so an
    entry newer than all others stays. *)
Lemma newest_entry_kept (ws : World) n f :
  assoc (child_path env n) (files ws) = Some f ->
  is_json n = true -> noslash n = true ->
  (forall m, In m (entries env ws) -> m <> n ->
             (mtime_of env ws m < mtimeMs f)%Z) ->
  assoc (child_path env n) (files (snd (enforceFileLimits env ws))) = Some f.
Proof.
  intros Hf Hj Hn Hnewest.
  destruct (Nat.le_gt_cases (length (entries env ws)) MAX_CACHE_FILES)
    as [Hle|Hgt].
  { destruct (enforce_within_limit _ env ws Hle) as [E _]. now rewrite E. }
  destruct (enforce_split _ env ws)
    as [w' [removed [kept [Ee [_ [Hperm [Hlen [Hold [Hiff Hsame]]]]]]]]].
  rewrite Ee. cbn [snd].
  assert (Hin : In n (entries env ws)).
  { unfold entries in *.
    destruct (is_some (assoc (CACHE_DIR env) (dirs ws)));
      [|cbn in Hgt; lia].
    apply filter_In. split; [|exact Hj].
    apply In_listing. repeat split; auto.
    - exists f. eapply assoc_In, Hf.
    - intros ->. discriminate Hj. }
  assert (Hnd : NoDup (removed ++ kept))
    by (eapply Permutation_NoDup; [exact Hperm | apply NoDup_entries]).
  pose proof (Permutation_length Hperm) as Hlens.
  rewrite length_app in Hlens.
  apply (Permutation_in _ Hperm) in Hin.
  apply in_app_or in Hin as [Hrem|Hkept].
  2:{ rewrite (Hsame n Hkept). exact Hf. }
  exfalso.
  destruct kept as [|k kept'].
  { cbn in Hlens. unfold MAX_CACHE_FILES in *. lia. }
  assert (Hk : In k (k :: kept')) by now left.
  pose proof (Hold n k Hrem Hk) as Hle.
  assert (Hkn : k <> n).
  { intros ->. exact (NoDup_app_disjoint _ _ _ Hnd Hrem Hk). }
  assert (Hke : In k (entries env ws)).
  { apply (Permutation_in _ (Permutation_sym Hperm)).
    apply in_or_app. now right. }
  specialize (Hnewest k Hke Hkn).
  unfold mtime_of in Hle at 1. rewrite Hf in Hle. lia.
Qed.

(** X9.  When the chunks serialise, the write succeeds and no file is
    dated at or after the clock, the entry cacheChunks wrote is still there
    when it returns, stamped with the clock and holding the chunks and the
    digest of the prompt, and getChunks on the returned key gives the
    chunks back: the call's own eviction cannot take it. *)
Theorem cacheChunks_entry_survives prompt chunks (w : World) key :
  fst (cacheChunks stringifiable env prompt chunks w) = Return key ->
  forallb stringifiable chunks = true ->
  write_fails w (entry_path env key) = false ->
  (forall q f, assoc q (files w) = Some f -> (mtimeMs f < clock w)%Z) ->
  assoc (entry_path env key)
    (files (snd (cacheChunks stringifiable env prompt chunks w)))
  = Some {| content := Serialized
              {| Node.chunks := chunks; timestamp := clock w;
                 promptHash := Crypto.sha256_hex prompt |};
            mtimeMs := clock w |}
  /\ fst (getChunks env key
            (snd (cacheChunks stringifiable env prompt chunks w)))
     = Return (Some chunks).
Proof.
  destruct (cacheChunks_run _ stringifiable env prompt chunks w)
    as [key0 [wk [ws [Ed [Hk [Es Ec]]]]]].
  rewrite Ec. cbn [fst snd]. intros [= <-] Hs Hw Hold.
  pose proof (steady_drawKey _ env w) as Hst. rewrite Ed in Hst.
  destruct Hst as [Hclock [_ [Hwf _]]]. cbn [snd] in Hclock, Hwf.
  rewrite <- Hwf in Hw.
  destruct (store_ok _ stringifiable env prompt chunks key0 _ wk Hs Hw)
    as [ws' [Es' [Hf Hcs]]].
  rewrite Es in Es'. injection Es' as <-.
  rewrite Hclock in Hf.
  pose proof (shrinks_drawKey _ env w) as Hd. rewrite Ed in Hd. cbn [snd] in Hd.
  set (f := {| content := Serialized
                 {| Node.chunks := chunks; timestamp := clock w;
                    promptHash := Crypto.sha256_hex prompt |};
               mtimeMs := clock w |}) in *.
  assert (Hvalid : CACHE_KEY_PATTERN_test key0 = true)
    by now apply lowercase_key_valid.
  assert (Hthere : assoc (entry_path env key0) (files ws) = Some f).
  { rewrite Hf. cbn [assoc]. now rewrite JsFacts.eqb_refl. }
  assert (Hkept : assoc (entry_path env key0)
                    (files (snd (enforceFileLimits env ws))) = Some f).
  { apply (newest_entry_kept ws (key0 ++ lit ".json") f Hthere).
    - apply JsFacts.endsWith_app.
    - unfold noslash. rewrite forallb_app.
      apply andb_true_iff. split; [now apply key_noslash | reflexivity].
    - intros m Hm Hne. unfold mtime_of.
      assert (Hpath : child_path env m <> entry_path env key0).
      { intros E. apply Hne. now apply (child_path_inj env). }
      destruct (assoc (child_path env m) (files ws)) as [g|] eqn:Eg.
      + rewrite Hf in Eg. cbn [assoc] in Eg.
        assert (Hne' : entry_path env key0 <> child_path env m) by congruence.
        apply JsFacts.eqb_neq in Hne'. rewrite Hne' in Eg.
        apply assoc_without_Some in Eg.
        apply Hd in Eg. cbn. exact (Hold _ _ Eg).
      + exfalso. unfold entries in Hm.
        destruct (is_some (assoc (CACHE_DIR env) (dirs ws))); [|contradiction].
        apply filter_In in Hm as [Hm _].
        apply listed_assoc in Hm as [g Hg].
        unfold child_path in Eg. congruence. }
  split; [exact Hkept|].
  pose proof (steady_enforceFileLimits EditChunk env ws) as [Hc' _].
  apply (getChunks_fresh_run _ env key0 _ f
           {| Node.chunks := chunks; timestamp := clock w;
              promptHash := Crypto.sha256_hex prompt |} Hvalid Hkept eq_refl).
  cbn [timestamp]. rewrite Hc', Hcs, Hclock. unfold CACHE_TTL. lia.
Qed.

End Survive.
End SurviveFacts.

(** ** The logger's helpers for tool calls and commands *)

Module LoggerToolsFacts.
Import Node JsData LoggerTools.

(** Decide the comparisons of two literals, such as those on [typeof]. *)
Ltac literal_tests :=
  repeat match goal with
         | |- context [Js.eqb (lit ?a) (lit ?b)] =>
             let r := eval vm_compute in (Js.eqb (lit a) (lit b)) in
             change (Js.eqb (lit a) (lit b)) with r
         end.

Section Sanitize.

Variable env : Env.
Variable toLowerCase : jstring -> jstring.

Lemma set_get_at (front rest : list (jstring * value)) k v x :
  ~ In k (keys front) ->
  get (front ++ (k, v) :: rest) k = v
  /\ set (front ++ (k, v) :: rest) k x = front ++ (k, x) :: rest.
Proof.
  induction front as [|[k' v'] front IH]; intros Hk; cbn.
  - now rewrite JsFacts.eqb_refl.
  - assert (Hne : k' <> k) by (intros ->; apply Hk; now left).
    apply JsFacts.eqb_neq in Hne. rewrite Hne.
    destruct IH as [IH1 IH2]; [intros H; apply Hk; now right|].
    now rewrite IH1, IH2.
Qed.

(** The loop over [Object.keys(copy)], with the properties already
    visited in front. *)
Lemma sanitize_loop (todo front : list (jstring * value)) :
  NoDup (keys (front ++ todo)) ->
  fold_left (fun copy key =>
       if includes (toLowerCase key) (lit "prompt")
          && Js.eqb (typeof (get copy key)) (lit "string")
       then set copy key (redacted env (get copy key))
       else copy) (keys todo) (front ++ todo)
  = front ++ map (sanitized_property env toLowerCase) todo.
Proof.
  revert front. induction todo as [|[k v] todo IH]; intros front Hnd.
  - reflexivity.
  - cbn [keys map fst fold_left].
    assert (Hk : ~ In k (keys front)).
    { unfold keys in *. rewrite map_app in Hnd. cbn in Hnd.
      apply NoDup_remove_2 in Hnd. intros H. apply Hnd.
      apply in_or_app. now left. }
    destruct (set_get_at front todo k v (redacted env v) Hk) as [Hget Hset].
    rewrite Hget, Hset.
    assert (Hstep :
              (if includes (toLowerCase k) (lit "prompt")
                  && Js.eqb (typeof v) (lit "string")
               then front ++ (k, redacted env v) :: todo
               else front ++ (k, v) :: todo)
              = (front ++ [sanitized_property env toLowerCase (k, v)]) ++ todo).
    { rewrite <- app_assoc. cbn [app]. unfold sanitized_property. cbn [fst snd].
      destruct (includes (toLowerCase k) (lit "prompt")); cbn [andb];
        destruct v; cbn [typeof redacted]; literal_tests; reflexivity. }
    rewrite Hstep.
    change (fold_left _ (map fst todo) ?x) with
      (fold_left (fun copy key =>
         if includes (toLowerCase key) (lit "prompt")
            && Js.eqb (typeof (get copy key)) (lit "string")
         then set copy key (redacted env (get copy key))
         else copy) (keys todo) x).
    rewrite IH.
    + now rewrite <- app_assoc.
    + unfold keys in *. rewrite !map_app in *. cbn [map] in *.
      rewrite <- app_assoc. cbn [app].
      replace (fst (sanitized_property env toLowerCase (k, v))) with k;
        [exact Hnd|].
      unfold sanitized_property. cbn [fst snd].
      destruct v; try reflexivity.
      now destruct (includes (toLowerCase k) (lit "prompt")).
Qed.

(** X15.  With prompt logging off, sanitizeArgs redacts the strings that
    are elements of an array and the string properties of an object whose
    lower-cased key contains "prompt", keeping keys and order; it does not
    descend: numbers, booleans, nested arrays and objects, and strings
    under other keys come back as they are, and a value that is neither an
    array nor an object is returned untouched. *)
Theorem sanitizeArgs_redacts_top_level_only (args : value) :
  Logger.shouldLogPrompts env = false ->
  match args with
  | Arr items =>
      sanitizeArgs env toLowerCase args = Arr (map (redacted env) items)
  | Obj props =>
      NoDup (keys props) ->
      sanitizeArgs env toLowerCase args
      = Obj (map (sanitized_property env toLowerCase) props)
  | _ => sanitizeArgs env toLowerCase args = args
  end.
Proof.
  intros Hoff. unfold sanitizeArgs. rewrite Hoff.
  destruct args as [| |b|n|s|items|props];
    cbn [falsy typeof isArray]; literal_tests; cbn [negb orb].
  - reflexivity.
  - reflexivity.
  - now rewrite orb_true_r.
  - now rewrite orb_true_r.
  - now rewrite orb_true_r.
  - f_equal. apply map_ext. intros v.
    destruct v; cbn [typeof redacted]; literal_tests; reflexivity.
  - intros Hnd. f_equal. exact (sanitize_loop props [] Hnd).
Qed.

End Sanitize.

Section Commands.

Variable EditChunk : Type.
Variable env : Env.
Variable toFixed1 : Z -> jstring.
Local Abbreviation World := (Node.World EditChunk).

Lemma safeArgs_from_nth prev (args : list jstring) i :
  Logger.shouldLogPrompts env = false ->
  nth_error (safeArgs_from env prev args) i
  = match nth_error args i with
    | Some a =>
        Some (if match i with
                 | O => match prev with
                        | Some p =>
                            Js.eqb p (lit "-p") || Js.eqb p (lit "--prompt")
                        | None => false
                        end
                 | S _ => after_prompt_flag args i
                 end
              then Logger.redactString env a else a)
    | None => None
    end.
Proof.
  intros Hoff. revert prev i.
  induction args as [|a args IH]; intros prev i.
  - now destruct i.
  - cbn [safeArgs_from]. rewrite Hoff. cbn [negb andb].
    destruct i as [|i]; [reflexivity|].
    cbn [nth_error]. rewrite IH.
    destruct (nth_error args i) as [b|]; [|reflexivity].
    destruct i as [|i]; reflexivity.
Qed.

Lemma safeArgs_from_length prev (args : list jstring) :
  length (safeArgs_from env prev args) = length args.
Proof.
  revert prev. induction args as [|a args IH]; intros prev; cbn; auto.
Qed.

(** X16.  With prompt logging off, commandExecution prints one line and
    tracks the command with the same arguments as that line quotes: as
    many as it was given, each one verbatim unless the argument before it,
    as given, is "-p" or "--prompt", in which case its redaction stands in
    its place. *)
Theorem commandExecution_redacts_after_prompt_flag
  command (args : list jstring) startTime times (w : World) :
  Logger.shouldLogPrompts env = false ->
  exists safe,
    commandExecution env command args startTime times w
    = (Return (Map_set startTime
                 {| LoggerTools.command := command;
                    LoggerTools.args := safe;
                    LoggerTools.startTime := startTime |} times),
       printed Stderr_warn
         (Logger.formatMessage env
            (lit "[" ++ Number_toString startTime ++ lit "] Starting: "
               ++ command ++ lit " "
               ++ Array_join (lit " ")
                    (map (fun arg => QUOTE ++ arg ++ QUOTE) safe))) w)
    /\ length safe = length args
    /\ forall i a,
         nth_error args i = Some a ->
         nth_error safe i
         = Some (if after_prompt_flag args i
                 then Logger.redactString env a else a).
Proof.
  intros Hoff. exists (safeArgs_from env None args).
  split; [reflexivity|]. split; [apply safeArgs_from_length|].
  intros i a Hi. rewrite (safeArgs_from_nth None args i Hoff), Hi.
  now destruct i.
Qed.

Lemma Map_get_set_same k v m : Map_get k (Map_set k v m) = Some v.
Proof.
  induction m as [|[k' v'] m IH]; cbn.
  - now rewrite Z.eqb_refl.
  - destruct (Z.eqb k' k) eqn:E; cbn; now rewrite E.
Qed.

Lemma Map_get_set_other k k' v m :
  k' <> k -> Map_get k' (Map_set k v m) = Map_get k' m.
Proof.
  intros Hne. induction m as [|[k2 v2] m IH]; cbn.
  - apply not_eq_sym, Z.eqb_neq in Hne. now rewrite Hne.
  - destruct (Z.eqb k2 k) eqn:E; cbn.
    + apply Z.eqb_eq in E. subst k2.
      apply not_eq_sym, Z.eqb_neq in Hne. now rewrite Hne.
    + now rewrite IH.
Qed.

Lemma Map_delete_set k v m : Map_delete k (Map_set k v m) = Map_delete k m.
Proof.
  unfold Map_delete.
  induction m as [|[k' v'] m IH]; cbn [Map_set filter fst].
  - now rewrite Z.eqb_refl.
  - destruct (Z.eqb k' k) eqn:E; cbn [filter fst]; rewrite E; cbn [negb];
      [reflexivity|].
    now rewrite IH.
Qed.

Lemma Map_get_delete k k' m :
  Map_get k' (Map_delete k m)
  = if Z.eqb k' k then None else Map_get k' m.
Proof.
  unfold Map_delete.
  induction m as [|[k2 v2] m IH]; cbn [Map_get filter fst].
  - now destruct (Z.eqb k' k).
  - destruct (Z.eqb k2 k) eqn:E; cbn [negb Map_get].
    + rewrite IH. apply Z.eqb_eq in E. subst k2.
      destruct (Z.eqb k' k) eqn:E'; [reflexivity|].
      rewrite Z.eqb_sym in E'. now rewrite E'.
    + destruct (Z.eqb k2 k') eqn:E'; [|exact IH].
      apply Z.eqb_eq in E'. subst k2. now rewrite E.
Qed.

Lemma Map_delete_absent k m : Map_get k m = None -> Map_delete k m = m.
Proof.
  unfold Map_delete.
  induction m as [|[k' v'] m IH]; cbn [Map_get filter fst]; [reflexivity|].
  destruct (Z.eqb k' k); [discriminate|]. cbn [negb]. intros H.
  now rewrite IH.
Qed.

(** X17.  commandExecution records the command under its start time,
    leaving what is tracked under other start times alone, and
    commandComplete with that start time takes the record out again: the
    pair leaves the tracking map as it was, less whatever was tracked under
    that start time before.  Neither throws nor touches a file, and
    together they print two lines, three when an output length is
    given. *)
Theorem command_tracking_round_trip
  command (args : list jstring) startTime exitCode outputLength times
  (w : World) :
  exists t1 w1 w2,
    commandExecution env command args startTime times w = (Return t1, w1)
    /\ Map_get startTime t1
       = Some {| LoggerTools.command := command;
                 LoggerTools.args := safeArgs_from env None args;
                 LoggerTools.startTime := startTime |}
    /\ (forall k, k <> startTime -> Map_get k t1 = Map_get k times)
    /\ commandComplete env toFixed1 startTime exitCode outputLength t1 w1
       = (Return (Map_delete startTime times), w2)
    /\ Map_get startTime (Map_delete startTime times) = None
    /\ (forall k, k <> startTime ->
                  Map_get k (Map_delete startTime times) = Map_get k times)
    /\ (Map_get startTime times = None ->
        Map_delete startTime times = times)
    /\ files w2 = files w /\ dirs w2 = dirs w /\ trace w2 = trace w
    /\ length (console w2)
       = length (console w) + 2
         + match outputLength with Some _ => 1 | None => 0 end.
Proof.
  set (t1 := Map_set startTime
               {| LoggerTools.command := command;
                  LoggerTools.args := safeArgs_from env None args;
                  LoggerTools.startTime := startTime |} times).
  destruct (commandExecution env command args startTime times w)
    as [r1 w1] eqn:E1.
  assert (Hr1 : r1 = Return t1) by (injection E1 as <- _; reflexivity).
  assert (Hw1 : files w1 = files w /\ dirs w1 = dirs w /\ trace w1 = trace w
                /\ length (console w1) = length (console w) + 1).
  { injection E1 as _ <-. cbn. rewrite length_app. cbn. auto. }
  subst r1.
  exists t1, w1,
    (snd (commandComplete env toFixed1 startTime exitCode outputLength t1 w1)).
  split; [reflexivity|].
  split; [apply Map_get_set_same|].
  split; [intros k Hk; now apply Map_get_set_other|].
  split.
  { unfold commandComplete, bind, Date_now, Logger.warn, console_warn, ret.
    unfold t1. rewrite Map_delete_set. destruct outputLength; reflexivity. }
  split; [rewrite Map_get_delete; now rewrite Z.eqb_refl|].
  split.
  { intros k Hk. rewrite Map_get_delete.
    apply Z.eqb_neq in Hk. now rewrite Hk. }
  split; [apply Map_delete_absent|].
  destruct Hw1 as [Hf [Hd [Ht Hc]]].
  unfold commandComplete, bind, Date_now, Logger.warn, console_warn, ret.
  destruct outputLength; cbn; rewrite ?length_app; cbn;
    rewrite Hf, Hd, Ht, Hc; repeat split; lia.
Qed.

End Commands.
End LoggerToolsFacts.

(** ** Further statements on concrete worlds *)

Module MoreChecks.
Import Node PathSpec RunSpec ChunkCache CacheSpec Samples.
Import JsData LoggerTools MoreSamples.
Import GetChunksFacts LimitFacts StoreFacts SurviveFacts.
Import LoggerToolsFacts.

(** What the logger prints for a tool call and a command, the prompt
    redacted wherever the code looks for it. *)
Example sanitized_tool_args :
  sanitizeArgs env ascii_toLowerCase tool_args
  = Obj [(lit "prompt",
          Str (lit "[REDACTED len=10 sha256=0dd9d88eb284]"));
         (lit "systemPrompt",
          Str (lit "[REDACTED len=8 sha256=b0d336336bae]"));
         (lit "model", Str (lit "pro"));
         (lit "promptTokens", Num 12);
         (lit "options", Obj [(lit "prompt", Str (lit "inner"))])]
  /\ sanitizeArgs env ascii_toLowerCase (Arr [Str (lit "pro"); Num 3; Null])
     = Arr [Str (lit "[REDACTED len=3 sha256=07ed400759a0]"); Num 3; Null]
  /\ sanitizeArgs env ascii_toLowerCase (Str (lit "rename foo"))
     = Str (lit "rename foo").
Proof. repeat split; vm_compute; reflexivity. Qed.

Example command_lines :
  let run1 := commandExecution env (lit "gemini") cli_args 1000 []
                (world_at 1000 []) in
  let run2 := commandComplete env tenths 1000 (Some 0%Z) (Some 42%Z)
                [(1000%Z, {| command := lit "gemini"; args := cli_args;
                             startTime := 1000 |})]
                (world_at 3500 []) in
  map snd (console (snd run1))
  = [lit "[GMCPT] [1000] Starting: gemini " ++ QUOTE ++ lit "-m" ++ QUOTE
       ++ lit " " ++ QUOTE ++ lit "pro" ++ QUOTE
       ++ lit " " ++ QUOTE ++ lit "-p" ++ QUOTE
       ++ lit " " ++ QUOTE ++ lit "[REDACTED len=10 sha256=0dd9d88eb284]"
       ++ QUOTE ++ [10%N]]
  /\ map snd (console (snd run2))
     = [lit "[GMCPT] [2.5s] Process finished with exit code: 0" ++ [10%N];
        lit "[GMCPT] Response: 42 chars" ++ [10%N]]
  /\ fst run2 = Return []
  /\ Number_toString (-15) = lit "-15" /\ Number_toString 0 = lit "0".
Proof. repeat split; vm_compute; reflexivity. Qed.

Lemma getChunks_miss_witness :
  fst (getChunks env (lit "00000000") world_one_entry) = Return None
  /\ files (snd (getChunks env (lit "00000000") world_one_entry))
     = files world_one_entry
  /\ dirs (snd (getChunks env (lit "00000000") world_one_entry))
     = dirs world_one_entry.
Proof.
  exact (getChunks_miss chunk env (lit "00000000") world_one_entry
           eq_refl eq_refl).
Defined.

Lemma getChunks_hit_witness :
  fst (getChunks env (lit "abcdef12") world_one_entry) = Return (Some [7; 8])
  /\ files (snd (getChunks env (lit "abcdef12") world_one_entry))
     = files world_one_entry
  /\ dirs (snd (getChunks env (lit "abcdef12") world_one_entry))
     = dirs world_one_entry
  /\ fst (getChunks env (lit "abcdef12")
            (snd (getChunks env (lit "abcdef12") world_one_entry)))
     = Return (Some [7; 8]).
Proof.
  assert (Hage : (clock world_one_entry - 900 <= CACHE_TTL)%Z)
    by (vm_compute; discriminate).
  exact (getChunks_hit chunk env (lit "abcdef12") world_one_entry
           (stored [7; 8] 900 (lit "p") 900)
           {| chunks := [7; 8]; timestamp := 900;
              promptHash := Crypto.sha256_hex (lit "p") |}
           eq_refl eq_refl eq_refl Hage).
Defined.

Lemma enforceFileLimits_settles_witness :
  length (entries env world_fifty) <= MAX_CACHE_FILES
  /\ files (snd (enforceFileLimits env world_fifty)) = files world_fifty
  /\ dirs (snd (enforceFileLimits env world_fifty)) = dirs world_fifty.
Proof.
  assert (H : length (entries env world_fifty) <= MAX_CACHE_FILES)
    by (apply Nat.leb_le; vm_compute; reflexivity).
  split; [exact H|].
  exact (proj1 (enforceFileLimits_settles chunk env world_fifty) H).
Defined.

Lemma cacheChunks_entry_survives_witness :
  assoc (entry_path env (lit "03142536"))
    (files (snd (cacheChunks stringifiable env (lit "fix bug") [1; 2]
                   world_one_entry)))
  = Some {| content := Serialized
              {| chunks := [1; 2]; timestamp := clock world_one_entry;
                 promptHash := Crypto.sha256_hex (lit "fix bug") |};
            mtimeMs := clock world_one_entry |}
  /\ fst (getChunks env (lit "03142536")
            (snd (cacheChunks stringifiable env (lit "fix bug") [1; 2]
                    world_one_entry)))
     = Return (Some [1; 2]).
Proof.
  assert (Hkey : fst (cacheChunks stringifiable env (lit "fix bug") [1; 2]
                        world_one_entry) = Return (lit "03142536"))
    by (vm_compute; reflexivity).
  assert (Hold : forall q f,
             assoc q (files world_one_entry) = Some f ->
             (mtimeMs f < clock world_one_entry)%Z).
  { intros q f H. cbn [files world_one_entry world_at assoc] in H.
    destruct (Js.eqb (key_path "abcdef12") q); [|discriminate H].
    injection H as <-. reflexivity. }
  exact (cacheChunks_entry_survives chunk stringifiable env (lit "fix bug")
           [1; 2] world_one_entry (lit "03142536") Hkey eq_refl eq_refl Hold).
Defined.


Lemma sanitizeArgs_redacts_top_level_only_witness :
  sanitizeArgs env ascii_toLowerCase tool_args
  = Obj [(lit "prompt", Str (Logger.redactString env (lit "rename foo")));
         (lit "systemPrompt",
          Str (Logger.redactString env (lit "be brief")));
         (lit "model", Str (lit "pro"));
         (lit "promptTokens", Num 12);
         (lit "options", Obj [(lit "prompt", Str (lit "inner"))])].
Proof.
  assert (Hnd : NoDup (keys [(lit "prompt", Str (lit "rename foo"));
                             (lit "systemPrompt", Str (lit "be brief"));
                             (lit "model", Str (lit "pro"));
                             (lit "promptTokens", Num 12);
                             (lit "options",
                              Obj [(lit "prompt", Str (lit "inner"))])])).
  { cbn [keys map fst].
    repeat (constructor;
            [cbn; intros H;
             repeat (destruct H as [H|H]; [discriminate H|]); exact H|]).
    constructor. }
  exact (sanitizeArgs_redacts_top_level_only env ascii_toLowerCase tool_args
           eq_refl Hnd).
Defined.

Lemma commandExecution_redacts_after_prompt_flag_witness :
  exists safe,
    commandExecution env (lit "gemini") cli_args 1000 [] (world_at 1000 [])
    = (Return (Map_set 1000
                 {| command := lit "gemini"; args := safe;
                    startTime := 1000 |} []),
       printed Stderr_warn
         (Logger.formatMessage env
            (lit "[" ++ Number_toString 1000 ++ lit "] Starting: "
               ++ lit "gemini" ++ lit " "
               ++ Array_join (lit " ")
                    (map (fun arg => QUOTE ++ arg ++ QUOTE) safe)))
         (world_at 1000 []))
    /\ length safe = length cli_args
    /\ forall i a,
         nth_error cli_args i = Some a ->
         nth_error safe i
         = Some (if after_prompt_flag cli_args i
                 then Logger.redactString env a else a).
Proof.
  exact (commandExecution_redacts_after_prompt_flag chunk env (lit "gemini")
           cli_args 1000 [] (world_at 1000 []) eq_refl).
Defined.

End MoreChecks.

(** ** The operations on a file system that fails *)

Module PlatformFacts.
Import Node RunSpec ChunkCache.

Section Nominal.

Variable EditChunk : Type.
Variable stringifiable : EditChunk -> bool.
Variable env : Env.
Local Abbreviation World := (Node.World EditChunk).
Local Abbreviation nominal := (@Platform.nominal EditChunk).

(** On [Node]'s functions the operations over a file system are the
    operations of [ChunkCache]. *)
Lemma operations_on_nominal :
  ChunkCacheOn.ensureCacheDir nominal env
  = (ensureCacheDir env : M EditChunk unit)
  /\ ChunkCacheOn.cleanExpiredFiles nominal env
     = cleanExpiredFiles env
  /\ ChunkCacheOn.enforceFileLimits nominal env
     = enforceFileLimits env
  /\ ChunkCacheOn.redraw nominal env = redraw env
  /\ ChunkCacheOn.cacheChunks nominal stringifiable env
     = cacheChunks stringifiable env
  /\ ChunkCacheOn.getCacheStats nominal env = getCacheStats env
  /\ ChunkCacheOn.clearCache nominal env = clearCache env.
Proof. repeat split. Qed.

End Nominal.
End PlatformFacts.

(** *** Where ensureCacheDir is called outside any try *)

Module UnguardedFacts.
Import Node RunSpec RunFacts ChunkCache.

Section Unguarded.

Variable EditChunk : Type.
Variable fs : Platform.Fs EditChunk.
Variable stringifiable : EditChunk -> bool.
Variable env : Env.
Local Abbreviation World := (Node.World EditChunk).

(** C8, where the code departs from it.  On any file system, when
    ensureCacheDir throws (the directory is not there and cannot be made),
    cacheChunks throws the same error to its caller at once: no key is
    returned and nothing is logged.  getCacheStats does the same, while
    cleanExpiredFiles and clearCache, which call ensureCacheDir inside
    their try, return and log the error. *)
Theorem cacheChunks_throws_when_ensureCacheDir_throws
  prompt chunks (w : World) e :
  fst (ChunkCacheOn.ensureCacheDir fs env w) = Throw e ->
  ChunkCacheOn.cacheChunks fs stringifiable env prompt chunks w
  = (Throw e, snd (ChunkCacheOn.ensureCacheDir fs env w))
  /\ ChunkCacheOn.getCacheStats fs env w
     = (Throw e, snd (ChunkCacheOn.ensureCacheDir fs env w))
  /\ ChunkCacheOn.cleanExpiredFiles fs env w
     = (Return tt,
        printed Stderr_warn
          (Logger.formatMessage env
             (lit "Cache cleanup error: " ++ err_text e))
          (snd (ChunkCacheOn.ensureCacheDir fs env w)))
  /\ ChunkCacheOn.clearCache fs env w
     = (Return tt,
        printed Stderr_error
          (Logger.formatMessage env
             (lit "Failed to empty cache: " ++ err_text e))
          (snd (ChunkCacheOn.ensureCacheDir fs env w))).
Proof.
  intros H.
  destruct (ChunkCacheOn.ensureCacheDir fs env w) as [r w1] eqn:E.
  cbn [fst snd] in *. subst r.
  unfold ChunkCacheOn.cacheChunks, ChunkCacheOn.getCacheStats,
    ChunkCacheOn.cleanExpiredFiles, ChunkCacheOn.clearCache.
  repeat split.
  - now rewrite (bind_Throw _ _ _ _ _ _ E).
  - now rewrite (bind_Throw _ _ _ _ _ _ E).
  - erewrite try_Throw; [reflexivity|].
    now rewrite (bind_Throw _ _ _ _ _ _ E).
  - erewrite try_Throw; [reflexivity|].
    now rewrite (bind_Throw _ _ _ _ _ _ E).
Qed.

End Unguarded.
End UnguardedFacts.

(** *** Where the write is inside a try *)

Module GuardedFacts.
Import Node PathSpec RunSpec RunFacts FrameFacts.
Import ChunkCache CacheSpec CachePathFacts KeyFacts OnSpec.

Section Guarded.

Variable EditChunk : Type.
Variable fs : Platform.Fs EditChunk.
Variable stringifiable : EditChunk -> bool.
Variable env : Env.
Local Abbreviation M := (Node.M EditChunk).
Local Abbreviation World := (Node.World EditChunk).

(** What is asked of the file system: existsSync answers, it never throws;
    and listing, stat and unlink print nothing over what the console
    shows. *)
Hypothesis existsSync_returns :
  forall p (w : World), exists b w', Platform.existsSync fs p w = (Return b, w').
Hypothesis readdirSync_quiet :
  forall p, keeps console_kept (Platform.readdirSync fs p).
Hypothesis statSync_quiet :
  forall p, keeps console_kept (Platform.statSync_mtimeMs fs p).
Hypothesis unlinkSync_quiet :
  forall p, keeps console_kept (Platform.unlinkSync fs p).

Lemma console_kept_refl (w : World) : console_kept w w.
Proof. exists []. now rewrite app_nil_r. Qed.

Lemma console_kept_trans (a b c : World) :
  console_kept a b -> console_kept b c -> console_kept a c.
Proof.
  intros [l Hl] [m Hm]. exists (l ++ m). now rewrite Hm, Hl, app_assoc.
Qed.

Lemma debug_quiet m : keeps console_kept (Logger.debug env m : M unit).
Proof. intros w. now eexists. Qed.

Lemma enforceFileLimits_quiet :
  keeps console_kept (ChunkCacheOn.enforceFileLimits fs env).
Proof.
  unfold ChunkCacheOn.enforceFileLimits.
  apply keeps_try; [exact console_kept_trans | | intros e; apply debug_quiet].
  apply keeps_bind; [exact console_kept_trans | apply readdirSync_quiet |].
  intros names.
  apply keeps_bind; [exact console_kept_trans | |].
  - apply keeps_map_of; [exact console_kept_refl | exact console_kept_trans |].
    intros f.
    apply keeps_bind; [exact console_kept_trans | apply statSync_quiet |].
    intros m. apply keeps_ret, console_kept_refl.
  - intros stated. cbv zeta.
    destruct (Nat.ltb _ _); [|apply keeps_ret, console_kept_refl].
    apply keeps_bind;
      [exact console_kept_trans | | intros _; apply debug_quiet].
    apply keeps_for_of; [exact console_kept_refl | exact console_kept_trans |].
    intros x _.
    apply keeps_try; [exact console_kept_trans | apply unlinkSync_quiet |].
    intros _. apply keeps_ret, console_kept_refl.
Qed.

Lemma cleanExpiredFiles_returns (w : World) :
  exists w', ChunkCacheOn.cleanExpiredFiles fs env w = (Return tt, w').
Proof.
  unfold ChunkCacheOn.cleanExpiredFiles, try_catch.
  match goal with
  | |- context [match ?c w with _ => _ end] =>
      destruct (c w) as [[[]|e] w1]
  end; eexists; reflexivity.
Qed.

Lemma enforceFileLimits_returns (w : World) :
  exists w', ChunkCacheOn.enforceFileLimits fs env w = (Return tt, w').
Proof.
  unfold ChunkCacheOn.enforceFileLimits, try_catch.
  match goal with
  | |- context [match ?c w with _ => _ end] =>
      destruct (c w) as [[[]|e] w1]
  end; eexists; reflexivity.
Qed.

(** The redraw loop hands back a lower-case key together with its path. *)
Lemma redraw_returns_on i k (w : World) :
  lowercase_KEY_PATTERN_test k = true ->
  exists k' w',
    ChunkCacheOn.redraw fs env i k (Some (entry_path env k)) w
    = (Return (k', Some (entry_path env k')), w')
    /\ lowercase_KEY_PATTERN_test k' = true.
Proof.
  revert k w. induction i as [|i IH]; intros k w Hk.
  - now exists k, w.
  - cbn [ChunkCacheOn.redraw]. unfold bind at 1.
    destruct (existsSync_returns (entry_path env k) w) as [b [w1 E]].
    rewrite E. destruct b.
    + unfold bind at 1. unfold randomBytes at 1.
      set (k2 := Crypto.toString_hex _).
      assert (Hk2 : lowercase_KEY_PATTERN_test k2 = true)
        by apply drawn_key_lowercase.
      rewrite (resolveCachePath_valid env k2 (lowercase_key_valid _ Hk2)).
      now apply IH.
    + now eexists _, _.
Qed.

(** X18.  On any file system whose existsSync answers and whose listing,
    stat and unlink leave the console alone: when ensureCacheDir returns,
    cacheChunks returns, never throws, and what it returns is the
    lower-case eight-digit key drawn before the write; and when what it
    attempts inside its try (serialising the entry and writing it) throws,
    that error is on the error stream when cacheChunks returns. *)
Theorem cacheChunks_returns_key_when_write_fails prompt chunks (w : World) :
  fst (ChunkCacheOn.ensureCacheDir fs env w) = Return tt ->
  exists key wk,
    drawKey fs env w = (Return (key, Some (entry_path env key)), wk)
    /\ lowercase_KEY_PATTERN_test key = true
    /\ fst (ChunkCacheOn.cacheChunks fs stringifiable env prompt chunks w)
       = Return key
    /\ forall e,
         fst (attempt fs stringifiable env prompt chunks key
                (entry_path env key) (clock wk) wk) = Throw e ->
         In (Stderr_error,
             Logger.formatMessage env
               (lit "Failed to cache chunks: " ++ err_text e))
            (console (snd (ChunkCacheOn.cacheChunks fs stringifiable env
                             prompt chunks w))).
Proof.
  intros He.
  destruct (ChunkCacheOn.ensureCacheDir fs env w) as [r w1] eqn:E1.
  cbn [fst] in He. subst r.
  destruct (cleanExpiredFiles_returns w1) as [w2 E2].
  set (w3 := set_drawn (drawn w2 + 4) w2).
  set (k0 := Crypto.toString_hex (map (entropy w2) (seq (drawn w2) 4))).
  assert (Hk0 : lowercase_KEY_PATTERN_test k0 = true)
    by apply drawn_key_lowercase.
  destruct (redraw_returns_on 5 k0 w3 Hk0) as [key [wk [Er Hk]]].
  assert (Ed : drawKey fs env w
               = (Return (key, Some (entry_path env key)), wk)).
  { unfold drawKey.
    erewrite bind_Return by exact E1.
    erewrite bind_Return by exact E2.
    unfold bind at 1. unfold randomBytes at 1. fold k0 w3.
    rewrite (resolveCachePath_valid env k0 (lowercase_key_valid _ Hk0)).
    exact Er. }
  exists key, wk. split; [exact Ed|]. split; [exact Hk|].
  (* the rest of cacheChunks, from the world the draws left *)
  assert (Erun : ChunkCacheOn.cacheChunks fs stringifiable env prompt chunks w
    = bind (try_catch
              (attempt fs stringifiable env prompt chunks key
                 (entry_path env key) (clock wk))
              (fun error =>
                 Logger.error env
                   (lit "Failed to cache chunks: " ++ err_text error)))
        (fun _ => bind (ChunkCacheOn.enforceFileLimits fs env)
                    (fun _ => ret key)) wk).
  { unfold ChunkCacheOn.cacheChunks.
    erewrite bind_Return by exact E1.
    erewrite bind_Return by exact E2.
    unfold bind at 1. unfold randomBytes at 1. fold k0 w3.
    rewrite (resolveCachePath_valid env k0 (lowercase_key_valid _ Hk0)).
    erewrite bind_Return by exact Er.
    reflexivity. }
  destruct (try_catch
              (attempt fs stringifiable env prompt chunks key
                 (entry_path env key) (clock wk))
              (fun error =>
                 Logger.error env
                   (lit "Failed to cache chunks: " ++ err_text error)) wk)
    as [rs ws] eqn:Es.
  assert (Hrs : rs = Return tt /\
                forall e,
                  fst (attempt fs stringifiable env prompt chunks key
                         (entry_path env key) (clock wk) wk) = Throw e ->
                  In (Stderr_error,
                      Logger.formatMessage env
                        (lit "Failed to cache chunks: " ++ err_text e))
                     (console ws)).
  { revert Es. unfold try_catch.
    destruct (attempt fs stringifiable env prompt chunks key
                (entry_path env key) (clock wk) wk) as [[[]|e0] wt].
    - intros [= <- <-]. split; [reflexivity|]. intros e H. discriminate H.
    - unfold Logger.error, console_error. intros [= <- <-].
      split; [reflexivity|]. intros e [= <-]. cbn.
      apply in_or_app. right. now left. }
  destruct Hrs as [-> Hlog].
  destruct (enforceFileLimits_returns ws) as [w' Ee].
  assert (Efin : ChunkCacheOn.cacheChunks fs stringifiable env prompt chunks w
                 = (Return key, w')).
  { rewrite Erun. erewrite bind_Return by exact Es.
    erewrite bind_Return by exact Ee. reflexivity. }
  rewrite Efin. cbn [fst snd].
  split; [reflexivity|].
  intros e Hthrow.
  pose proof (enforceFileLimits_quiet ws) as [l Hl].
  rewrite Ee in Hl. cbn [snd] in Hl. rewrite Hl.
  apply in_or_app. left. now apply Hlog.
Qed.

End Guarded.
End GuardedFacts.

(** *** clearCache where an entry cannot be removed *)

Module PosixFacts.
Import Node PathSpec RunSpec RunFacts FsFacts DirFacts.
Import ChunkCache CacheSpec CachePathFacts PosixSpec.

Section Posix.

Variable EditChunk : Type.
Variable env : Env.
Variable writeFileSync : jstring -> Text EditChunk -> M EditChunk unit.
Local Abbreviation M := (Node.M EditChunk).
Local Abbreviation World := (Node.World EditChunk).
Local Abbreviation fs := (Posix.fs writeFileSync).

Lemma In_child_names d paths n :
  In n (Posix.child_names d paths)
  <-> exists q, In q paths /\ child_name d q = Some n.
Proof.
  induction paths as [|q paths IH]; cbn [Posix.child_names].
  - split; [intros [] | intros [q [[] _]]].
  - destruct (child_name d q) as [m|] eqn:E.
    + split.
      * intros [<-|H]; [exists q; split; [now left | exact E]|].
        apply IH in H as [r [Hr Er]]. exists r. split; [now right | exact Er].
      * intros [r [[<-|Hr] Er]].
        -- left. congruence.
        -- right. apply IH. eauto.
    + rewrite IH. split.
      * intros [r [Hr Er]]. exists r. split; [now right | exact Er].
      * intros [r [[<-|Hr] Er]]; [congruence | eauto].
Qed.

Lemma In_listing_posix d (w : World) n :
  In n (Posix.listing d w)
  <-> exists q, In q (map fst (files w) ++ map fst (dirs w))
                /\ child_name d q = Some n.
Proof. unfold Posix.listing. rewrite nodup_In. apply In_child_names. Qed.

(** [Posix] is a file system as [GuardedFacts] asks for. *)
Lemma existsSync_returns p (w : World) :
  exists b w', Platform.existsSync fs p w = (Return b, w').
Proof. now eexists _, _. Qed.

Lemma readdirSync_quiet p :
  keeps OnSpec.console_kept (Platform.readdirSync fs p).
Proof.
  intros w. cbn [Platform.readdirSync Posix.fs]. unfold Posix.readdirSync.
  cbv zeta. cbn [dirs files traced].
  destruct (is_some (assoc p (dirs w)));
    [|destruct (is_some (assoc p (files w)))];
    exists []; cbn; now rewrite app_nil_r.
Qed.

Lemma statSync_quiet p :
  keeps OnSpec.console_kept (Platform.statSync_mtimeMs fs p).
Proof.
  intros w. cbn [Platform.statSync_mtimeMs Posix.fs].
  unfold statSync_mtimeMs. cbv zeta. cbn [dirs files traced].
  destruct (assoc p (files w)); [|destruct (assoc p (dirs w))];
    exists []; cbn; now rewrite app_nil_r.
Qed.

Lemma unlinkSync_quiet p :
  keeps OnSpec.console_kept (Platform.unlinkSync fs p).
Proof.
  intros w. cbn [Platform.unlinkSync Posix.fs]. unfold Posix.unlinkSync.
  cbv zeta. cbn [dirs files traced write_fails].
  destruct (is_some (assoc p (dirs w)));
    [|destruct (assoc p (files w)); [destruct (write_fails w p)|]];
    exists []; cbn; now rewrite app_nil_r.
Qed.

(** *** What [mkdir -p] makes *)

Lemma join_segments p : Path.join_with (Path.segments p) = p.
Proof.
  induction p as [|c p IH]; [reflexivity|].
  cbn [Path.segments]. destruct (N.eqb c Path.SLASH) eqn:Ec.
  - apply N.eqb_eq in Ec. subst c.
    rewrite PathFacts.join_with_cons by apply PathFacts.segments_nonempty.
    now rewrite IH.
  - destruct (Path.segments p) as [|seg rest] eqn:Es.
    + now destruct (PathFacts.segments_nonempty p).
    + rewrite <- IH. now destruct rest.
Qed.

Lemma join_with_app_length (l r : list jstring) :
  l <> [] -> r <> [] ->
  length (Path.join_with (l ++ r))
  = length (Path.join_with l) + 1 + length (Path.join_with r).
Proof.
  intros Hl Hr. induction l as [|x l IH]; [congruence|].
  destruct l as [|y l].
  - cbn [app]. rewrite PathFacts.join_with_cons by exact Hr.
    rewrite length_app. cbn [length Path.join_with]. lia.
  - change ((x :: y :: l) ++ r) with (x :: ((y :: l) ++ r)).
    rewrite (PathFacts.join_with_cons x ((y :: l) ++ r)) by discriminate.
    rewrite (PathFacts.join_with_cons x (y :: l)) by discriminate.
    rewrite !length_app. cbn [length]. rewrite IH by discriminate. lia.
Qed.

Lemma join_with_filter_length (f : jstring -> bool) (l : list jstring) :
  length (Path.join_with (filter f l)) <= length (Path.join_with l).
Proof.
  induction l as [|x l IH]; [reflexivity|].
  assert (Hx : length (Path.join_with l) <= length (Path.join_with (x :: l))).
  { destruct l as [|y l]; [cbn; lia|].
    rewrite (PathFacts.join_with_cons x (y :: l)) by discriminate.
    rewrite length_app. cbn [length]. lia. }
  cbn [filter]. destruct (f x); [|lia].
  destruct (filter f l) as [|y r] eqn:Ef.
  - destruct l as [|z l]; [reflexivity|].
    rewrite (PathFacts.join_with_cons x (z :: l)) by discriminate.
    rewrite length_app. cbn [Path.join_with]. lia.
  - destruct l as [|z l]; [discriminate Ef|].
    rewrite (PathFacts.join_with_cons x (y :: r)) by discriminate.
    rewrite (PathFacts.join_with_cons x (z :: l)) by discriminate.
    rewrite !length_app. cbn [length]. lia.
Qed.

Lemma prefixes_split {A} (l s : list A) :
  In l (Posix.prefixes s) -> exists r, l <> [] /\ r <> [] /\ s = l ++ r.
Proof.
  revert l. induction s as [|x s IH]; intros l; [intros []|].
  cbn [Posix.prefixes]. destruct s as [|y s]; [intros []|].
  intros [<-|H].
  - exists (y :: s). repeat split; discriminate.
  - apply in_map_iff in H as [l' [<- Hl']].
    destruct (IH l' Hl') as [r [_ [Hr E]]].
    exists r. split; [discriminate|]. split; [exact Hr|].
    cbn [app]. now rewrite <- E.
Qed.

(** No directory [mkdir -p] walks through has a longer path than the one
    it is asked for. *)
Lemma ancestors_length p q :
  In q (Posix.ancestors p ++ [p]) -> length q <= length p.
Proof.
  intros H. apply in_app_or in H as [H|[<-|[]]]; [|lia].
  unfold Posix.ancestors in H. apply in_map_iff in H as [l [<- Hl]].
  apply prefixes_split in Hl as [r [Hl [Hr E]]].
  pose proof (join_with_filter_length
                (fun s => negb (Js.eqb s [])) (Path.segments p)) as Hf.
  rewrite E, join_with_app_length, join_segments in Hf by assumption.
  cbn [length]. lia.
Qed.

(** So none of them is a path inside it. *)
Lemma chain_not_inside p n :
  ~ In (p ++ Path.sep ++ n) (Posix.ancestors p ++ [p]).
Proof.
  intros H. apply ancestors_length in H.
  rewrite !length_app in H. cbn [length Path.sep] in H. lia.
Qed.

Lemma is_some_assoc {V} q (l : list (jstring * V)) :
  is_some (assoc q l) = true <-> In q (map fst l).
Proof.
  split.
  - destruct (assoc q l) as [v|] eqn:E; [|discriminate]. intros _.
    apply assoc_In in E. apply in_map_iff. now exists (q, v).
  - intros H. apply in_map_iff in H as [[q' v] [E H]]. cbn in E. subst q'.
    apply In_assoc in H as [u ->]. reflexivity.
Qed.

(** When the walk of [mkdir -p] comes through, every directory of the chain
    is there, no other was made, and no file was touched. *)
Lemma mkdir_chain_returns chain target (w w' : World) :
  Posix.mkdir_chain chain target w = (Return tt, w') ->
  files w' = files w /\ write_fails w' = write_fails w
  /\ (forall q, In q chain -> In q (map fst (dirs w')))
  /\ (forall q, In q (map fst (dirs w)) -> In q (map fst (dirs w')))
  /\ (forall q, In q (map fst (dirs w')) ->
                In q (map fst (dirs w)) \/ In q chain).
Proof.
  revert w. induction chain as [|c chain IH]; intros w.
  - cbn. intros [= <-]. repeat split; auto. intros q [].
  - cbn [Posix.mkdir_chain].
    destruct (is_some (assoc c (files w))); [discriminate|].
    destruct (is_some (assoc c (dirs w))) eqn:Ed.
    + intros H. apply IH in H as [Hf [Hw [Hin [Hup Hdown]]]].
      split; [exact Hf|]. split; [exact Hw|]. split; [|split].
      * intros q [<-|Hq]; [|auto]. apply Hup. now apply is_some_assoc.
      * exact Hup.
      * intros q Hq. destruct (Hdown q Hq); [now left | right; now right].
    + destruct (write_fails w c); [discriminate|].
      intros H. apply IH in H as [Hf [Hw [Hin [Hup Hdown]]]].
      cbn [files dirs write_fails set_dirs map fst] in *.
      split; [exact Hf|]. split; [exact Hw|]. split; [|split].
      * intros q [<-|Hq]; [|auto]. apply Hup. now left.
      * intros q Hq. apply Hup. now right.
      * intros q Hq. destruct (Hdown q Hq) as [[<-|H]|H];
          [right; now left | now left | right; now right].
Qed.

(** With something at its path ensureCacheDir makes no directory. *)
Lemma ensureCacheDir_present (w : World) :
  is_some (assoc (CACHE_DIR env) (files w))
  || is_some (assoc (CACHE_DIR env) (dirs w)) = true ->
  ChunkCacheOn.ensureCacheDir fs env w
  = (Return tt,
     traced (Call_chmod (CACHE_DIR env))
       (traced (Call_exists (CACHE_DIR env)) w)).
Proof.
  intros H.
  unfold ChunkCacheOn.ensureCacheDir, bind, try_catch.
  cbn [Platform.existsSync Platform.chmodSync Platform.mkdirSync Posix.fs].
  unfold existsSync, chmodSync, ret. cbn.
  rewrite H. cbn. now rewrite H.
Qed.

(** What ensureCacheDir leaves when it returns: the files as they were, the
    directories that were there and none new but those on the way to the
    cache directory, and the cache directory itself unless a regular file
    has its path. *)
Lemma ensureCacheDir_returns (w : World) :
  fst (ChunkCacheOn.ensureCacheDir fs env w) = Return tt ->
  exists w1,
    ChunkCacheOn.ensureCacheDir fs env w = (Return tt, w1)
    /\ files w1 = files w /\ write_fails w1 = write_fails w
    /\ (forall q, In q (map fst (dirs w)) -> In q (map fst (dirs w1)))
    /\ (forall q, In q (map fst (dirs w1)) ->
          In q (map fst (dirs w))
          \/ In q (Posix.ancestors (CACHE_DIR env) ++ [CACHE_DIR env]))
    /\ (is_some (assoc (CACHE_DIR env) (dirs w1)) = false ->
        is_some (assoc (CACHE_DIR env) (files w1)) = true).
Proof.
  set (D := CACHE_DIR env).
  destruct (is_some (assoc D (files w)) || is_some (assoc D (dirs w)))
    eqn:Ep.
  - intros _. rewrite (ensureCacheDir_present w Ep). fold D.
    eexists. split; [reflexivity|]. cbn [files dirs write_fails traced].
    repeat split; auto.
    intros Hd. rewrite Hd, orb_false_r in Ep. exact Ep.
  - unfold ChunkCacheOn.ensureCacheDir, bind, try_catch. fold D.
    cbn [Platform.existsSync Platform.chmodSync Platform.mkdirSync Posix.fs].
    unfold existsSync, Posix.mkdirSync, chmodSync, ret.
    rewrite Ep. cbn [negb].
    destruct (Posix.mkdir_chain (Posix.ancestors D ++ [D]) D
                (traced (Call_mkdir D) (traced (Call_exists D) w)))
      as [[[]|e] w1] eqn:Em; [|discriminate]. intros _.
    apply mkdir_chain_returns in Em as [Hf [Hw [Hin [Hup Hdown]]]].
    cbn [files dirs write_fails traced] in Hf, Hw, Hup, Hdown.
    assert (Hd : is_some (assoc D (dirs w1)) = true).
    { apply is_some_assoc, Hin, in_or_app. right. now left. }
    cbv zeta. cbn [files dirs traced]. rewrite Hd, orb_true_r.
    eexists. split; [reflexivity|]. cbn [files dirs write_fails traced].
    repeat split; auto. congruence.
Qed.

(** The loop of clearCache when every entry it meets can be removed. *)
Lemma clear_loop_removable (names : list jstring) (w : World) :
  NoDup names ->
  (forall n, In n names -> noslash n = true) ->
  (forall n, In n names -> is_json n = true -> removable env w n = true) ->
  exists w',
    for_of names (fun file (_ : unit) =>
      if is_json file
      then Platform.unlinkSync fs (Path.join [CACHE_DIR env; file])
      else ret tt) tt w = (Return tt, w')
    /\ dirs w' = dirs w
    /\ (forall q f, In (q, f) (files w') -> In (q, f) (files w))
    /\ (forall n, In n names -> is_json n = true ->
                  assoc (child_path env n) (files w') = None).
Proof.
  revert w. induction names as [|n names IH]; intros w Hnd Hns Hrem.
  - exists w. cbn. repeat split; auto. intros n [].
  - inversion Hnd as [|? ? Hnotin Hnd']; subst.
    cbn [for_of]. destruct (is_json n) eqn:Ej.
    + assert (Hs : simple n = true)
        by (apply json_name_simple; auto using in_eq).
      rewrite (join_child env n Hs).
      pose proof (Hrem n (in_eq _ _) Ej) as Hn.
      unfold removable in Hn.
      apply andb_true_iff in Hn as [Hn Hw].
      apply andb_true_iff in Hn as [Hf Hd].
      apply negb_true_iff in Hw. apply negb_true_iff in Hd.
      destruct (assoc (child_path env n) (files w)) as [fn|] eqn:En;
        [|discriminate Hf].
      set (w1 := set_files (without (child_path env n) (files w))
                   (traced (Call_unlink (child_path env n)) w)).
      assert (E1 : Platform.unlinkSync fs (child_path env n) w
                   = (Return tt, w1)).
      { cbn [Platform.unlinkSync Posix.fs]. unfold Posix.unlinkSync.
        cbn. now rewrite Hd, En, Hw. }
      rewrite (bind_Return _ _ _ _ _ _ E1).
      destruct (IH w1) as [w' [E [Hd' [Hsub Hgone]]]]; auto using in_cons.
      { intros m Hm Hjm.
        pose proof (Hrem m (in_cons _ _ _ Hm) Hjm) as Hmr.
        unfold removable in *. cbn.
        rewrite assoc_without_other; [exact Hmr|].
        intros Heq. apply child_path_inj in Heq. congruence. }
      exists w'. split; [exact E|]. split; [exact Hd'|]. split.
      * intros q f Hq. eapply In_without. apply Hsub, Hq.
      * intros m [<-|Hm] Hjm; [|auto].
        destruct (assoc (child_path env n) (files w')) as [g|] eqn:Eg;
          [|reflexivity].
        apply assoc_In, Hsub in Eg. cbn in Eg.
        apply In_assoc in Eg as [u Hu].
        now rewrite assoc_without_same in Hu.
    + assert (E1 : (ret tt : M unit) w = (Return tt, w)) by reflexivity.
      rewrite (bind_Return _ _ _ _ _ _ E1).
      destruct (IH w) as [w' [E [Hd' [Hsub Hgone]]]]; auto using in_cons.
      exists w'. repeat split; auto.
      intros m [<-|Hm] Hjm; [congruence | auto].
Qed.

(** clearCache and the getCacheStats after it, once ensureCacheDir has
    found or made the directory. *)
Lemma clearCache_in_directory (w w1 : World) :
  ChunkCacheOn.ensureCacheDir fs env w = (Return tt, w1) ->
  is_some (assoc (CACHE_DIR env) (dirs w1)) = true ->
  (forall n, In n (named_entries env w1) -> removable env w1 n = true) ->
  fst (ChunkCacheOn.clearCache fs env w) = Return tt
  /\ listed_entries env (snd (ChunkCacheOn.clearCache fs env w)) = []
  /\ exists s w',
       ChunkCacheOn.getCacheStats fs env
         (snd (ChunkCacheOn.clearCache fs env w)) = (Return s, w')
       /\ size s = 0.
Proof.
  intros E1 Hdir Hrem.
  set (D := CACHE_DIR env) in *.
  set (w1t := traced (Call_readdir D) w1).
  assert (Er : Platform.readdirSync fs D w1
               = (Return (Posix.listing D w1), w1t)).
  { cbn [Platform.readdirSync Posix.fs]. unfold Posix.readdirSync.
    cbv zeta. cbn [dirs traced]. now rewrite Hdir. }
  destruct (clear_loop_removable (Posix.listing D w1) w1t)
    as [w2 [E2 [Hd2 [Hsub Hgone]]]].
  { apply NoDup_nodup. }
  { intros n Hn. apply In_listing_posix in Hn as [q [_ Hq]].
    now apply child_name_Some in Hq. }
  { intros n Hn Hj. unfold removable. cbn [files dirs write_fails w1t traced].
    apply (Hrem n). unfold named_entries. fold D.
    apply filter_In. now split. }
  set (w3 := printed Stderr_warn
               (Logger.formatMessage env (lit "Cache emptied")) w2).
  assert (Ec : ChunkCacheOn.clearCache fs env w = (Return tt, w3)).
  { unfold ChunkCacheOn.clearCache. erewrite try_Return; [reflexivity|].
    fold D.
    erewrite bind_Return by exact E1.
    erewrite bind_Return by exact Er.
    erewrite bind_Return by exact E2.
    reflexivity. }
  rewrite Ec. cbn [fst snd].
  assert (Hd3 : is_some (assoc D (dirs w3)) = true)
    by (cbn [dirs w3 printed]; rewrite Hd2; exact Hdir).
  assert (Hf3 : files w3 = files w2) by reflexivity.
  assert (Hd3' : dirs w3 = dirs w1) by (cbn [dirs w3 printed]; exact Hd2).
  assert (Hnone : filter is_json (Posix.listing D w3) = []).
  { destruct (filter is_json (Posix.listing D w3)) as [|n r] eqn:E;
      [reflexivity|]. exfalso.
    assert (Hin : In n (filter is_json (Posix.listing D w3)))
      by (rewrite E; apply in_eq).
    apply filter_In in Hin as [Hin Hj].
    apply In_listing_posix in Hin as [q [Hq Hc]].
    assert (Hl : In n (Posix.listing D w1)).
    { apply In_listing_posix. exists q. split; [|exact Hc].
      rewrite Hf3, Hd3' in Hq.
      apply in_app_or in Hq as [Hq|Hq]; apply in_or_app; [left|now right].
      apply in_map_iff in Hq as [[q' f] [<- Hqf]].
      apply in_map_iff. exists (q', f). split; [reflexivity|].
      apply Hsub in Hqf. exact Hqf. }
    apply child_name_Some in Hc as [-> [_ _]].
    rewrite Hf3, Hd3' in Hq.
    apply in_app_or in Hq as [Hq|Hq].
    - apply in_map_iff in Hq as [[q' f] [Eq Hqf]]. cbn in Eq. subst q'.
      apply (In_assoc _ _ _ _) in Hqf as [u Hu].
      pose proof (Hgone n Hl Hj) as Hg. unfold child_path in Hg. fold D in Hg.
      change (D ++ Path.sep ++ n) with (D ++ Path.SLASH :: n) in Hg.
      congruence.
    - assert (Hr : removable env w1 n = true).
      { apply Hrem. unfold named_entries. fold D.
        apply filter_In. now split. }
      unfold removable in Hr.
      apply andb_true_iff in Hr as [Hr _].
      apply andb_true_iff in Hr as [_ Hr]. apply negb_true_iff in Hr.
      apply in_map_iff in Hq as [[q' t] [Eq Hqt]]. cbn in Eq. subst q'.
      apply (In_assoc _ _ _ _) in Hqt as [u Hu].
      unfold child_path in Hr. fold D in Hr.
      change (D ++ Path.sep ++ n) with (D ++ Path.SLASH :: n) in Hr.
      rewrite Hu in Hr. discriminate Hr. }
  split; [reflexivity|]. split.
  - unfold listed_entries, named_entries. fold D. now rewrite Hd3.
  - assert (Hp : is_some (assoc D (files w3)) || is_some (assoc D (dirs w3))
                 = true) by (rewrite Hd3; apply orb_true_r).
    pose proof (ensureCacheDir_present w3 Hp) as E4. fold D in E4.
    unfold ChunkCacheOn.getCacheStats. fold D.
    erewrite bind_Return by exact E4.
    unfold try_catch, bind, ret.
    cbn [Platform.readdirSync Posix.fs]. unfold Posix.readdirSync.
    cbv zeta. cbn [dirs traced]. rewrite Hd3.
    eexists _, _. split; [reflexivity|]. cbn [size].
    change (Posix.listing D (traced (Call_readdir D)
              (traced (Call_chmod D) (traced (Call_exists D) w3))))
      with (Posix.listing D w3).
    now rewrite Hnone.
Qed.

(** The same where a regular file has the directory's path: nothing is
    listed, before or after. *)
Lemma clearCache_under_a_file (w w1 : World) :
  ChunkCacheOn.ensureCacheDir fs env w = (Return tt, w1) ->
  is_some (assoc (CACHE_DIR env) (dirs w1)) = false ->
  is_some (assoc (CACHE_DIR env) (files w1)) = true ->
  fst (ChunkCacheOn.clearCache fs env w) = Return tt
  /\ listed_entries env (snd (ChunkCacheOn.clearCache fs env w)) = []
  /\ exists s w',
       ChunkCacheOn.getCacheStats fs env
         (snd (ChunkCacheOn.clearCache fs env w)) = (Return s, w')
       /\ size s = 0.
Proof.
  intros E1 Hd Hf.
  set (D := CACHE_DIR env) in *.
  set (w3 := printed Stderr_error
               (Logger.formatMessage env
                  (lit "Failed to empty cache: " ++ err_text ENOTDIR))
               (traced (Call_readdir D) w1)).
  assert (Ec : ChunkCacheOn.clearCache fs env w = (Return tt, w3)).
  { unfold ChunkCacheOn.clearCache. fold D.
    unfold try_catch, bind at 1. rewrite E1.
    unfold bind.
    cbn [Platform.readdirSync Posix.fs]. unfold Posix.readdirSync.
    cbv zeta. cbn [dirs files traced]. now rewrite Hd, Hf. }
  rewrite Ec. cbn [fst snd].
  assert (Hd3 : is_some (assoc D (dirs w3)) = false) by exact Hd.
  assert (Hf3 : is_some (assoc D (files w3)) = true) by exact Hf.
  split; [reflexivity|]. split.
  - unfold listed_entries. fold D. now rewrite Hd3.
  - assert (Hp : is_some (assoc D (files w3)) || is_some (assoc D (dirs w3))
                 = true) by now rewrite Hf3.
    pose proof (ensureCacheDir_present w3 Hp) as E4. fold D in E4.
    unfold ChunkCacheOn.getCacheStats. fold D.
    erewrite bind_Return by exact E4.
    unfold try_catch, bind, ret.
    cbn [Platform.readdirSync Posix.fs]. unfold Posix.readdirSync.
    cbv zeta. cbn [dirs files traced]. rewrite Hd3, Hf3.
    eexists _, _. split; reflexivity.
Qed.

(** C9, as the code has it.  When ensureCacheDir returns (the cache
    directory is there or can be made) and every entry (every name that
    ends in ".json" directly under the directory's path) is a regular file
    that the file system lets be removed, clearCache returns having removed
    every entry, and getCacheStats run right after it returns size 0. *)
Theorem clearCache_removes_removable_entries (w : World) :
  fst (ChunkCacheOn.ensureCacheDir fs env w) = Return tt ->
  (forall n, In n (named_entries env w) -> removable env w n = true) ->
  fst (ChunkCacheOn.clearCache fs env w) = Return tt
  /\ listed_entries env (snd (ChunkCacheOn.clearCache fs env w)) = []
  /\ exists s w',
       ChunkCacheOn.getCacheStats fs env
         (snd (ChunkCacheOn.clearCache fs env w)) = (Return s, w')
       /\ size s = 0.
Proof.
  intros He Hrem.
  destruct (ensureCacheDir_returns w He)
    as [w1 [E1 [Hf [Hw [Hup [Hdown Hfile]]]]]].
  destruct (is_some (assoc (CACHE_DIR env) (dirs w1))) eqn:Hd.
  - apply (clearCache_in_directory w w1 E1 Hd).
    intros n Hn. unfold named_entries in Hn.
    apply filter_In in Hn as [Hn Hj].
    apply In_listing_posix in Hn as [q [Hq Hc]].
    assert (Hin : In n (named_entries env w)).
    { apply filter_In. split; [|exact Hj].
      apply In_listing_posix. exists q. split; [|exact Hc].
      rewrite Hf in Hq.
      apply in_app_or in Hq as [Hq|Hq]; apply in_or_app; [now left|right].
      destruct (Hdown q Hq) as [H|H]; [exact H|].
      apply child_name_Some in Hc as [-> _].
      now apply chain_not_inside in H. }
    pose proof (Hrem n Hin) as Hr. unfold removable in *.
    rewrite Hf, Hw.
    apply andb_true_iff in Hr as [Hr Hwf].
    apply andb_true_iff in Hr as [Hrf Hrd].
    rewrite Hrf, Hwf, andb_true_r. cbn [andb].
    apply negb_true_iff in Hrd. apply negb_true_iff.
    destruct (is_some (assoc (child_path env n) (dirs w1))) eqn:E;
      [|reflexivity].
    apply is_some_assoc, Hdown in E as [E|E].
    + apply is_some_assoc in E. congruence.
    + now apply chain_not_inside in E.
  - exact (clearCache_under_a_file w w1 E1 Hd (Hfile eq_refl)).
Qed.

End Posix.
End PosixFacts.

(** ** The file system that fails, on concrete worlds *)

Module PosixChecks.
Import Node PathSpec RunSpec ChunkCache CacheSpec Samples.
Import PosixSpec PosixSamples UnguardedFacts GuardedFacts PosixFacts.

(** With the temporary directory's path naming a regular file, the cache
    directory cannot be made. *)
Example mkdir_under_a_file :
  ChunkCacheOn.ensureCacheDir (Posix.fs writeFileSync) env
    world_tmp_is_a_file
  = (Throw ENOTDIR,
     traced (Call_mkdir dir) (traced (Call_exists dir) world_tmp_is_a_file))
  /\ Posix.ancestors dir = [lit "/tmp"].
Proof. split; vm_compute; reflexivity. Qed.

Lemma cacheChunks_throws_witness :
  fst (ChunkCacheOn.ensureCacheDir (Posix.fs writeFileSync) env
         world_tmp_is_a_file) = Throw ENOTDIR
  /\ fst (ChunkCacheOn.cacheChunks (Posix.fs writeFileSync) stringifiable
            env (lit "fix bug") [1; 2] world_tmp_is_a_file)
     = Throw ENOTDIR
  /\ console (snd (ChunkCacheOn.cacheChunks (Posix.fs writeFileSync)
                     stringifiable env (lit "fix bug") [1; 2]
                     world_tmp_is_a_file)) = []
  /\ fst (ChunkCacheOn.cleanExpiredFiles (Posix.fs writeFileSync) env
            world_tmp_is_a_file) = Return tt.
Proof.
  assert (H : fst (ChunkCacheOn.ensureCacheDir (Posix.fs writeFileSync) env
                     world_tmp_is_a_file) = Throw ENOTDIR)
    by (vm_compute; reflexivity).
  destruct (cacheChunks_throws_when_ensureCacheDir_throws chunk
              (Posix.fs writeFileSync) stringifiable env (lit "fix bug")
              [1; 2] world_tmp_is_a_file ENOTDIR H) as [Hc [_ [Hs _]]].
  split; [exact H|]. rewrite Hc, Hs. cbn [fst snd].
  split; [reflexivity|]. split; [vm_compute|]; reflexivity.
Defined.

Lemma cacheChunks_returns_key_when_write_fails_witness :
  fst (ChunkCacheOn.ensureCacheDir (Posix.fs writeFileSync) env
         (world_full_disk 1000 [])) = Return tt
  /\ exists key,
       fst (ChunkCacheOn.cacheChunks (Posix.fs writeFileSync) stringifiable
              env (lit "fix bug") [1; 2] (world_full_disk 1000 []))
       = Return key
       /\ In (Stderr_error,
              Logger.formatMessage env
                (lit "Failed to cache chunks: " ++ err_text EIO))
             (console
                (snd (ChunkCacheOn.cacheChunks (Posix.fs writeFileSync)
                        stringifiable env (lit "fix bug") [1; 2]
                        (world_full_disk 1000 [])))).
Proof.
  assert (He : fst (ChunkCacheOn.ensureCacheDir (Posix.fs writeFileSync) env
                      (world_full_disk 1000 [])) = Return tt)
    by (vm_compute; reflexivity).
  split; [exact He|].
  destruct (cacheChunks_returns_key_when_write_fails chunk
              (Posix.fs writeFileSync) stringifiable env
              (existsSync_returns chunk writeFileSync)
              (readdirSync_quiet chunk writeFileSync)
              (statSync_quiet chunk writeFileSync)
              (unlinkSync_quiet chunk writeFileSync)
              (lit "fix bug") [1; 2] (world_full_disk 1000 []) He)
    as [key [wk [Ed [_ [Hr Hlog]]]]].
  exists key. split; [exact Hr|]. apply Hlog.
  vm_compute in Ed. inversion Ed. subst key wk.
  vm_compute. reflexivity.
Defined.

(** C9 fails as the specification states it.  A directory named like an
    entry is listed, cannot be unlinked, and is still counted afterwards;
    and where the cache directory cannot be made, clearCache prints the
    error and the getCacheStats after it reports no size but throws. *)
Lemma directory_entry_survives_clearCache :
  let w' := snd (ChunkCacheOn.clearCache (Posix.fs writeFileSync) env
                   world_directory_entry) in
  let v' := snd (ChunkCacheOn.clearCache (Posix.fs writeFileSync) env
                   world_tmp_is_a_file) in
  (listed_entries env world_directory_entry
   = [lit "abcdef12.json"; lit "old.json"]
   /\ fst (ChunkCacheOn.clearCache (Posix.fs writeFileSync) env
             world_directory_entry) = Return tt
   /\ console w'
      = [(Stderr_error,
          Logger.formatMessage env
            (lit "Failed to empty cache: " ++ err_text EISDIR))]
   /\ listed_entries env w' = [lit "old.json"]
   /\ fst (ChunkCacheOn.getCacheStats (Posix.fs writeFileSync) env w')
      = Return {| size := 1; ttl := 600000; maxSize := 50;
                  cacheDir := dir |})
  /\ (fst (ChunkCacheOn.clearCache (Posix.fs writeFileSync) env
             world_tmp_is_a_file) = Return tt
      /\ console v'
         = [(Stderr_error,
             Logger.formatMessage env
               (lit "Failed to empty cache: " ++ err_text ENOTDIR))]
      /\ fst (ChunkCacheOn.getCacheStats (Posix.fs writeFileSync) env v')
         = Throw ENOTDIR).
Proof. repeat split; vm_compute; reflexivity. Qed.

(** With only the temporary directory there, ensureCacheDir makes the cache
    directory. *)
Example mkdir_in_tmp :
  let w := set_dirs [(lit "/tmp", 0%Z)] (world_at 1000 []) in
  fst (ChunkCacheOn.ensureCacheDir (Posix.fs writeFileSync) env w)
  = Return tt
  /\ dirs (snd (ChunkCacheOn.ensureCacheDir (Posix.fs writeFileSync) env w))
     = [(dir, 1000%Z); (lit "/tmp", 0%Z)].
Proof. split; vm_compute; reflexivity. Qed.

Lemma clearCache_removes_removable_entries_witness :
  fst (ChunkCacheOn.ensureCacheDir (Posix.fs writeFileSync) env world_fifty)
  = Return tt
  /\ length (named_entries env world_fifty) = 50
  /\ forallb (removable env world_fifty) (named_entries env world_fifty)
     = true
  /\ listed_entries env
       (snd (ChunkCacheOn.clearCache (Posix.fs writeFileSync) env
               world_fifty)) = []
  /\ exists s w',
       ChunkCacheOn.getCacheStats (Posix.fs writeFileSync) env
         (snd (ChunkCacheOn.clearCache (Posix.fs writeFileSync) env
                 world_fifty)) = (Return s, w')
       /\ size s = 0.
Proof.
  assert (He : fst (ChunkCacheOn.ensureCacheDir (Posix.fs writeFileSync) env
                      world_fifty) = Return tt)
    by (vm_compute; reflexivity).
  assert (Hr : forallb (removable env world_fifty)
                 (named_entries env world_fifty) = true)
    by (vm_compute; reflexivity).
  split; [exact He|]. split; [vm_compute; reflexivity|].
  split; [exact Hr|].
  exact (proj2 (clearCache_removes_removable_entries chunk env writeFileSync
                  world_fifty He
                  (proj1 (forallb_forall _ _) Hr))).
Defined.

End PosixChecks.
